(** * TheHandy simulator: command decoder and movement model

    A shallow embedding of [handy-simulator.py]:
    - [decode_varint] and [parse_linear_cmd_from_protobuf], the heuristic
      decoder of the binary LinearCmd payload;
    - [HandySimulator.start_movement] and [HandySimulator.update_position],
      the movement model, and [HandySimulator.handle_message];
    - the bars of [VisualDisplay] ([draw_position_bar], [draw_progress_bar],
      [update_display]) and what the loops feed the model.

    Python values are modelled as the interpreter has them: [bytes] as a list
    of bytes, [int] as [Z] (unbounded), [float] as an IEEE-754 binary64 value
    ([spec_float] with precision 53 and maximal exponent 1024, operations
    rounding to nearest even), exceptions as the [Raise] outcome of a
    [result].

    The definitions come first.  The properties follow: the decoder, then
    binary64 arithmetic as the rounding of real arithmetic (rounding is
    monotone and exact on representable numbers), then the movement model,
    the wire format, the loops and the display. *)

From Stdlib Require Import ZArith List Bool Lia.
From Stdlib Require Import Strings.Byte.
From Stdlib Require Import Floats.SpecFloat.
From Stdlib Require Import Reals Lra.
Import ListNotations.
Open Scope Z_scope.

(** ** The Python runtime the program relies on *)

Module Py.

(** The exceptions the modelled code can raise. *)
Inductive exn : Type :=
| StructError
| ValueError
| IndexError
| OverflowError
| ZeroDivisionError.

Inductive result (A : Type) : Type :=
| Ok (a : A)
| Raise (e : exn).

Arguments Ok {A} a.
Arguments Raise {A} e.

Definition bind {A B : Type} (r : result A) (k : A -> result B) : result B :=
  match r with
  | Ok a => k a
  | Raise e => Raise e
  end.

(** *** bytes *)

Definition bytes := list byte.

Definition byte_val (b : byte) : Z := Z.of_N (Byte.to_N b).

(** [data[i]] for a non-negative index. *)
Definition getitem (data : bytes) (i : nat) : result byte :=
  match nth_error data i with
  | Some b => Ok b
  | None => Raise IndexError
  end.

(** [data[i:j]] for [0 <= i]: the slice is clipped to the buffer. *)
Definition slice (data : bytes) (i j : nat) : bytes :=
  firstn (j - i) (skipn i data).

(** [range(n)] and [range(start, -1, -1)]. *)
Definition range (n : Z) : list nat := seq 0 (Z.to_nat n).

Definition range_down (start : Z) : list nat := rev (seq 0 (Z.to_nat (start + 1))).

(** *** float: IEEE-754 binary64 *)

Definition float := spec_float.

Definition prec : Z := 53.
Definition emax : Z := 1024.

Definition fadd : float -> float -> float := SFadd prec emax.
Definition fsub : float -> float -> float := SFsub prec emax.
Definition fmul : float -> float -> float := SFmul prec emax.
Definition fabs : float -> float := SFabs.
Definition flt : float -> float -> bool := SFltb.
Definition fle : float -> float -> bool := SFleb.

Definition is_zero (x : float) : bool :=
  match x with
  | S754_zero _ => true
  | _ => false
  end.

(** [x / y] on floats: a zero divisor raises. *)
Definition truediv (x y : float) : result float :=
  if is_zero y then Raise ZeroDivisionError else Ok (SFdiv prec emax x y).

(** [float(n)] for an int, as the arithmetic operators apply it to an int
    operand: rounded to nearest even, [OverflowError] when out of range. *)
Definition float_of_int (n : Z) : result float :=
  match binary_normalize prec emax n 0 false with
  | S754_infinity _ => Raise OverflowError
  | f => Ok f
  end.

(** Comparison of a float with an int is exact (no conversion). *)
Definition compare_float_int (x : float) (n : Z) : option comparison :=
  match x with
  | S754_nan => None
  | S754_infinity s => Some (if s then Lt else Gt)
  | S754_zero _ => Some (0 ?= n)
  | S754_finite s m e =>
      let v := cond_Zopp s (Zpos m) in
      Some (if 0 <=? e then (v * 2 ^ e ?= n) else (v ?= n * 2 ^ (- e)))
  end.

Definition float_ge_int (x : float) (n : Z) : bool :=
  match compare_float_int x n with
  | Some (Gt | Eq) => true
  | _ => false
  end.

(** The builtins [min(a, b)] and [max(a, b)]: the first argument is kept
    unless the second compares strictly smaller (larger). *)
Definition min (a b : float) : float := if flt b a then b else a.
Definition max (a b : float) : float := if flt a b then b else a.

(** Literals. *)
Definition f0 : float := S754_zero false.
Definition f1 : float := S754_finite false 4503599627370496 (-52).
Definition f0_5 : float := S754_finite false 4503599627370496 (-53).
Definition f125 : float := S754_finite false 8796093022208000 (-46).
Definition f1000 : float := S754_finite false 8796093022208000 (-43).
Definition f0_001 : float := S754_finite false 4611686018427388 (-62).

(** *** struct.unpack('<d', ...) *)

Definition le_uint (bs : bytes) : Z :=
  fold_right (fun b acc => byte_val b + 256 * acc) 0 bs.

(** The binary64 interchange format: sign bit 63, biased exponent in bits
    52..62, fraction in bits 0..51. *)
Definition float_of_bits (x : Z) : float :=
  let s := Z.testbit x 63 in
  let e := Z.land (Z.shiftr x 52) 2047 in
  let m := Z.land x (2 ^ 52 - 1) in
  if e =? 0 then
    match m with
    | Zpos p => S754_finite s p (-1074)
    | _ => S754_zero s
    end
  else if e =? 2047 then
    if m =? 0 then S754_infinity s else S754_nan
  else
    match m + 2 ^ 52 with
    | Zpos p => S754_finite s p (e - 1075)
    | _ => S754_nan
    end.

Definition struct_unpack_d (bs : bytes) : result float :=
  if Nat.eqb (length bs) 8 then Ok (float_of_bits (le_uint bs))
  else Raise StructError.

End Py.

Import Py.

Notation "x <- r ;; k" := (bind r (fun x => k))
  (at level 61, r at next level, right associativity).

(** ** The decoder *)

Module Decoder.

(** The body of the [while] loop of [decode_varint]; [rest] is
    [data[offset + consumed:]], so the loop ends when it is empty. *)
Fixpoint decode_varint_loop (rest : bytes) (result shift : Z) (consumed : nat)
  : Py.result (Z * nat) :=
  match rest with
  | [] => Ok (result, consumed)
  | b :: rest' =>
      let byte := byte_val b in
      let result := Z.lor result (Z.shiftl (Z.land byte 127) shift) in
      let consumed := S consumed in
      if Z.land byte 128 =? 0 then Ok (result, consumed)
      else
        let shift := shift + 7 in
        if 63 <? shift then Raise ValueError
        else decode_varint_loop rest' result shift consumed
  end.

Definition decode_varint (data : bytes) (offset : nat) : Py.result (Z * nat) :=
  decode_varint_loop (skipn offset data) 0 0 0.

(** One entry of the ["vectors"] list of the returned dict. *)
Record vector : Type := {
  position : float;
  duration_ms : Z
}.

Record LinearCmd : Type := {
  vectors : list vector
}.

(** [0.0 <= val <= 1.0] *)
Definition in_unit (val : float) : bool := fle f0 val && fle val f1.

(** Method 1: the loop over [range(len(data) - 7, -1, -1)]. *)
Fixpoint find_position (data : bytes) (idx : list nat) : option float :=
  match idx with
  | [] => None
  | i :: idx' =>
      match struct_unpack_d (slice data i (i + 8)) with
      | Ok val => if in_unit val then Some val else find_position data idx'
      | Raise _ => find_position data idx'
      end
  end.

(** Method 2: the loop over [range(len(data) - 2)].  The test [data[i] == 0x10]
    is outside the [try], so an [IndexError] there would escape. *)
Fixpoint find_duration (data : bytes) (idx : list nat) : Py.result (option Z) :=
  match idx with
  | [] => Ok None
  | i :: idx' =>
      b <- getitem data i ;;
      if byte_val b =? 16 then
        match decode_varint data (i + 1) with
        | Ok (dur, _) =>
            if (10 <=? dur) && (dur <=? 10000) then Ok (Some dur)
            else find_duration data idx'
        | Raise _ => find_duration data idx'
        end
      else find_duration data idx'
  end.

(** [duration if duration else 500] *)
Definition duration_or_default (duration : option Z) : Z :=
  match duration with
  | Some d => if d =? 0 then 500 else d
  | None => 500
  end.

Definition parse_linear_cmd_from_protobuf (data : bytes) : Py.result (option LinearCmd) :=
  let n := Z.of_nat (length data) in
  let position := find_position data (range_down (n - 7)) in
  duration <- find_duration data (range (n - 2)) ;;
  match position with
  | Some p =>
      Ok (Some {| vectors := [ {| position := p;
                                  duration_ms := duration_or_default duration |} ] |})
  | None => Ok None
  end.

End Decoder.

(** ** The movement model *)

Module Movement.

Record t : Type := {
  start_position : float;
  target_position : float;
  duration_ms : Z;
  start_time_ms : float;
  is_active : bool
}.

End Movement.

Module HandySimulator.

(** The position state of the simulator object. *)
Record t : Type := {
  current_position : float;
  target_position : float;
  current_movement : option Movement.t;
  speed_mms : float
}.

(** [__init__] *)
Definition init : t := {|
  current_position := f0_5;
  target_position := f0_5;
  current_movement := None;
  speed_mms := f0
|}.

(** [start_movement]; [now] is the value [get_time_ms()] returns.  The only
    statement that can raise is the speed computation, which precedes every
    assignment to [self]. *)
Definition start_movement (self : t) (position : float) (duration_ms : Z) (now : float)
  : Py.result t :=
  let position := Py.max f0 (Py.min f1 position) in
  let duration_ms := Z.max 10 duration_ms in
  let distance := fabs (fsub position (current_position self)) in
  speed <- (if flt f0_001 distance then
              let distance_mm := fmul distance f125 in
              d <- float_of_int duration_ms ;;
              secs <- truediv d f1000 ;;
              truediv distance_mm secs
            else Ok f0) ;;
  Ok {| current_position := current_position self;
        target_position := position;
        current_movement :=
          Some {| Movement.start_position := current_position self;
                  Movement.target_position := position;
                  Movement.duration_ms := duration_ms;
                  Movement.start_time_ms := now;
                  Movement.is_active := true |};
        speed_mms := speed |}.

(** [update_position] (the spec's [tick]); [now] is the value
    [get_time_ms()] returns. *)
Definition update_position (self : t) (now : float) : Py.result t :=
  match current_movement self with
  | Some movement =>
      if Movement.is_active movement then
        let elapsed_ms := fsub now (Movement.start_time_ms movement) in
        if float_ge_int elapsed_ms (Movement.duration_ms movement) then
          Ok {| current_position := Movement.target_position movement;
                target_position := target_position self;
                current_movement := None;
                speed_mms := f0 |}
        else
          d <- float_of_int (Movement.duration_ms movement) ;;
          progress <- truediv elapsed_ms d ;;
          Ok {| current_position :=
                  fadd (Movement.start_position movement)
                       (fmul (fsub (Movement.target_position movement)
                                   (Movement.start_position movement))
                             progress);
                target_position := target_position self;
                current_movement := current_movement self;
                speed_mms := speed_mms self |}
      else Ok self
  | None => Ok self
  end.

(** [handle_message]: every decoded vector starts a movement. *)
Fixpoint start_movements (self : t) (vs : list Decoder.vector) (now : float) : Py.result t :=
  match vs with
  | [] => Ok self
  | v :: vs' =>
      self' <- start_movement self (Decoder.position v) (Decoder.duration_ms v) now ;;
      start_movements self' vs' now
  end.

Definition handle_message (self : t) (data : bytes) (now : float) : Py.result t :=
  parsed <- Decoder.parse_linear_cmd_from_protobuf data ;;
  match parsed with
  | Some cmd => start_movements self (Decoder.vectors cmd) now
  | None => Ok self
  end.

End HandySimulator.

(** ** Specification-side notions used to state the decoder's properties *)

Module DecoderSpec.

Import Decoder.

(** The first index of [idx], in list order, at which [f] answers. *)
Fixpoint first_some {A : Type} (f : nat -> option A) (idx : list nat) : option A :=
  match idx with
  | [] => None
  | i :: idx' =>
      match f i with
      | Some a => Some a
      | None => first_some f idx'
      end
  end.

(** The double held by the 8-byte window at byte offset [i]. *)
Definition window (data : bytes) (i : nat) : Py.result float :=
  struct_unpack_d (slice data i (i + 8)).

(** The position the window at offset [i] offers, if any. *)
Definition position_at (data : bytes) (i : nat) : option float :=
  match window data i with
  | Ok val => if in_unit val then Some val else None
  | Raise _ => None
  end.

(** The duration the sentinel candidate at index [i] offers, if any. *)
Definition duration_at (data : bytes) (i : nat) : option Z :=
  match nth_error data i with
  | Some b =>
      if byte_val b =? 16 then
        match decode_varint data (i + 1) with
        | Ok (dur, _) => if (10 <=? dur) && (dur <=? 10000) then Some dur else None
        | Raise _ => None
        end
      else None
  | None => None
  end.

(** Little-endian base-128 value of the 7 low bits of each byte. *)
Fixpoint base128 (bs : bytes) : Z :=
  match bs with
  | [] => 0
  | b :: bs' => Z.land (byte_val b) 127 + 128 * base128 bs'
  end.

(** The bytes of the varint that starts [rest]: up to and including the
    first byte whose high bit is clear, or all of [rest] if there is none. *)
Fixpoint varint_bytes (rest : bytes) : bytes :=
  match rest with
  | [] => []
  | b :: rest' =>
      if Z.land (byte_val b) 128 =? 0 then [b] else b :: varint_bytes rest'
  end.

(** The number of leading bytes of [rest] with the continuation bit set. *)
Fixpoint continuation_run (rest : bytes) : nat :=
  match rest with
  | [] => O
  | b :: rest' =>
      if Z.land (byte_val b) 128 =? 0 then O else S (continuation_run rest')
  end.

(** Follows the spec's words for claim C1: the highest 8-byte-aligned offset
    (a multiple of 8) at which a full 8-byte window fits in [n] bytes. *)
Definition last_aligned_offset (n : nat) : nat := (8 * ((n - 8) / 8))%nat.

(** One command, as the returned dict holds it. *)
Definition command (p : float) (d : Z) : LinearCmd :=
  {| vectors := [ {| position := p; duration_ms := d |} ] |}.

(** Concrete payloads. *)
Definition of_Z_list (l : list Z) : bytes :=
  map (fun z => match Byte.of_N (Z.to_N z) with Some b => b | None => x00 end) l.

(** 0.5 in the aligned window at offset 0, one more byte after it. *)
Definition payload_unaligned : bytes := of_Z_list [0; 0; 0; 0; 0; 0; 0xE0; 0x3F; 0].

(** 2^-14 as a double; its bytes 6 and 7 read as sentinel 0x10, varint 63. *)
Definition payload_tail_sentinel : bytes := of_Z_list [0; 0; 0; 0; 0; 0; 0x10; 0x3F].

(** The double 0.5 alone. *)
Definition payload_half : bytes := of_Z_list [0; 0; 0; 0; 0; 0; 0xE0; 0x3F].

(** Sentinel, varint 250, then the double 0.75. *)
Definition payload_250_075 : bytes :=
  of_Z_list [0x10; 0xFA; 0x01; 0; 0; 0; 0; 0; 0; 0xE8; 0x3F].

(** Sentinel, varint 100, then eight 0xFF bytes (every window is a NaN). *)
Definition payload_duration_only : bytes :=
  of_Z_list [0x10; 0x64; 0xFF; 0xFF; 0xFF; 0xFF; 0xFF; 0xFF; 0xFF; 0xFF].

(** Sentinel, eleven continuation bytes (over-long varint), then 0.75. *)
Definition payload_overlong : bytes :=
  of_Z_list [0x10; 0xFF; 0xFF; 0xFF; 0xFF; 0xFF; 0xFF; 0xFF; 0xFF; 0xFF; 0xFF; 0xFF;
             0; 0; 0; 0; 0; 0; 0xE8; 0x3F].

Definition f0_75 : float := S754_finite false 6755399441055744 (-53).

End DecoderSpec.

(** ** The real-number meaning of binary64 arithmetic *)

Module FloatSem.

Definition bpow (e : Z) : R := powerRZ 2 e.

(** The value of a finite float; 0 for the others. *)
Definition FV (f : float) : R :=
  match f with
  | S754_finite s m e =>
      if s then (- (IZR (Zpos m) * bpow e))%R else (IZR (Zpos m) * bpow e)%R
  | _ => 0%R
  end.

(** The value extended to the infinities, which sit at [2^1024]. *)
Definition XV (f : float) : R :=
  match f with
  | S754_infinity s => if s then (- bpow 1024)%R else bpow 1024
  | _ => FV f
  end.

Definition valid (f : float) : bool := valid_binary prec emax f.

Definition finite (f : float) : bool :=
  match f with
  | S754_zero _ | S754_finite _ _ _ => true
  | _ => false
  end.

Definition is_nan (f : float) : bool :=
  match f with
  | S754_nan => true
  | _ => false
  end.

(** [x] lies in [m, m + 1) at the place [l] describes. *)
Definition located (x : R) (m : Z) (l : location) : Prop :=
  match l with
  | loc_Exact => x = IZR m
  | loc_Inexact c =>
      (IZR m < x < IZR m + 1)%R /\
      match c with
      | Lt => (x < IZR m + / 2)%R
      | Eq => x = (IZR m + / 2)%R
      | Gt => (IZR m + / 2 < x)%R
      end
  end.

(** [N] is the integer nearest to [x], ties to even. *)
Definition nearest_even (x : R) (N : Z) : Prop :=
  (IZR N - / 2 <= x <= IZR N + / 2)%R /\
  ((x = IZR N - / 2 \/ x = IZR N + / 2)%R -> Z.even N = true).

(** [E] is the exponent of the binary64 numbers around [v >= 0]. *)
Definition binade (v : R) (E : Z) : Prop :=
  (E = -1074 /\ (v < bpow (-1021))%R) \/
  (-1074 < E /\ (bpow (E + 52) <= v < bpow (E + 53))%R).

(** The float of sign [s] with integer significand [N <= 2^53] at exponent [E]. *)
Definition mkfloat (s : bool) (N E : Z) : float :=
  match N with
  | Z0 => S754_zero s
  | Zpos p =>
      if N =? 2 ^ 53 then
        if E + 1 <=? 971 then S754_finite s (2 ^ 52) (E + 1) else S754_infinity s
      else
        if E <=? 971 then S754_finite s p E else S754_infinity s
  | Zneg _ => S754_nan
  end.

(** [f] is [v >= 0] rounded to nearest even, with sign [s]. *)
Definition Rnd (s : bool) (v : R) (f : float) : Prop :=
  exists E N, binade v E /\ nearest_even (v * bpow (- E)) N /\ f = mkfloat s N E.

(** [f] is the real number [v] rounded to nearest even. *)
Definition RndS (v : R) (f : float) : Prop :=
  (0 < v /\ Rnd false v f)%R \/
  (v < 0 /\ Rnd true (- v) f)%R \/
  (v = 0%R /\ exists s, f = S754_zero s).

End FloatSem.

(** ** Specification-side notions used to state the movement model's properties *)

Module SimSpec.

Import HandySimulator.

(** [max(0.0, min(1.0, position))] *)
Definition clamp (position : float) : float := Py.max f0 (Py.min f1 position).

(** A finite binary64 number in the unit interval. *)
Definition unit_ok (f : float) : Prop :=
  FloatSem.valid f = true /\ FloatSem.finite f = true /\
  (0 <= FloatSem.FV f <= 1)%R.

(** A reading of the monotonic clock: a finite binary64 number. *)
Definition clock_ok (now : float) : Prop :=
  FloatSem.valid now = true /\ FloatSem.finite now = true.

(** The largest int that is a binary64 number, [(2^53 - 1) * 2^971]. *)
Definition max_double : Z := 2 ^ 1024 - 2 ^ 971.

Definition max_float : float := S754_finite false (2 ^ 53 - 1) 971.

(** The state [start_movement] leaves when it returns. *)
Definition started (self : t) (position : float) (duration_ms : Z) (now speed : float) : t :=
  {| current_position := current_position self;
     target_position := clamp position;
     current_movement :=
       Some {| Movement.start_position := current_position self;
               Movement.target_position := clamp position;
               Movement.duration_ms := Z.max 10 duration_ms;
               Movement.start_time_ms := now;
               Movement.is_active := true |};
     speed_mms := speed |}.

(** The state [update_position] leaves when the movement is over. *)
Definition arrived (self : t) (movement : Movement.t) : t :=
  {| current_position := Movement.target_position movement;
     target_position := target_position self;
     current_movement := None;
     speed_mms := f0 |}.

(** The state [update_position] leaves while the movement is under way. *)
Definition moved (self : t) (position : float) : t :=
  {| current_position := position;
     target_position := target_position self;
     current_movement := current_movement self;
     speed_mms := speed_mms self |}.

(** The interpolated position, [progress] being [elapsed_ms / duration_ms]. *)
Definition lerp (movement : Movement.t) (progress : float) : float :=
  fadd (Movement.start_position movement)
       (fmul (fsub (Movement.target_position movement)
                   (Movement.start_position movement))
             progress).

(** Repeated ticks at the given clock readings. *)
Fixpoint ticks (self : t) (times : list float) : Py.result t :=
  match times with
  | [] => Ok self
  | now :: times' => self' <- update_position self now ;; ticks self' times'
  end.

(** The operations of the model, each with the clock reading it sees. *)
Inductive op : Type :=
| StartMovement (position : float) (duration_ms : Z) (now : float)
| Tick (now : float).

Definition op_time (o : op) : float :=
  match o with
  | StartMovement _ _ now => now
  | Tick now => now
  end.

(** Arguments are binary64 numbers; clock readings are finite. *)
Definition op_ok (o : op) : Prop :=
  clock_ok (op_time o) /\
  match o with
  | StartMovement position _ _ => FloatSem.valid position = true
  | Tick _ => True
  end.

Definition run_op (self : t) (o : op) : Py.result t :=
  match o with
  | StartMovement position duration_ms now => start_movement self position duration_ms now
  | Tick now => update_position self now
  end.

(** An operation that raises leaves the state as it was: in both methods
    the statement that can raise precedes every assignment to [self]. *)
Definition apply_op (self : t) (o : op) : t :=
  match run_op self o with
  | Ok self' => self'
  | Raise _ => self
  end.

Definition run_ops (self : t) (ops : list op) : t := fold_left apply_op ops self.

(** The clock never runs backward along [ops], starting from [prev]. *)
Fixpoint clock_from (prev : float) (ops : list op) : Prop :=
  match ops with
  | [] => True
  | o :: ops' => fle prev (op_time o) = true /\ clock_from (op_time o) ops'
  end.

Definition nondecreasing (ops : list op) : Prop :=
  match ops with
  | [] => True
  | o :: ops' => clock_from (op_time o) ops'
  end.

(** The invariant of the position state at clock reading [last]. *)
Definition Inv (last : float) (self : t) : Prop :=
  unit_ok (current_position self) /\
  unit_ok (target_position self) /\
  match current_movement self with
  | None => current_position self = target_position self
  | Some m =>
      Movement.target_position m = target_position self /\
      unit_ok (Movement.start_position m) /\
      clock_ok (Movement.start_time_ms m) /\
      (FloatSem.FV (Movement.start_time_ms m) <= FloatSem.FV last)%R
  end.

(** Concrete values. *)
Definition f1_5 : float := S754_finite false 6755399441055744 (-52).
Definition f0_9 : float := S754_finite false 8106479329266893 (-53).

(** 0.5 + 2^-11, within 0.001 of the centre. *)
Definition f_near_half : float := S754_finite false 4507997673881600 (-53).

(** The state after [start_movement(0.5 + 2^-11, 2**1024)] at time 0 from
    the initial state. *)
Definition state_huge_duration : t :=
  started init f_near_half (2 ^ 1024) f0 f0.

(** The state after [start_movement(1.0, 100)] at time 0 from the initial
    state. *)
Definition state_moving : t :=
  started init f1 100 f0 (S754_finite false 5497558138880000 (-43)).

Definition f50 : float := S754_finite false 7036874417766400 (-47).
Definition f100 : float := S754_finite false 7036874417766400 (-46).
Definition f120 : float := S754_finite false 8444249301319680 (-46).

(** The movement [state_moving] holds. *)
Definition movement_to_one : Movement.t :=
  {| Movement.start_position := f0_5;
     Movement.target_position := f1;
     Movement.duration_ms := 100;
     Movement.start_time_ms := f0;
     Movement.is_active := true |}.

(** [state_moving] after a tick at 50 ms: half way, at 0.75. *)
Definition state_midway : t := moved state_moving DecoderSpec.f0_75.

(** A run of the model: a command, then ticks at 50, 100 and 120 ms. *)
Definition sample_run : list op :=
  [StartMovement f0_9 100 f0; Tick f50; Tick f100; Tick f120].

End SimSpec.

(** ** More of the Python runtime: [int(x)] and list item assignment *)

Module PyNum.

(** [int(x)] for a float: truncation toward zero; [ValueError] on NaN,
    [OverflowError] on an infinity. *)
Definition int_of_float (x : float) : Py.result Z :=
  match x with
  | S754_nan => Raise ValueError
  | S754_infinity _ => Raise OverflowError
  | S754_zero _ => Ok 0
  | S754_finite s m e =>
      Ok (cond_Zopp s (if 0 <=? e then Zpos m * 2 ^ e else Zpos m / 2 ^ (- e)))
  end.



End PyNum.

(** ** The display

    The bars of [VisualDisplay], as lists of the characters they are made
    of.  The text formatted around them (percentages, status, remaining
    time, the frame) is not modelled; formatting cannot raise, so the
    exceptions of the methods are those of the definitions below. *)

Module VisualDisplay.

Import PyNum.

(** The characters of the bars: "─", "◦", "█" and "░". *)
Inductive glyph : Type :=
| Track
| Mark
| Block
| Shade.

Definition f20 : float := S754_finite false 5629499534213120 (-48).


(** The clamped progress and the bar of [draw_progress_bar]. *)
Definition progress_clamped (progress : float) : float :=
  Py.min f1 (Py.max f0 progress).

Definition draw_progress_bar (progress : float) : Py.result (list glyph) :=
  filled <- int_of_float (fmul (progress_clamped progress) f20) ;;
  Ok (repeat Block (Z.to_nat filled) ++ repeat Shade (Z.to_nat (20 - filled))).


(** One round of [display_loop]. *)
Definition moving (self : HandySimulator.t) : bool :=
  match HandySimulator.current_movement self with
  | Some m => Movement.is_active m
  | None => false
  end.


End VisualDisplay.

(** ** Specification-side notions: the display *)

Module DisplaySpec.

Import VisualDisplay.

(** The number of cells of [bar] that show [g]. *)
Definition count (g : glyph) (bar : list glyph) : nat :=
  length (filter (fun c => match c, g with
                           | Track, Track | Mark, Mark | Block, Block | Shade, Shade => true
                           | _, _ => false
                           end) bar).

(** The progress bar with [filled] of its 20 cells filled. *)
Definition progress_cells (filled : nat) : list glyph :=
  repeat Block filled ++ repeat Shade (20 - filled).


(** The largest double below 1.0. *)
Definition pred_f1 : float := S754_finite false 9007199254740991 (-53).

End DisplaySpec.

(** ** Specification-side notions: the varint wire format *)

Module WireSpec.

Definition byte_of_Z (z : Z) : byte :=
  match Byte.of_N (Z.to_N z) with
  | Some b => b
  | None => x00
  end.

(** The base-128 encoding of [n] on [S k] bytes, least significant group
    first, the continuation bit set on all bytes but the last. *)
Fixpoint encode_groups (k : nat) (n : Z) : bytes :=
  match k with
  | O => [byte_of_Z (n mod 128)]
  | S k' => byte_of_Z (n mod 128 + 128) :: encode_groups k' (n / 128)
  end.

(** The protobuf varint of [n >= 0]: the shortest such encoding. *)
Definition encode_varint (n : Z) : bytes :=
  encode_groups (Z.to_nat (Z.log2 n / 7)) n.

(** The [n] low bytes of [x], least significant first. *)
Fixpoint le_bytes (n : nat) (x : Z) : bytes :=
  match n with
  | O => []
  | S n' => byte_of_Z (x mod 256) :: le_bytes n' (x / 256)
  end.

(** A payload as a sender writes it: some bytes without the sentinel
    [0x10], the sentinel, the varint of the duration, and the 8 bytes of the
    double whose bit pattern is [bits]. *)
Definition payload (pre : bytes) (duration_ms bits : Z) : bytes :=
  pre ++ x10 :: encode_varint duration_ms ++ le_bytes 8 bits.

(** Every byte of [bs] has the continuation bit set. *)
Definition all_continue (bs : bytes) : Prop :=
  Forall (fun b => Z.land (byte_val b) 128 <> 0) bs.

End WireSpec.

(** ** Specification-side notions: the loops around the model *)

Module LoopSpec.

Import HandySimulator SimSpec.

Definition f10 : float := S754_finite false 5629499534213120 (-49).
Definition f12500 : float := S754_finite false 6871947673600000 (-39).

(** A speed the display can show: a finite number from 0 to 12500 mm/s. *)
Definition speed_ok (speed : float) : Prop :=
  FloatSem.valid speed = true /\ FloatSem.finite speed = true /\
  (0 <= FloatSem.FV speed <= 12500)%R.

(** The simulator at rest at [position]. *)
Definition at_rest (position : float) : t :=
  {| current_position := position;
     target_position := position;
     current_movement := None;
     speed_mms := f0 |}.

(** What the record of a movement under way always looks like. *)
Definition record_ok (self : t) : Prop :=
  match current_movement self with
  | Some m =>
      Movement.is_active m = true /\ 10 <= Movement.duration_ms m /\
      Movement.target_position m = target_position self
  | None => True
  end.

(** What the loops feed the model: a payload received by [message_loop], or
    one round of [movement_loop]; each with the clock reading it sees. *)
Inductive event : Type :=
| Message (data : bytes) (now : float)
| Round (now : float).

Definition event_time (ev : event) : float :=
  match ev with
  | Message _ now => now
  | Round now => now
  end.

Definition run_event (self : t) (ev : event) : Py.result t :=
  match ev with
  | Message data now => handle_message self data now
  | Round now => update_position self now
  end.

(** The events in turn; the first exception ends the run. *)
Fixpoint run_events (self : t) (evs : list event) : Py.result t :=
  match evs with
  | [] => Ok self
  | ev :: evs' => self' <- run_event self ev ;; run_events self' evs'
  end.

(** The clock readings are finite and never run backward, from [prev] on. *)
Fixpoint events_from (prev : float) (evs : list event) : Prop :=
  match evs with
  | [] => True
  | ev :: evs' =>
      clock_ok (event_time ev) /\ fle prev (event_time ev) = true /\
      events_from (event_time ev) evs'
  end.

Definition events_ok (evs : list event) : Prop :=
  match evs with
  | [] => True
  | ev :: evs' => clock_ok (event_time ev) /\ events_from (event_time ev) evs'
  end.

(** What holds of the state between events fed by the decoder, at clock
    reading [last]. *)
Definition fed_ok (last : float) (self : t) : Prop :=
  Inv last self /\ speed_ok (speed_mms self) /\
  match current_movement self with
  | Some m => 10 <= Movement.duration_ms m <= 10000
  | None => True
  end.

(** A run of events: a command, two rounds under way, one past the end. *)
Definition sample_events : list event :=
  [Message DecoderSpec.payload_250_075 f0; Round f50; Round f100;
   Round (S754_finite false 5277655813324800 (-44))].

End LoopSpec.


(** * Properties *)


(** ** Sanity checks of the literals *)

Example f125_is_float_125 : float_of_int 125 = Ok f125.
Proof. reflexivity. Qed.

Example f1000_is_float_1000 : float_of_int 1000 = Ok f1000.
Proof. reflexivity. Qed.

Example f0_001_is_nearest : truediv f1 f1000 = Ok f0_001.
Proof. vm_compute. reflexivity. Qed.

Example f0_001_bits : float_of_bits 0x3F50624DD2F1A9FC = f0_001.
Proof. vm_compute. reflexivity. Qed.

Example f0_5_bits : float_of_bits 0x3FE0000000000000 = f0_5.
Proof. vm_compute. reflexivity. Qed.

Example f1_bits : float_of_bits 0x3FF0000000000000 = f1.
Proof. vm_compute. reflexivity. Qed.
(** ** Properties of the decoder *)

Section DecoderFacts.

Import Decoder DecoderSpec.

Lemma first_some_none {A : Type} (f : nat -> option A) (idx : list nat) :
  first_some f idx = None <-> forall i, In i idx -> f i = None.
Proof.
  induction idx as [|i idx IH]; simpl.
  - split; [intros _ i [] | reflexivity].
  - destruct (f i) as [a|] eqn:E.
    + split; [discriminate|]. intros H.
      rewrite (H i (or_introl eq_refl)) in E. discriminate.
    + rewrite IH. split.
      * intros H j [<-|Hj]; auto.
      * intros H j Hj. apply H. now right.
Qed.

Lemma first_some_seq {A : Type} (f : nat -> option A) (k s : nat) (a : A) :
  first_some f (seq s k) = Some a <->
  exists i, (s <= i < s + k)%nat /\ f i = Some a /\
            forall j, (s <= j < i)%nat -> f j = None.
Proof.
  revert s. induction k as [|k IH]; intros s; simpl.
  - split; [discriminate|]. intros (i & Hi & _). lia.
  - destruct (f s) as [b|] eqn:E.
    + split.
      * intros [= <-]. exists s. repeat split; try lia; auto; intros j Hj; lia.
      * intros (i & Hi & Hfi & Hlt).
        destruct (Nat.eq_dec i s) as [->|Hne].
        -- congruence.
        -- rewrite (Hlt s) in E by lia. discriminate.
    + rewrite IH. split.
      * intros (i & Hi & Hfi & Hlt). exists i. repeat split; try lia; auto.
        intros j Hj. destruct (Nat.eq_dec j s) as [->|Hne]; auto.
        apply Hlt. lia.
      * intros (i & Hi & Hfi & Hlt).
        assert (i <> s) by (intros ->; congruence).
        exists i. repeat split; try lia; auto.
        intros j Hj. apply Hlt. lia.
Qed.

Lemma first_some_rev_seq {A : Type} (f : nat -> option A) (k : nat) (a : A) :
  first_some f (rev (seq 0 k)) = Some a <->
  exists i, (i < k)%nat /\ f i = Some a /\
            forall j, (i < j < k)%nat -> f j = None.
Proof.
  induction k as [|k IH].
  - simpl. split; [discriminate|]. intros (i & Hi & _). lia.
  - rewrite seq_S, rev_app_distr. simpl.
    destruct (f k) as [b|] eqn:E.
    + split.
      * intros [= <-]. exists k. repeat split; try lia; auto; intros j Hj; lia.
      * intros (i & Hi & Hfi & Hgt).
        destruct (Nat.eq_dec i k) as [->|Hne].
        -- congruence.
        -- rewrite (Hgt k) in E by lia. discriminate.
    + rewrite IH. split.
      * intros (i & Hi & Hfi & Hgt). exists i. repeat split; try lia; auto.
        intros j Hj. destruct (Nat.eq_dec j k) as [->|Hne]; auto.
        apply Hgt. lia.
      * intros (i & Hi & Hfi & Hgt).
        assert (i <> k) by (intros ->; congruence).
        exists i. repeat split; try lia; auto.
        intros j Hj. apply Hgt. lia.
Qed.

Lemma slice_length (data : bytes) (i : nat) :
  length (slice data i (i + 8)) = Nat.min 8 (length data - i).
Proof.
  unfold slice. rewrite length_firstn, length_skipn.
  replace (i + 8 - i)%nat with 8%nat by lia. reflexivity.
Qed.

Lemma window_ok_iff (data : bytes) (i : nat) (v : float) :
  window data i = Ok v <->
  (i + 8 <= length data)%nat /\ v = float_of_bits (le_uint (slice data i (i + 8))).
Proof.
  unfold window, struct_unpack_d. rewrite slice_length.
  destruct (Nat.eqb (Nat.min 8 (length data - i)) 8) eqn:E.
  - apply Nat.eqb_eq in E. split.
    + intros [= <-]. split; [lia | reflexivity].
    + intros [_ ->]. reflexivity.
  - apply Nat.eqb_neq in E. split; [discriminate|]. intros [H _]. lia.
Qed.

Lemma position_at_short (data : bytes) (i : nat) :
  (length data < i + 8)%nat -> position_at data i = None.
Proof.
  intros H. unfold position_at.
  destruct (window data i) as [v|e] eqn:E; [|reflexivity].
  apply window_ok_iff in E. lia.
Qed.

Lemma find_position_first (data : bytes) (idx : list nat) :
  find_position data idx = first_some (position_at data) idx.
Proof.
  induction idx as [|i idx IH]; simpl; [reflexivity|].
  unfold position_at, window.
  destruct (struct_unpack_d (slice data i (i + 8))) as [v|e]; [|exact IH].
  destruct (in_unit v); [reflexivity | exact IH].
Qed.

Lemma find_duration_first (data : bytes) (idx : list nat) :
  Forall (fun i => (i < length data)%nat) idx ->
  find_duration data idx = Ok (first_some (duration_at data) idx).
Proof.
  induction 1 as [|i idx Hi _ IH]; simpl; [reflexivity|].
  unfold getitem, duration_at.
  destruct (nth_error data i) as [b|] eqn:E.
  - simpl. destruct (byte_val b =? 16); [|exact IH].
    destruct (decode_varint data (i + 1)) as [[dur c]|e]; [|exact IH].
    destruct ((10 <=? dur) && (dur <=? 10000)); [reflexivity | exact IH].
  - apply nth_error_None in E. lia.
Qed.

Lemma range_in_bounds (data : bytes) :
  Forall (fun i => (i < length data)%nat) (range (Z.of_nat (length data) - 2)).
Proof.
  apply Forall_forall. intros i Hi. unfold range in Hi.
  apply in_seq in Hi. lia.
Qed.

End DecoderFacts.
Section VarintFacts.

Import Decoder DecoderSpec.

Lemma lor_shiftl_add (a b s : Z) :
  0 <= s -> 0 <= a < 2 ^ s -> 0 <= b ->
  Z.lor a (Z.shiftl b s) = a + b * 2 ^ s.
Proof.
  intros Hs Ha Hb.
  assert (Hland : Z.land a (Z.shiftl b s) = 0).
  { apply Z.bits_inj'. intros n Hn. rewrite Z.land_spec, Z.bits_0.
    destruct (Z.lt_ge_cases n s) as [Hlt|Hge].
    - rewrite Z.shiftl_spec_low by assumption. apply andb_false_r.
    - replace (Z.testbit a n) with false; [reflexivity|].
      symmetry. destruct (Z.eq_dec a 0) as [->|Hnz]; [apply Z.bits_0|].
      apply Z.bits_above_log2; [lia|].
      apply Z.lt_le_trans with s; [|assumption].
      apply Z.log2_lt_pow2; lia. }
  rewrite Z.shiftl_mul_pow2 in * by assumption.
  rewrite <- Z.lxor_lor by assumption.
  symmetry. apply Z.add_nocarry_lxor. assumption.
Qed.

Lemma land_127_bounds (z : Z) : 0 <= Z.land z 127 < 128.
Proof.
  change 127 with (Z.ones 7). rewrite Z.land_ones by lia.
  apply Z.mod_pos_bound. reflexivity.
Qed.

Lemma base128_nonneg (bs : bytes) : 0 <= base128 bs.
Proof.
  induction bs as [|b bs IH]; cbn [base128]; [lia|].
  pose proof (land_127_bounds (byte_val b)). lia.
Qed.

Lemma decode_varint_loop_spec (rest : bytes) :
  forall (result shift : Z) (consumed : nat),
    0 <= shift <= 63 -> 0 <= result < 2 ^ shift ->
    decode_varint_loop rest result shift consumed =
    if 63 <? shift + 7 * Z.of_nat (continuation_run rest) then Raise ValueError
    else Ok (result + 2 ^ shift * base128 (varint_bytes rest),
             (consumed + length (varint_bytes rest))%nat).
Proof.
  induction rest as [|b rest IH]; intros result shift consumed Hs Hr;
    cbn [decode_varint_loop continuation_run varint_bytes].
  - destruct (Z.ltb_spec 63 (shift + 7 * Z.of_nat 0)) as [H|_]; [lia|].
    cbn [base128 length]. f_equal. f_equal; lia.
  - pose proof (land_127_bounds (byte_val b)) as Hb.
    rewrite lor_shiftl_add by lia.
    destruct (Z.land (byte_val b) 128 =? 0) eqn:Ecl.
    + destruct (Z.ltb_spec 63 (shift + 7 * Z.of_nat 0)) as [H|_]; [lia|].
      cbn [base128 length]. f_equal. f_equal; lia.
    + destruct (Z.ltb_spec 63 (shift + 7)) as [E7|E7].
      * destruct (Z.ltb_spec 63 (shift + 7 * Z.of_nat (S (continuation_run rest))))
          as [_|H]; [reflexivity | lia].
      * assert (Hpow : 2 ^ (shift + 7) = 2 ^ shift * 128)
          by (rewrite Z.pow_add_r by lia; reflexivity).
        rewrite IH by (rewrite ?Hpow; nia).
        replace (shift + 7 * Z.of_nat (S (continuation_run rest)))
          with (shift + 7 + 7 * Z.of_nat (continuation_run rest)) by lia.
        destruct (63 <? shift + 7 + 7 * Z.of_nat (continuation_run rest));
          [reflexivity|].
        cbn [base128 length]. rewrite Hpow. f_equal. f_equal; [ring | lia].
Qed.

(** The varint read at [offset]: the base-128 little-endian value of its
    bytes, or [ValueError] once ten bytes in a row carry the continuation
    bit (the shift would reach 70). *)
Lemma decode_varint_spec (data : bytes) (offset : nat) :
  decode_varint data offset =
  let rest := skipn offset data in
  if (10 <=? continuation_run rest)%nat then Raise ValueError
  else Ok (base128 (varint_bytes rest), length (varint_bytes rest)).
Proof.
  unfold decode_varint. rewrite decode_varint_loop_spec by (simpl; lia).
  cbv zeta.
  destruct (10 <=? continuation_run (skipn offset data))%nat eqn:E.
  - apply Nat.leb_le in E.
    replace (63 <? 0 + 7 * Z.of_nat (continuation_run (skipn offset data))) with true
      by (symmetry; apply Z.ltb_lt; lia).
    reflexivity.
  - apply Nat.leb_gt in E.
    replace (63 <? 0 + 7 * Z.of_nat (continuation_run (skipn offset data))) with false
      by (symmetry; apply Z.ltb_ge; lia).
    f_equal. f_equal. change (2 ^ 0) with 1. lia.
Qed.

Lemma duration_at_iff (data : bytes) (i : nat) (d : Z) :
  duration_at data i = Some d <->
  exists b, nth_error data i = Some b /\ byte_val b = 16 /\
            (continuation_run (skipn (i + 1) data) < 10)%nat /\
            d = base128 (varint_bytes (skipn (i + 1) data)) /\
            10 <= d <= 10000.
Proof.
  unfold duration_at. rewrite decode_varint_spec. cbv zeta.
  destruct (nth_error data i) as [b|].
  - destruct (byte_val b =? 16) eqn:Eb.
    + apply Z.eqb_eq in Eb.
      destruct (10 <=? continuation_run (skipn (i + 1) data))%nat eqn:Ec.
      * apply Nat.leb_le in Ec. split; [discriminate|].
        intros (b' & _ & _ & Hc & _). lia.
      * apply Nat.leb_gt in Ec.
        destruct ((10 <=? base128 (varint_bytes (skipn (i + 1) data))) &&
                  (base128 (varint_bytes (skipn (i + 1) data)) <=? 10000)) eqn:Er.
        -- apply andb_true_iff in Er. destruct Er as [E1 E2].
           apply Z.leb_le in E1. apply Z.leb_le in E2. split.
           ++ intros [= <-]. exists b. repeat split; auto.
           ++ intros (b' & _ & _ & _ & -> & _). reflexivity.
        -- split; [discriminate|].
           intros (b' & _ & _ & _ & -> & H1 & H2).
           apply Z.leb_le in H1. apply Z.leb_le in H2.
           rewrite H1, H2 in Er. discriminate.
    + apply Z.eqb_neq in Eb. split; [discriminate|].
      intros (b' & [= <-] & Hb & _). contradiction.
  - split; [discriminate|]. intros (b' & Hb & _). discriminate.
Qed.

End VarintFacts.
Section DecoderClaims.

Import Decoder DecoderSpec.

Lemma first_some_in {A : Type} (f : nat -> option A) (idx : list nat) (a : A) :
  first_some f idx = Some a -> exists i, In i idx /\ f i = Some a.
Proof.
  induction idx as [|i idx IH]; simpl; [discriminate|].
  destruct (f i) as [b|] eqn:E.
  - intros [= <-]. exists i. auto.
  - intros H. destruct (IH H) as (j & Hj & Hf). exists j. auto.
Qed.

Lemma duration_at_range (data : bytes) (i : nat) (d : Z) :
  duration_at data i = Some d -> 10 <= d <= 10000.
Proof.
  intros H. apply duration_at_iff in H.
  destruct H as (b & _ & _ & _ & _ & H). exact H.
Qed.

(** The duration the decoder reports: the first accepted candidate among the
    indices [0 .. len - 3], else the default. *)
Lemma parse_linear_cmd_eq (data : bytes) :
  parse_linear_cmd_from_protobuf data =
  Ok (match first_some (position_at data) (range_down (Z.of_nat (length data) - 7)) with
      | Some p =>
          Some (command p
                  match first_some (duration_at data)
                          (range (Z.of_nat (length data) - 2)) with
                  | Some d => d
                  | None => 500
                  end)
      | None => None
      end).
Proof.
  unfold parse_linear_cmd_from_protobuf.
  rewrite find_position_first, (find_duration_first _ _ (range_in_bounds data)).
  cbn [bind].
  destruct (first_some (position_at data) _) as [p|]; [|reflexivity].
  destruct (first_some (duration_at data) _) as [d|] eqn:E; [|reflexivity].
  apply first_some_in in E. destruct E as (i & _ & Hd).
  apply duration_at_range in Hd.
  unfold duration_or_default, command.
  destruct (Z.eqb_spec d 0); [lia | reflexivity].
Qed.

Lemma range_down_len (data : bytes) :
  range_down (Z.of_nat (length data) - 7) = rev (seq 0 (length data - 6)).
Proof.
  unfold range_down. f_equal. f_equal. lia.
Qed.

Lemma range_len (data : bytes) :
  range (Z.of_nat (length data) - 2) = seq 0 (length data - 2).
Proof.
  unfold range. f_equal. lia.
Qed.

Lemma position_at_some (data : bytes) (i : nat) (v : float) :
  position_at data i = Some v <-> window data i = Ok v /\ in_unit v = true.
Proof.
  unfold position_at. destruct (window data i) as [w|e].
  - destruct (in_unit w) eqn:E; split.
    + intros [= <-]. auto.
    + intros [[= <-] _]. reflexivity.
    + discriminate.
    + intros [[= <-] H]. congruence.
  - split; [discriminate | intros [H _]; discriminate].
Qed.

Lemma position_at_none (data : bytes) (i : nat) :
  position_at data i = None <-> forall w, window data i = Ok w -> in_unit w = false.
Proof.
  unfold position_at. destruct (window data i) as [w|e].
  - destruct (in_unit w) eqn:E; split.
    + discriminate.
    + intros H. specialize (H w eq_refl). congruence.
    + intros _ w' [= <-]. exact E.
    + reflexivity.
  - split; [intros _ w H; discriminate | reflexivity].
Qed.

(** Method 1 returns the double of the window at the greatest byte offset
    whose value lies in [0, 1]; every byte offset is a candidate. *)
Lemma find_position_greatest (data : bytes) (v : float) :
  find_position data (range_down (Z.of_nat (length data) - 7)) = Some v <->
  exists i, window data i = Ok v /\ in_unit v = true /\
            forall j w, (i < j)%nat -> window data j = Ok w -> in_unit w = false.
Proof.
  rewrite find_position_first, range_down_len, first_some_rev_seq. split.
  - intros (i & Hi & Hp & Hgt). exists i.
    apply position_at_some in Hp. destruct Hp as [Hw Hu].
    repeat split; auto. intros j w Hj Hwj.
    destruct (Nat.lt_ge_cases j (length data - 6)) as [Hlt|Hge].
    + apply (proj1 (position_at_none data j)); auto.
    + apply window_ok_iff in Hwj. lia.
  - intros (i & Hw & Hu & Hgt). exists i. repeat split.
    + apply window_ok_iff in Hw. lia.
    + apply position_at_some. auto.
    + intros j Hj. apply position_at_none. intros w Hwj. apply (Hgt j w); auto. lia.
Qed.

Lemma find_position_none_iff (data : bytes) :
  find_position data (range_down (Z.of_nat (length data) - 7)) = None <->
  forall i w, window data i = Ok w -> in_unit w = false.
Proof.
  rewrite find_position_first, first_some_none. split.
  - intros H i w Hw.
    apply (proj1 (position_at_none data i)); auto. apply H.
    rewrite range_down_len, <- in_rev, in_seq.
    apply window_ok_iff in Hw. lia.
  - intros H i _. apply position_at_none. apply H.
Qed.

Lemma first_duration_some (data : bytes) (d : Z) :
  first_some (duration_at data) (range (Z.of_nat (length data) - 2)) = Some d <->
  exists i, (i + 2 < length data)%nat /\ duration_at data i = Some d /\
            forall j, (j < i)%nat -> duration_at data j = None.
Proof.
  rewrite range_len, first_some_seq. split.
  - intros (i & Hi & Hd & Hlt). exists i. repeat split; auto; try lia.
    intros j Hj. apply Hlt. lia.
  - intros (i & Hi & Hd & Hlt). exists i. repeat split; auto; try lia.
    intros j Hj. apply Hlt. lia.
Qed.

Lemma first_duration_none (data : bytes) :
  first_some (duration_at data) (range (Z.of_nat (length data) - 2)) = None <->
  forall i, (i + 2 < length data)%nat -> duration_at data i = None.
Proof.
  rewrite range_len, first_some_none. split.
  - intros H i Hi. apply H. apply in_seq. lia.
  - intros H i Hi. apply H. apply in_seq in Hi. lia.
Qed.

End DecoderClaims.
Section DecoderTheorems.

Import Decoder DecoderSpec.

(** C7. [parse_linear_cmd_from_protobuf] is total: on every byte payload it
    returns, without raising, either nothing or a command with one vector
    whose position lies in [0, 1] and whose duration lies in [10, 10000]. *)
Theorem C7_decode_never_raises (data : bytes) :
  exists r, parse_linear_cmd_from_protobuf data = Ok r /\
            (r = None \/
             exists p d, r = Some (command p d) /\ in_unit p = true /\ 10 <= d <= 10000).
Proof.
  rewrite parse_linear_cmd_eq.
  destruct (first_some (position_at data) _) as [p|] eqn:Ep.
  - eexists. split; [reflexivity|]. right.
    apply first_some_in in Ep. destruct Ep as (i & _ & Hp).
    apply position_at_some in Hp. destruct Hp as [_ Hu].
    destruct (first_some (duration_at data) _) as [d|] eqn:Ed.
    + apply first_some_in in Ed. destruct Ed as (j & _ & Hd).
      apply duration_at_range in Hd. exists p, d. auto.
    + exists p, 500. repeat split; auto; lia.
  - exists None. auto.
Qed.

(** C8. A payload shorter than 8 bytes decodes to nothing; more generally a
    payload none of whose 8-byte windows holds a double in [0, 1] decodes to
    nothing, whatever duration candidates it holds. *)
Theorem C8_no_window_no_command (data : bytes) :
  ((length data < 8)%nat -> parse_linear_cmd_from_protobuf data = Ok None)
  /\
  ((forall i w, window data i = Ok w -> in_unit w = false) ->
   parse_linear_cmd_from_protobuf data = Ok None).
Proof.
  assert (H : (forall i w, window data i = Ok w -> in_unit w = false) ->
              parse_linear_cmd_from_protobuf data = Ok None).
  { intros Hw. rewrite parse_linear_cmd_eq.
    apply find_position_none_iff in Hw. rewrite find_position_first in Hw.
    rewrite Hw. reflexivity. }
  split; [|exact H].
  intros Hlen. apply H. intros i w Hw. apply window_ok_iff in Hw. lia.
Qed.

Lemma C8_witness :
  parse_linear_cmd_from_protobuf (of_Z_list [1; 2; 3; 4; 5; 6; 7]) = Ok None /\
  duration_at payload_duration_only 0 = Some 100 /\
  parse_linear_cmd_from_protobuf payload_duration_only = Ok None.
Proof.
  split; [|split].
  - apply (proj1 (C8_no_window_no_command (of_Z_list [1; 2; 3; 4; 5; 6; 7]))).
    simpl. lia.
  - reflexivity.
  - apply (proj2 (C8_no_window_no_command payload_duration_only)).
    intros i w Hw. apply window_ok_iff in Hw. destruct Hw as [Hi ->].
    simpl in Hi.
    destruct i as [|[|[|i]]]; [reflexivity | reflexivity | reflexivity | lia].
Defined.

(** C1, as the code has it.  The position decode returns is the double of
    the 8-byte window at the greatest byte offset (every offset from
    [len - 8] down to 0, aligned or not) whose value lies in [0, 1]; in
    particular a payload whose last 8 bytes hold such a double and that has
    no accepted duration candidate at an index below [len - 2] decodes to
    that position with duration 500. *)
Theorem C1_position_is_last_window_in_range (data : bytes) (v : float) :
  ((exists d, parse_linear_cmd_from_protobuf data = Ok (Some (command v d))) <->
   exists i, window data i = Ok v /\ in_unit v = true /\
             forall j w, (i < j)%nat -> window data j = Ok w -> in_unit w = false)
  /\
  ((8 <= length data)%nat ->
   window data (length data - 8) = Ok v -> in_unit v = true ->
   (forall i, (i + 2 < length data)%nat -> duration_at data i = None) ->
   parse_linear_cmd_from_protobuf data = Ok (Some (command v 500))).
Proof.
  split.
  - rewrite <- find_position_greatest, find_position_first, parse_linear_cmd_eq.
    destruct (first_some (position_at data) _) as [p|]; split.
    + intros (d & [= <- _]). reflexivity.
    + intros [= <-]. eexists. reflexivity.
    + intros (d & [=]).
    + discriminate.
  - intros Hlen Hw Hu Hd.
    assert (Hp : find_position data (range_down (Z.of_nat (length data) - 7)) = Some v).
    { apply find_position_greatest. exists (length data - 8)%nat.
      repeat split; auto. intros j w Hj Hwj. apply window_ok_iff in Hwj. lia. }
    rewrite parse_linear_cmd_eq. rewrite find_position_first in Hp. rewrite Hp.
    apply first_duration_none in Hd. rewrite Hd. reflexivity.
Qed.

Lemma C1_witness :
  parse_linear_cmd_from_protobuf payload_half = Ok (Some (command f0_5 500)).
Proof.
  apply (proj2 (C1_position_is_last_window_in_range payload_half f0_5)).
  - simpl. lia.
  - reflexivity.
  - reflexivity.
  - intros i Hi. simpl in Hi.
    do 6 (destruct i as [|i]; [reflexivity|]). lia.
Defined.

(** C1 as stated fails: in this 9-byte payload the last 8-byte-aligned
    window (offset 0) holds 0.5 and no byte is the sentinel, yet decode
    returns the double of the unaligned window at offset 1. *)
Lemma C1_counterexample :
  last_aligned_offset (length payload_unaligned) = 0%nat /\
  window payload_unaligned 0 = Ok f0_5 /\
  in_unit f0_5 = true /\
  forallb (fun b => negb (byte_val b =? 16)) payload_unaligned = true /\
  window payload_unaligned 1 = Ok (S754_finite false 8972014882652160 (-1072)) /\
  parse_linear_cmd_from_protobuf payload_unaligned =
    Ok (Some (command (S754_finite false 8972014882652160 (-1072)) 500)) /\
  parse_linear_cmd_from_protobuf payload_unaligned <> Ok (Some (command f0_5 500)).
Proof.
  repeat split; try reflexivity. discriminate.
Qed.

(** C2, as the code has it.  Duration recovery examines the indices
    [0 .. len - 3] in increasing order (a sentinel among the last two bytes
    is never examined); at each examined index holding 0x10 it decodes the
    little-endian base-128 varint that starts at the next byte, which fails
    exactly when ten bytes in a row carry the continuation bit; the first
    decoded value in [10, 10000] is the duration, a failed or out-of-range
    candidate is skipped, and with no accepted candidate the duration is
    500.  Whenever the position is recovered a command is returned. *)
Theorem C2_duration_is_first_accepted_candidate (data : bytes) :
  let n := length data in
  let duration := first_some (duration_at data) (range (Z.of_nat n - 2)) in
  find_duration data (range (Z.of_nat n - 2)) = Ok duration
  /\ (forall d, duration = Some d <->
        exists i, (i + 2 < n)%nat /\ duration_at data i = Some d /\
                  forall j, (j < i)%nat -> duration_at data j = None)
  /\ (duration = None <-> forall i, (i + 2 < n)%nat -> duration_at data i = None)
  /\ (forall i d, duration_at data i = Some d <->
        exists b, nth_error data i = Some b /\ byte_val b = 16 /\
                  (continuation_run (skipn (i + 1) data) < 10)%nat /\
                  d = base128 (varint_bytes (skipn (i + 1) data)) /\
                  10 <= d <= 10000)
  /\ (forall offset,
        decode_varint data offset =
        if (10 <=? continuation_run (skipn offset data))%nat then Raise ValueError
        else Ok (base128 (varint_bytes (skipn offset data)),
                 length (varint_bytes (skipn offset data))))
  /\ (forall p,
        find_position data (range_down (Z.of_nat n - 7)) = Some p ->
        parse_linear_cmd_from_protobuf data =
        Ok (Some (command p match duration with Some d => d | None => 500 end))).
Proof.
  cbv zeta. repeat split.
  - apply find_duration_first, range_in_bounds.
  - apply first_duration_some.
  - apply first_duration_some.
  - apply first_duration_none.
  - apply first_duration_none.
  - apply duration_at_iff.
  - apply duration_at_iff.
  - intros offset. apply decode_varint_spec.
  - intros p Hp. rewrite parse_linear_cmd_eq.
    rewrite find_position_first in Hp. rewrite Hp. reflexivity.
Qed.

Lemma C2_witness :
  decode_varint payload_overlong 1 = Raise ValueError /\
  parse_linear_cmd_from_protobuf payload_overlong = Ok (Some (command f0_75 500)) /\
  parse_linear_cmd_from_protobuf payload_250_075 = Ok (Some (command f0_75 250)).
Proof.
  split; [reflexivity|]. split.
  - exact (proj2 (proj2 (proj2 (proj2 (proj2
             (C2_duration_is_first_accepted_candidate payload_overlong)))))
             f0_75 eq_refl).
  - exact (proj2 (proj2 (proj2 (proj2 (proj2
             (C2_duration_is_first_accepted_candidate payload_250_075)))))
             f0_75 eq_refl).
Defined.

(** C2 as stated fails: in this payload index 6 holds the sentinel 0x10 and
    the varint after it decodes to 63, within [10, 10000], and no earlier
    byte is a sentinel; the loop stops at index [len - 3 = 5], so decode
    returns the default 500 rather than 63. *)
Lemma C2_counterexample :
  length payload_tail_sentinel = 8%nat /\
  nth_error payload_tail_sentinel 6 = Some x10 /\
  decode_varint payload_tail_sentinel 7 = Ok (63, 1%nat) /\
  duration_at payload_tail_sentinel 6 = Some 63 /\
  forallb (fun b => negb (byte_val b =? 16)) (firstn 6 payload_tail_sentinel) = true /\
  parse_linear_cmd_from_protobuf payload_tail_sentinel =
    Ok (Some (command (S754_finite false 4503599627370496 (-66)) 500)).
Proof.
  repeat split; reflexivity.
Qed.

(** C9, as the code has it.  The position is mandatory and the duration is
    optional: decode returns nothing exactly when no 8-byte window holds a
    double in [0, 1], whatever duration is recoverable; when the position is
    recoverable and no duration candidate is accepted, it returns a command
    with that position and the default duration 500. *)
Theorem C9_position_mandatory_duration_optional (data : bytes) :
  (parse_linear_cmd_from_protobuf data = Ok None <->
   forall i w, window data i = Ok w -> in_unit w = false)
  /\
  (forall p,
     find_position data (range_down (Z.of_nat (length data) - 7)) = Some p ->
     find_duration data (range (Z.of_nat (length data) - 2)) = Ok None ->
     parse_linear_cmd_from_protobuf data = Ok (Some (command p 500))).
Proof.
  split.
  - rewrite <- find_position_none_iff, find_position_first, parse_linear_cmd_eq.
    destruct (first_some (position_at data) _) as [p|]; split;
      try discriminate; reflexivity.
  - intros p Hp Hd. rewrite parse_linear_cmd_eq.
    rewrite find_position_first in Hp. rewrite Hp.
    rewrite (find_duration_first _ _ (range_in_bounds data)) in Hd.
    injection Hd as Hd. rewrite Hd. reflexivity.
Qed.

Lemma C9_witness :
  parse_linear_cmd_from_protobuf payload_half = Ok (Some (command f0_5 500)) /\
  (parse_linear_cmd_from_protobuf payload_duration_only = Ok None <->
   forall i w, window payload_duration_only i = Ok w -> in_unit w = false).
Proof.
  split.
  - exact (proj2 (C9_position_mandatory_duration_optional payload_half)
             f0_5 eq_refl eq_refl).
  - exact (proj1 (C9_position_mandatory_duration_optional payload_duration_only)).
Defined.

(** C9 as stated fails: from the 8 bytes of the double 0.5 only the
    position is recoverable (no duration candidate exists), yet decode
    yields a command, with the default duration. *)
Lemma C9_counterexample :
  find_position payload_half (range_down (Z.of_nat (length payload_half) - 7)) = Some f0_5 /\
  find_duration payload_half (range (Z.of_nat (length payload_half) - 2)) = Ok None /\
  parse_linear_cmd_from_protobuf payload_half = Ok (Some (command f0_5 500)).
Proof.
  repeat split; reflexivity.
Qed.

End DecoderTheorems.

(** ** Binary64 arithmetic as rounding of real arithmetic *)

Section FloatBasics.

Import FloatSem.
Local Open Scope R_scope.

Lemma bpow_pos (e : Z) : 0 < bpow e.
Proof. apply powerRZ_lt. lra. Qed.

Lemma bpow_add (a b : Z) : bpow (a + b) = bpow a * bpow b.
Proof. apply powerRZ_add. lra. Qed.

Lemma bpow_0 : bpow 0 = 1.
Proof. reflexivity. Qed.

Lemma bpow_1 : bpow 1 = 2.
Proof. unfold bpow. simpl. lra. Qed.

Lemma bpow_m1 : bpow (-1) = / 2.
Proof. unfold bpow. simpl. f_equal. lra. Qed.

Lemma bpow_succ (e : Z) : bpow (e + 1) = 2 * bpow e.
Proof. rewrite bpow_add, bpow_1. ring. Qed.

Lemma bpow_opp (e : Z) : bpow (- e) = / bpow e.
Proof. apply powerRZ_neg'. Qed.

Lemma bpow_cancel (e : Z) : bpow e * bpow (- e) = 1.
Proof. rewrite <- bpow_add, Z.add_opp_diag_r. reflexivity. Qed.

Lemma bpow_lt (a b : Z) : (a < b)%Z -> bpow a < bpow b.
Proof.
  intros H. replace b with (a + (b - a))%Z by lia.
  rewrite bpow_add.
  assert (Hk : forall k : nat, 1 < bpow (Z.of_nat (S k))).
  { induction k as [|k IH].
    - change (Z.of_nat 1) with 1%Z. rewrite bpow_1. lra.
    - replace (Z.of_nat (S (S k))) with (Z.of_nat (S k) + 1)%Z by lia.
      rewrite bpow_succ. lra. }
  specialize (Hk (Z.to_nat (b - a - 1))).
  replace (Z.of_nat (S (Z.to_nat (b - a - 1)))) with (b - a)%Z in Hk by lia.
  pose proof (bpow_pos a). nra.
Qed.

Lemma bpow_le (a b : Z) : (a <= b)%Z -> bpow a <= bpow b.
Proof.
  intros H. destruct (Z.eq_dec a b) as [->|Hne]; [lra|].
  apply Rlt_le, bpow_lt. lia.
Qed.

Lemma bpow_lt_inv (a b : Z) : bpow a < bpow b -> (a < b)%Z.
Proof.
  intros H. destruct (Z.lt_ge_cases a b) as [Hlt|Hge]; [assumption|].
  apply bpow_le in Hge. lra.
Qed.

Lemma bpow_IZR (e : Z) : (0 <= e)%Z -> bpow e = IZR (2 ^ e).
Proof.
  intros H. rewrite <- (Z2Nat.id e H).
  generalize (Z.to_nat e) as n. clear. induction n as [|n IH].
  - reflexivity.
  - rewrite Nat2Z.inj_succ. unfold Z.succ.
    rewrite bpow_succ, Z.pow_add_r, Z.pow_1_r, mult_IZR, IH by lia. ring.
Qed.

Lemma fexp_eq (e : Z) : fexp prec emax e = Z.max (e - 53) (-1074).
Proof. reflexivity. Qed.

(** The number of bits of a positive number. *)
Lemma digits2_pos_bounds (m : positive) :
  (2 ^ (Zpos (digits2_pos m) - 1) <= Zpos m < 2 ^ Zpos (digits2_pos m))%Z.
Proof.
  induction m as [m IH|m IH|]; cbn [digits2_pos].
  - rewrite Pos2Z.inj_succ. unfold Z.succ.
    replace (Zpos (digits2_pos m) + 1 - 1)%Z with (Zpos (digits2_pos m) - 1 + 1)%Z by lia.
    rewrite !Z.pow_add_r by lia. change (2 ^ 1)%Z with 2%Z. lia.
  - rewrite Pos2Z.inj_succ. unfold Z.succ.
    replace (Zpos (digits2_pos m) + 1 - 1)%Z with (Zpos (digits2_pos m) - 1 + 1)%Z by lia.
    rewrite !Z.pow_add_r by lia. change (2 ^ 1)%Z with 2%Z. lia.
  - simpl. lia.
Qed.

Lemma Zdigits2_bounds (m : Z) :
  (0 < m)%Z -> (2 ^ (Zdigits2 m - 1) <= m < 2 ^ Zdigits2 m)%Z.
Proof.
  destruct m as [|p|p]; try lia. intros _. apply digits2_pos_bounds.
Qed.

Lemma Zdigits2_nonneg (m : Z) : (0 <= Zdigits2 m)%Z.
Proof. destruct m; simpl; lia. Qed.

Lemma Zdigits2_pos (m : Z) : (0 < m)%Z -> (0 < Zdigits2 m)%Z.
Proof. destruct m; simpl; lia. Qed.

(** The digit count is determined by the enclosing powers of two. *)
Lemma Zdigits2_unique (m d : Z) :
  (2 ^ (d - 1) <= m < 2 ^ d)%Z -> (0 < d)%Z -> Zdigits2 m = d.
Proof.
  intros H Hd.
  assert (Hm : (0 < m)%Z) by (pose proof (Z.pow_pos_nonneg 2 (d - 1)); lia).
  pose proof (Zdigits2_bounds m Hm) as Hb.
  pose proof (Zdigits2_pos m Hm) as Hp.
  destruct (Z.lt_trichotomy (Zdigits2 m) d) as [Hlt|[Heq|Hgt]]; [|assumption|].
  - assert (2 ^ Zdigits2 m <= 2 ^ (d - 1))%Z by (apply Z.pow_le_mono_r; lia). lia.
  - assert (2 ^ d <= 2 ^ (Zdigits2 m - 1))%Z by (apply Z.pow_le_mono_r; lia). lia.
Qed.

End FloatBasics.

Section Locations.

Import FloatSem.
Local Open Scope R_scope.

Lemma IZR_xO (p : positive) : IZR (Zpos p~0) = 2 * IZR (Zpos p).
Proof. rewrite Pos2Z.inj_xO, mult_IZR. reflexivity. Qed.

Lemma IZR_xI (p : positive) : IZR (Zpos p~1) = 2 * IZR (Zpos p) + 1.
Proof. rewrite Pos2Z.inj_xI, plus_IZR, mult_IZR. reflexivity. Qed.

Lemma loc_of_shr_record_of_loc (m : Z) (l : location) :
  loc_of_shr_record (shr_record_of_loc m l) = l /\
  shr_m (shr_record_of_loc m l) = m.
Proof. destruct l as [|[| |]]; split; reflexivity. Qed.

(** One right shift halves the located number. *)
Lemma shr_1_located (x : R) (mrs : shr_record) :
  (0 <= shr_m mrs)%Z ->
  located x (shr_m mrs) (loc_of_shr_record mrs) ->
  located (x * / 2) (shr_m (shr_1 mrs)) (loc_of_shr_record (shr_1 mrs)) /\
  (0 <= shr_m (shr_1 mrs))%Z.
Proof.
  destruct mrs as [m r s]. cbn [shr_m]. intros Hm H.
  destruct m as [|[p|p|]|p]; try lia;
    try (pose proof (IZR_xO p) as Hp0; pose proof (IZR_xI p) as Hp1);
    destruct r, s; cbn [shr_1 orb shr_m loc_of_shr_record located] in *;
    (split; [|lia]); repeat split; lra.
Qed.

Lemma iter_pos_shr_1_located (p : positive) :
  forall (x : R) (mrs : shr_record),
    (0 <= shr_m mrs)%Z ->
    located x (shr_m mrs) (loc_of_shr_record mrs) ->
    located (x * bpow (- Zpos p)) (shr_m (SpecFloat.iter_pos shr_1 p mrs))
            (loc_of_shr_record (SpecFloat.iter_pos shr_1 p mrs)) /\
    (0 <= shr_m (SpecFloat.iter_pos shr_1 p mrs))%Z.
Proof.
  induction p as [p IH|p IH|]; intros x mrs Hm H; cbn [SpecFloat.iter_pos].
  - destruct (shr_1_located x mrs Hm H) as [H1 Hm1].
    destruct (IH _ _ Hm1 H1) as [H2 Hm2].
    destruct (IH _ _ Hm2 H2) as [H3 Hm3].
    split; [|assumption].
    replace (x * bpow (- Zpos p~1)) with (x * / 2 * bpow (- Zpos p) * bpow (- Zpos p));
      [assumption|].
    replace (- Zpos p~1)%Z with (-1 + (- Zpos p + - Zpos p))%Z by lia.
    rewrite !bpow_add, bpow_m1. ring.
  - destruct (IH _ _ Hm H) as [H2 Hm2].
    destruct (IH _ _ Hm2 H2) as [H3 Hm3].
    split; [|assumption].
    replace (x * bpow (- Zpos p~0)) with (x * bpow (- Zpos p) * bpow (- Zpos p));
      [assumption|].
    replace (- Zpos p~0)%Z with (- Zpos p + - Zpos p)%Z by lia.
    rewrite !bpow_add. ring.
  - change (Z.opp (Zpos 1)) with (Zneg 1). rewrite bpow_m1. apply shr_1_located; assumption.
Qed.

(** [shr] by [n] places divides the located number by [2^n]. *)
Lemma shr_located (x : R) (mrs : shr_record) (e n : Z) :
  (0 <= shr_m mrs)%Z ->
  located x (shr_m mrs) (loc_of_shr_record mrs) ->
  let '(mrs', e') := shr mrs e n in
  e' = (e + Z.max n 0)%Z /\
  located (x * bpow (- Z.max n 0)) (shr_m mrs') (loc_of_shr_record mrs') /\
  (0 <= shr_m mrs')%Z.
Proof.
  intros Hm H. destruct n as [|p|p]; cbn [shr].
  - rewrite Z.max_id. change (- 0)%Z with 0%Z. rewrite bpow_0, Rmult_1_r, Z.add_0_r. auto.
  - replace (Z.max (Zpos p) 0) with (Zpos p) by lia.
    destruct (iter_pos_shr_1_located p x mrs Hm H). auto.
  - replace (Z.max (Zneg p) 0) with 0%Z by lia.
    change (- 0)%Z with 0%Z. rewrite bpow_0, Rmult_1_r, Z.add_0_r. auto.
Qed.

Lemma round_nearest_even_spec (x : R) (m : Z) (l : location) :
  located x m l -> nearest_even x (round_nearest_even m l).
Proof.
  unfold nearest_even.
  destruct l as [|[| |]]; cbn [located round_nearest_even].
  - intros ->. split; [lra|]. intros [H|H]; lra.
  - intros [H ->]. destruct (Z.even m) eqn:E.
    + split; [lra|]. auto.
    + rewrite plus_IZR. split; [lra|]. intros _.
      rewrite Z.even_add, E. reflexivity.
  - intros [H1 H2]. split; [lra|]. intros [H|H]; lra.
  - intros [H1 H2]. rewrite plus_IZR. split; [lra|]. intros [H|H]; lra.
Qed.

Lemma nearest_even_mono (x1 x2 : R) (N1 N2 : Z) :
  x1 <= x2 -> nearest_even x1 N1 -> nearest_even x2 N2 -> (N1 <= N2)%Z.
Proof.
  intros Hx [H1 T1] [H2 T2].
  destruct (Z.le_gt_cases N1 N2) as [Hle|Hgt]; [assumption|exfalso].
  assert (HN : IZR N2 + 1 <= IZR N1).
  { rewrite <- plus_IZR. apply IZR_le. lia. }
  assert (E1 : x1 = IZR N1 - / 2) by lra.
  assert (E2 : x2 = IZR N2 + / 2) by lra.
  assert (EN : N1 = (N2 + 1)%Z).
  { apply eq_IZR. rewrite plus_IZR. lra. }
  specialize (T1 (or_introl E1)). specialize (T2 (or_intror E2)).
  subst N1. rewrite Z.even_add, T2 in T1. discriminate.
Qed.

Lemma nearest_even_unique (x : R) (N1 N2 : Z) :
  nearest_even x N1 -> nearest_even x N2 -> N1 = N2.
Proof.
  intros H1 H2.
  pose proof (nearest_even_mono x x N1 N2 (Rle_refl x) H1 H2).
  pose proof (nearest_even_mono x x N2 N1 (Rle_refl x) H2 H1).
  lia.
Qed.

Lemma nearest_even_IZR (N : Z) : nearest_even (IZR N) N.
Proof. split; [lra|]. intros [H|H]; lra. Qed.

Lemma nearest_even_nonneg (x : R) (N : Z) :
  0 <= x -> nearest_even x N -> (0 <= N)%Z.
Proof.
  intros Hx H. apply (nearest_even_mono 0 x 0 N Hx); [|assumption].
  apply (nearest_even_IZR 0).
Qed.

End Locations.

Section FloatOrder.

Import FloatSem.
Local Open Scope R_scope.

Lemma valid_finite_inv (s : bool) (m : positive) (e : Z) :
  valid (S754_finite s m e) = true ->
  (-1074 <= e <= 971)%Z /\ (Zpos m < 2 ^ 53)%Z /\ (-1074 < e -> 2 ^ 52 <= Zpos m)%Z.
Proof.
  unfold valid, valid_binary, SpecFloat.bounded, SpecFloat.canonical_mantissa.
  rewrite fexp_eq. intros H. apply andb_true_iff in H. destruct H as [H1 H2].
  apply Z.eqb_eq in H1. apply Z.leb_le in H2.
  change (emax - prec)%Z with 971%Z in H2.
  pose proof (digits2_pos_bounds m) as Hd.
  assert (Hd53 : (Zpos (digits2_pos m) <= 53)%Z) by lia.
  repeat split; try lia.
  - apply Z.lt_le_trans with (2 ^ Zpos (digits2_pos m))%Z; [lia|].
    apply Z.pow_le_mono_r; lia.
  - intros He. replace (Zpos (digits2_pos m)) with 53%Z in Hd by lia.
    change (53 - 1)%Z with 52%Z in Hd. lia.
Qed.

Lemma valid_finite_intro (s : bool) (m : positive) (e : Z) :
  (-1074 <= e <= 971)%Z -> (Zpos m < 2 ^ 53)%Z ->
  (-1074 < e -> 2 ^ 52 <= Zpos m)%Z ->
  valid (S754_finite s m e) = true.
Proof.
  intros He Hm Hn.
  unfold valid, valid_binary, SpecFloat.bounded, SpecFloat.canonical_mantissa.
  rewrite fexp_eq. apply andb_true_iff. split.
  - apply Z.eqb_eq.
    pose proof (digits2_pos_bounds m) as Hd.
    assert (Hd53 : (Zpos (digits2_pos m) <= 53)%Z).
    { destruct (Z.le_gt_cases (Zpos (digits2_pos m)) 53) as [H|H]; [assumption|].
      assert (2 ^ 53 <= 2 ^ (Zpos (digits2_pos m) - 1))%Z
        by (apply Z.pow_le_mono_r; lia).
      lia. }
    destruct (Z.eq_dec e (-1074)) as [->|Hne]; [lia|].
    assert (2 ^ 52 <= Zpos m)%Z by (apply Hn; lia).
    assert (Zpos (digits2_pos m) = 53)%Z; [|lia].
    destruct (Z.eq_dec (Zpos (digits2_pos m)) 53) as [H53|Hne53]; [assumption|].
    assert (2 ^ Zpos (digits2_pos m) <= 2 ^ 52)%Z
      by (apply Z.pow_le_mono_r; lia).
    lia.
  - apply Z.leb_le. change (emax - prec)%Z with 971%Z. lia.
Qed.

Lemma IZR_pos (m : positive) : 0 < IZR (Zpos m).
Proof. apply IZR_lt. lia. Qed.

Lemma IZR_pow2 (e : Z) : (0 <= e)%Z -> IZR (2 ^ e) = bpow e.
Proof. intros H. symmetry. apply bpow_IZR. assumption. Qed.

(** A valid finite float lies strictly inside [(0, 2^1024)] in magnitude. *)
Lemma valid_finite_range (s : bool) (m : positive) (e : Z) :
  valid (S754_finite s m e) = true ->
  0 < IZR (Zpos m) * bpow e < bpow 1024.
Proof.
  intros H. apply valid_finite_inv in H. destruct H as (He & Hm & _).
  pose proof (bpow_pos e). pose proof (IZR_pos m). split; [nra|].
  apply IZR_lt in Hm. rewrite IZR_pow2 in Hm by lia.
  apply Rlt_le_trans with (bpow 53 * bpow e); [nra|].
  rewrite <- bpow_add. apply bpow_le. lia.
Qed.

(** Canonical significand-exponent pairs are ordered lexicographically. *)
Lemma canonical_compare (m1 m2 : positive) (e1 e2 : Z) :
  valid (S754_finite false m1 e1) = true ->
  valid (S754_finite false m2 e2) = true ->
  match (e1 ?= e2)%Z with
  | Lt => IZR (Zpos m1) * bpow e1 < IZR (Zpos m2) * bpow e2
  | Gt => IZR (Zpos m2) * bpow e2 < IZR (Zpos m1) * bpow e1
  | Eq =>
      match Pos.compare_cont Eq m1 m2 with
      | Lt => IZR (Zpos m1) * bpow e1 < IZR (Zpos m2) * bpow e2
      | Gt => IZR (Zpos m2) * bpow e2 < IZR (Zpos m1) * bpow e1
      | Eq => IZR (Zpos m1) * bpow e1 = IZR (Zpos m2) * bpow e2
      end
  end.
Proof.
  intros V1 V2.
  apply valid_finite_inv in V1. destruct V1 as (He1 & Hm1 & Hn1).
  apply valid_finite_inv in V2. destruct V2 as (He2 & Hm2 & Hn2).
  assert (Hlt : forall (ma mb : positive) (ea eb : Z),
             (Zpos ma < 2 ^ 53)%Z -> (2 ^ 52 <= Zpos mb)%Z -> (ea < eb)%Z ->
             IZR (Zpos ma) * bpow ea < IZR (Zpos mb) * bpow eb).
  { intros ma mb ea eb Ha Hb Hab.
    apply IZR_lt in Ha. apply IZR_le in Hb.
    rewrite IZR_pow2 in Ha, Hb by lia.
    pose proof (bpow_pos ea). pose proof (bpow_pos eb).
    apply Rlt_le_trans with (bpow 53 * bpow ea); [nra|].
    apply Rle_trans with (bpow 52 * bpow eb); [|nra].
    rewrite <- !bpow_add. apply bpow_le. lia. }
  destruct (Z.compare_spec e1 e2) as [->|H|H].
  - change (Pos.compare_cont Eq m1 m2) with (Pos.compare m1 m2).
    pose proof (bpow_pos e2).
    destruct (Pos.compare_spec m1 m2) as [->|Hm|Hm].
    + reflexivity.
    + apply Rmult_lt_compat_r; [assumption|]. apply IZR_lt. lia.
    + apply Rmult_lt_compat_r; [assumption|]. apply IZR_lt. lia.
  - apply Hlt; lia.
  - apply Hlt; lia.
Qed.

Lemma valid_sign (s s' : bool) (m : positive) (e : Z) :
  valid (S754_finite s m e) = valid (S754_finite s' m e).
Proof. reflexivity. Qed.

(** On valid non-NaN floats the comparison is that of the extended values. *)
Lemma SFcompare_XV (x y : float) :
  valid x = true -> valid y = true -> is_nan x = false -> is_nan y = false ->
  exists c, SFcompare x y = Some c /\
            match c with
            | Lt => XV x < XV y
            | Eq => XV x = XV y
            | Gt => XV y < XV x
            end.
Proof.
  intros Vx Vy Nx Ny.
  pose proof (bpow_pos 1024) as Hinf.
  destruct x as [sx|sx| |sx mx ex]; try discriminate;
    destruct y as [sy|sy| |sy my ey]; try discriminate;
    cbn [SFcompare XV FV];
    try (pose proof (valid_finite_range _ _ _ Vx) as Rx);
    try (pose proof (valid_finite_range _ _ _ Vy) as Ry).
  - exists Eq. split; [reflexivity|]. reflexivity.
  - destruct sy; eexists; (split; [reflexivity|]); cbn beta iota; lra.
  - destruct sy; eexists; (split; [reflexivity|]); cbn beta iota; lra.
  - destruct sx; eexists; (split; [reflexivity|]); cbn beta iota; lra.
  - destruct sx, sy; eexists; (split; [reflexivity|]); cbn beta iota; lra.
  - destruct sx, sy; eexists; (split; [reflexivity|]); cbn beta iota; lra.
  - destruct sx; eexists; (split; [reflexivity|]); cbn beta iota; lra.
  - destruct sx, sy; eexists; (split; [reflexivity|]); cbn beta iota; lra.
  - rewrite (valid_sign sx false) in Vx. rewrite (valid_sign sy false) in Vy.
    pose proof (canonical_compare mx my ex ey Vx Vy) as Hc.
    destruct sx, sy; eexists; (split; [reflexivity|]).
    + destruct (ex ?= ey)%Z; [destruct (Pos.compare_cont Eq mx my)| |];
        cbn [CompOpp]; lra.
    + lra.
    + lra.
    + destruct (ex ?= ey)%Z; [destruct (Pos.compare_cont Eq mx my)| |]; lra.
Qed.

Lemma fle_XV (x y : float) :
  valid x = true -> valid y = true -> is_nan x = false -> is_nan y = false ->
  (SFleb x y = true <-> XV x <= XV y).
Proof.
  intros Vx Vy Nx Ny.
  destruct (SFcompare_XV x y Vx Vy Nx Ny) as (c & Hc & H).
  unfold SFleb. rewrite Hc. destruct c; split; intros; try reflexivity;
    try discriminate; lra.
Qed.

Lemma flt_XV (x y : float) :
  valid x = true -> valid y = true -> is_nan x = false -> is_nan y = false ->
  (SFltb x y = true <-> XV x < XV y).
Proof.
  intros Vx Vy Nx Ny.
  destruct (SFcompare_XV x y Vx Vy Nx Ny) as (c & Hc & H).
  unfold SFltb. rewrite Hc. destruct c; split; intros; try reflexivity;
    try discriminate; lra.
Qed.

End FloatOrder.

Section Rounding.

Import FloatSem.
Local Open Scope R_scope.

Lemma binade_lower (v : R) (E : Z) : binade v E -> (-1074 <= E)%Z.
Proof. intros [[-> _]|[H _]]; lia. Qed.

Lemma binade_upper (v : R) (E : Z) : binade v E -> v < bpow (E + 53).
Proof. intros [[-> H]|[_ H]]; [exact H | lra]. Qed.

Lemma binade_mono (v1 v2 : R) (E1 E2 : Z) :
  v1 <= v2 -> binade v1 E1 -> binade v2 E2 -> (E1 <= E2)%Z.
Proof.
  intros Hv H1 H2.
  pose proof (binade_lower _ _ H2) as L2.
  destruct H1 as [[-> _]|[L1 [B1 _]]]; [assumption|].
  pose proof (binade_upper _ _ H2) as U2.
  assert (Hlt : bpow (E1 + 52) < bpow (E2 + 53)) by lra.
  apply bpow_lt_inv in Hlt. lia.
Qed.

Lemma binade_unique (v : R) (E1 E2 : Z) : binade v E1 -> binade v E2 -> E1 = E2.
Proof.
  intros H1 H2.
  pose proof (binade_mono v v E1 E2 (Rle_refl v) H1 H2).
  pose proof (binade_mono v v E2 E1 (Rle_refl v) H2 H1).
  lia.
Qed.

(** The significand of a rounded number has at most 53 bits, or is [2^53]. *)
Lemma rounded_significand_bounds (v : R) (E N : Z) :
  0 <= v -> binade v E -> nearest_even (v * bpow (- E)) N ->
  (0 <= N <= 2 ^ 53)%Z /\ (-1074 < E -> 2 ^ 52 <= N)%Z.
Proof.
  intros Hv HB HN.
  pose proof (bpow_pos (- E)) as Hp.
  pose proof (binade_upper _ _ HB) as HU.
  split; [split|].
  - apply (nearest_even_nonneg (v * bpow (- E))); [nra | assumption].
  - apply (nearest_even_mono (v * bpow (- E)) (IZR (2 ^ 53)) N (2 ^ 53)%Z);
      [|assumption|apply nearest_even_IZR].
    rewrite IZR_pow2 by lia.
    replace (bpow 53) with (bpow (E + 53) * bpow (- E)).
    + apply Rmult_le_compat_r; lra.
    + rewrite <- bpow_add. f_equal. lia.
  - intros HE. destruct HB as [[-> _]|[_ [HL _]]]; [lia|].
    apply (nearest_even_mono (IZR (2 ^ 52)) (v * bpow (- E)) (2 ^ 52)%Z N);
      [|apply nearest_even_IZR|assumption].
    rewrite IZR_pow2 by lia.
    replace (bpow 52) with (bpow (E + 52) * bpow (- E)).
    + apply Rmult_le_compat_r; lra.
    + rewrite <- bpow_add. f_equal. lia.
Qed.

(** Rounding is monotone on the values. *)
Lemma rounded_value_mono (v1 v2 : R) (E1 E2 N1 N2 : Z) :
  0 <= v1 <= v2 ->
  binade v1 E1 -> nearest_even (v1 * bpow (- E1)) N1 ->
  binade v2 E2 -> nearest_even (v2 * bpow (- E2)) N2 ->
  IZR N1 * bpow E1 <= IZR N2 * bpow E2.
Proof.
  intros Hv B1 R1 B2 R2.
  pose proof (binade_mono _ _ _ _ (proj2 Hv) B1 B2) as HE.
  destruct (Z.eq_dec E1 E2) as [->|Hne].
  - pose proof (bpow_pos E2). pose proof (bpow_pos (- E2)).
    assert (N1 <= N2)%Z.
    { apply (nearest_even_mono (v1 * bpow (- E2)) (v2 * bpow (- E2))); auto.
      apply Rmult_le_compat_r; lra. }
    apply Rmult_le_compat_r; [lra|]. apply IZR_le. assumption.
  - destruct (rounded_significand_bounds v1 E1 N1) as [[_ H1] _]; [lra|auto|auto|].
    destruct (rounded_significand_bounds v2 E2 N2) as [_ H2]; [lra|auto|auto|].
    pose proof (binade_lower _ _ B1).
    assert (H52 : (2 ^ 52 <= N2)%Z) by (apply H2; lia).
    apply IZR_le in H1, H52. rewrite IZR_pow2 in H1, H52 by lia.
    pose proof (bpow_pos E1). pose proof (bpow_pos E2).
    apply Rle_trans with (bpow 53 * bpow E1); [nra|].
    apply Rle_trans with (bpow 52 * bpow E2); [|nra].
    rewrite <- !bpow_add. apply bpow_le. lia.
Qed.

Lemma mkfloat_not_nan (s : bool) (N E : Z) :
  (0 <= N)%Z -> is_nan (mkfloat s N E) = false.
Proof.
  intros H. unfold mkfloat. destruct N as [|p|p]; [reflexivity| |lia].
  destruct (Zpos p =? 2 ^ 53)%Z.
  - destruct (E + 1 <=? 971)%Z; reflexivity.
  - destruct (E <=? 971)%Z; reflexivity.
Qed.

Lemma mkfloat_valid (s : bool) (N E : Z) :
  (-1074 <= E)%Z -> (0 <= N <= 2 ^ 53)%Z -> (-1074 < E -> 2 ^ 52 <= N)%Z ->
  valid (mkfloat s N E) = true.
Proof.
  intros HE HN H52. unfold mkfloat. destruct N as [|p|p]; [reflexivity| |lia].
  destruct (Z.eqb_spec (Zpos p) (2 ^ 53)) as [Heq|Hne].
  - destruct (Z.leb_spec (E + 1) 971); [|reflexivity].
    apply valid_finite_intro; change (Zpos (2 ^ 52)) with (2 ^ 52)%Z; lia.
  - destruct (Z.leb_spec E 971); [|reflexivity].
    apply valid_finite_intro; lia.
Qed.

Lemma mkfloat_XV (N E : Z) :
  (-1074 <= E)%Z -> (0 <= N <= 2 ^ 53)%Z -> (-1074 < E -> 2 ^ 52 <= N)%Z ->
  XV (mkfloat false N E) = Rmin (IZR N * bpow E) (bpow 1024).
Proof.
  intros HE HN H52. unfold mkfloat.
  pose proof (bpow_pos E) as HpE. pose proof (bpow_pos 1024) as Hp.
  destruct N as [|p|p]; [| |lia].
  - cbn [XV FV]. rewrite Rmult_0_l, Rmin_left; lra.
  - destruct (Z.eqb_spec (Zpos p) (2 ^ 53)) as [Heq|Hne].
    + rewrite Heq, IZR_pow2, <- bpow_add by lia.
      destruct (Z.leb_spec (E + 1) 971).
      * cbn [XV FV]. change (Zpos (2 ^ 52)) with (2 ^ 52)%Z.
        rewrite IZR_pow2, <- bpow_add by lia.
        replace (52 + (E + 1))%Z with (53 + E)%Z by lia.
        rewrite Rmin_left; [reflexivity|]. apply bpow_le. lia.
      * cbn [XV]. rewrite Rmin_right; [reflexivity|]. apply bpow_le. lia.
    + destruct (Z.leb_spec E 971).
      * cbn [XV FV]. rewrite Rmin_left; [reflexivity|].
        assert (Hlt : (Zpos p < 2 ^ 53)%Z) by lia.
        apply IZR_lt in Hlt. rewrite IZR_pow2 in Hlt by lia.
        apply Rle_trans with (bpow 53 * bpow E); [nra|].
        rewrite <- bpow_add. apply bpow_le. lia.
      * cbn [XV]. rewrite Rmin_right; [reflexivity|].
        assert (Hge : (2 ^ 52 <= Zpos p)%Z) by (apply H52; lia).
        apply IZR_le in Hge. rewrite IZR_pow2 in Hge by lia.
        apply Rle_trans with (bpow 52 * bpow E); [|nra].
        rewrite <- bpow_add. apply bpow_le. lia.
Qed.

Lemma Rnd_valid (s : bool) (v : R) (f : float) :
  0 <= v -> Rnd s v f -> valid f = true /\ is_nan f = false.
Proof.
  intros Hv (E & N & HB & HN & ->).
  destruct (rounded_significand_bounds v E N Hv HB HN) as [H1 H2].
  pose proof (binade_lower _ _ HB).
  split; [apply mkfloat_valid | apply mkfloat_not_nan]; auto; lia.
Qed.

Lemma Rnd_XV (v : R) (f : float) :
  0 <= v -> Rnd false v f ->
  exists E N, binade v E /\ nearest_even (v * bpow (- E)) N /\
              XV f = Rmin (IZR N * bpow E) (bpow 1024).
Proof.
  intros Hv (E & N & HB & HN & ->). exists E, N.
  split; [assumption|]. split; [assumption|].
  destruct (rounded_significand_bounds v E N Hv HB HN) as [H1 H2].
  pose proof (binade_lower _ _ HB).
  apply mkfloat_XV; auto.
Qed.

(** Rounding to nearest even is monotone. *)
Lemma Rnd_mono (v1 v2 : R) (f1 f2 : float) :
  0 <= v1 <= v2 -> Rnd false v1 f1 -> Rnd false v2 f2 -> XV f1 <= XV f2.
Proof.
  intros Hv H1 H2.
  destruct (Rnd_XV v1 f1) as (E1 & N1 & B1 & R1 & ->); [lra|auto|].
  destruct (Rnd_XV v2 f2) as (E2 & N2 & B2 & R2 & ->); [lra|auto|].
  pose proof (rounded_value_mono v1 v2 E1 E2 N1 N2 Hv B1 R1 B2 R2) as Hm.
  apply Rle_min_compat_r. assumption.
Qed.

(** A valid non-negative finite float is its own rounding. *)
Lemma Rnd_exact (m : positive) (e : Z) :
  valid (S754_finite false m e) = true ->
  Rnd false (IZR (Zpos m) * bpow e) (S754_finite false m e).
Proof.
  intros V. pose proof (valid_finite_range _ _ _ V) as HR.
  apply valid_finite_inv in V. destruct V as (He & Hm & Hn).
  exists e, (Zpos m). split; [|split; [split; [split|]|]].
  - destruct (Z.eq_dec e (-1074)) as [->|Hne].
    + left. split; [reflexivity|].
      apply IZR_lt in Hm. rewrite IZR_pow2 in Hm by lia.
      pose proof (bpow_pos (-1074)).
      apply Rlt_le_trans with (bpow 53 * bpow (-1074)); [nra|].
      rewrite <- bpow_add. apply bpow_le. lia.
    + right. split; [lia|].
      assert (H52 : (2 ^ 52 <= Zpos m)%Z) by (apply Hn; lia).
      apply IZR_le in H52. apply IZR_lt in Hm.
      rewrite IZR_pow2 in H52, Hm by lia.
      pose proof (bpow_pos e).
      rewrite (Z.add_comm e 52), (Z.add_comm e 53), !bpow_add. nra.
  - rewrite Rmult_assoc, bpow_cancel. lra.
  - rewrite Rmult_assoc, bpow_cancel. lra.
  - rewrite Rmult_assoc, bpow_cancel. intros [H|H]; lra.
  - unfold mkfloat.
    destruct (Z.eqb_spec (Zpos m) (2 ^ 53)); [lia|].
    destruct (Z.leb_spec e 971); [reflexivity|lia].
Qed.

Lemma Rnd_zero (s : bool) : Rnd s 0 (S754_zero s).
Proof.
  exists (-1074)%Z, 0%Z. split; [|split; [split; [split|]|reflexivity]].
  - left. split; [reflexivity | apply bpow_pos].
  - rewrite Rmult_0_l. lra.
  - rewrite Rmult_0_l. lra.
  - rewrite Rmult_0_l. intros [H|H]; lra.
Qed.

(** Rounding is a function of the value. *)
Lemma Rnd_unique (s : bool) (v : R) (f1 f2 : float) :
  Rnd s v f1 -> Rnd s v f2 -> f1 = f2.
Proof.
  intros (E1 & N1 & B1 & R1 & ->) (E2 & N2 & B2 & R2 & ->).
  pose proof (binade_unique _ _ _ B1 B2). subst E2.
  pose proof (nearest_even_unique _ _ _ R1 R2). subst N2. reflexivity.
Qed.

End Rounding.

Section RoundAux.

Import FloatSem.
Local Open Scope R_scope.

Lemma located_bounds (x : R) (m : Z) (l : location) :
  located x m l -> IZR m <= x < IZR m + 1.
Proof.
  destruct l as [|c]; cbn [located].
  - intros ->. lra.
  - intros [H _]. lra.
Qed.

(** The exponent [binary_round_aux] settles on is the binade of the value. *)
Lemma located_binade (v : R) (mx ex : Z) (lx : location) :
  (0 <= mx)%Z -> located (v * bpow (- ex)) mx lx ->
  (ex <= fexp prec emax (Zdigits2 mx + ex))%Z ->
  0 <= v /\ binade v (fexp prec emax (Zdigits2 mx + ex)).
Proof.
  intros Hm HL He. apply located_bounds in HL.
  pose proof (bpow_pos ex) as Hpe. pose proof (bpow_pos (- ex)) as Hpne.
  pose proof (bpow_cancel ex) as Hc.
  assert (Hv : v = v * bpow (- ex) * bpow ex) by (rewrite Rmult_assoc, (Rmult_comm (bpow (- ex))), Hc; ring).
  assert (H0 : 0 <= IZR mx) by (apply IZR_le; assumption).
  split; [nra|].
  rewrite fexp_eq in *.
  destruct (Z.eq_dec mx 0) as [->|Hnz].
  - cbn [Zdigits2] in *. left. split; [lia|].
    rewrite Hv. apply Rlt_le_trans with (bpow ex); [nra|]. apply bpow_le. lia.
  - pose proof (Zdigits2_bounds mx ltac:(lia)) as [Hd1 Hd2].
    pose proof (Zdigits2_pos mx ltac:(lia)) as Hdp.
    set (d := Zdigits2 mx) in *.
    apply IZR_le in Hd1. rewrite IZR_pow2 in Hd1 by lia.
    assert (Hd2' : IZR mx + 1 <= bpow d).
    { rewrite <- IZR_pow2 by lia. rewrite <- plus_IZR. apply IZR_le. lia. }
    assert (Hlo : bpow (d - 1 + ex) <= v) by (rewrite bpow_add, Hv; nra).
    assert (Hhi : v < bpow (d + ex)).
    { rewrite bpow_add, Hv. apply Rmult_lt_compat_r; lra. }
    destruct (Z.le_gt_cases (d + ex - 53) (-1074)) as [Hsub|Hnorm].
    + replace (Z.max (d + ex - 53) (-1074)) with (-1074)%Z by lia.
      left. split; [reflexivity|].
      apply Rlt_le_trans with (bpow (d + ex)); [assumption|]. apply bpow_le. lia.
    + replace (Z.max (d + ex - 53) (-1074)) with (d + ex - 53)%Z by lia.
      right. split; [lia|].
      replace (d + ex - 53 + 52)%Z with (d - 1 + ex)%Z by lia.
      replace (d + ex - 53 + 53)%Z with (d + ex)%Z by lia.
      lra.
Qed.

Lemma Zdigits2_le_53 (N : Z) : (0 < N < 2 ^ 53)%Z -> (Zdigits2 N <= 53)%Z.
Proof.
  intros H. pose proof (Zdigits2_bounds N ltac:(lia)) as Hb.
  destruct (Z.le_gt_cases (Zdigits2 N) 53) as [Hle|Hgt]; [assumption|].
  assert (2 ^ 53 <= 2 ^ (Zdigits2 N - 1))%Z by (apply Z.pow_le_mono_r; lia).
  lia.
Qed.

(** The second normalisation of [binary_round_aux] only acts on [2^53]. *)
Lemma renormalise (s : bool) (N E : Z) :
  (-1074 <= E)%Z -> (0 <= N <= 2 ^ 53)%Z ->
  (let '(mrs, e) := shr_fexp prec emax N E loc_Exact in
   match shr_m mrs with
   | Z0 => S754_zero s
   | Zpos m => if (e <=? emax - prec)%Z then S754_finite s m e else S754_infinity s
   | Zneg _ => S754_nan
   end) = mkfloat s N E.
Proof.
  intros HE HN. unfold shr_fexp. rewrite fexp_eq.
  change (emax - prec)%Z with 971%Z.
  destruct (Z.eq_dec N (2 ^ 53)) as [->|Hne].
  - change (Zdigits2 (2 ^ 53)) with 54%Z.
    replace (Z.max (54 + E - 53) (-1074) - E)%Z with 1%Z by lia.
    cbn [shr_record_of_loc shr].
    change (shr_m (SpecFloat.iter_pos shr_1 1
                     {| shr_m := 2 ^ 53; shr_r := false; shr_s := false |}))
      with (Zpos (2 ^ 52)).
    unfold mkfloat. change (2 ^ 53)%Z with (Zpos (2 ^ 53)).
    rewrite Z.eqb_refl. reflexivity.
  - assert (Hn : (Z.max (Zdigits2 N + E - 53) (-1074) - E <= 0)%Z).
    { destruct (Z.eq_dec N 0) as [->|Hnz]; [cbn [Zdigits2]; lia|].
      pose proof (Zdigits2_le_53 N ltac:(lia)). lia. }
    assert (Hs : shr (shr_record_of_loc N loc_Exact) E
                     (Z.max (Zdigits2 N + E - 53) (-1074) - E)
                 = (shr_record_of_loc N loc_Exact, E)).
    { destruct (Z.max (Zdigits2 N + E - 53) (-1074) - E)%Z; try reflexivity. lia. }
    rewrite Hs. cbn [shr_record_of_loc shr_m]. unfold mkfloat.
    destruct N as [|p|p]; [reflexivity| |lia].
    destruct (Z.eqb_spec (Zpos p) (2 ^ 53)); [contradiction | reflexivity].
Qed.

(** [binary_round_aux] rounds the located number to nearest even. *)
Lemma binary_round_aux_Rnd (s : bool) (mx ex : Z) (lx : location) (v : R) :
  (0 <= mx)%Z -> located (v * bpow (- ex)) mx lx ->
  (ex <= fexp prec emax (Zdigits2 mx + ex))%Z ->
  Rnd s v (binary_round_aux prec emax s mx ex lx).
Proof.
  intros Hm HL He.
  destruct (located_binade v mx ex lx Hm HL He) as [Hv HB].
  unfold binary_round_aux.
  set (E := fexp prec emax (Zdigits2 mx + ex)) in *.
  unfold shr_fexp at 1. fold E.
  destruct (loc_of_shr_record_of_loc mx lx) as [Hl1 Hl2].
  assert (HL' : located (v * bpow (- ex)) (shr_m (shr_record_of_loc mx lx))
                        (loc_of_shr_record (shr_record_of_loc mx lx)))
    by (rewrite Hl1, Hl2; assumption).
  assert (Hm' : (0 <= shr_m (shr_record_of_loc mx lx))%Z) by (rewrite Hl2; assumption).
  pose proof (shr_located _ _ ex (E - ex) Hm' HL') as HS.
  destruct (shr (shr_record_of_loc mx lx) ex (E - ex)) as [mrs' e'].
  destruct HS as (-> & HL1 & Hm1).
  replace (ex + Z.max (E - ex) 0)%Z with E by lia.
  replace (v * bpow (- ex) * bpow (- Z.max (E - ex) 0)) with (v * bpow (- E)) in HL1.
  2:{ rewrite Rmult_assoc, <- bpow_add. f_equal. f_equal. lia. }
  apply round_nearest_even_spec in HL1.
  set (N := round_nearest_even (shr_m mrs') (loc_of_shr_record mrs')) in *.
  destruct (rounded_significand_bounds v E N Hv HB HL1) as [HN _].
  pose proof (binade_lower _ _ HB) as HE.
  exists E, N. split; [assumption|]. split; [assumption|].
  apply renormalise; assumption.
Qed.

End RoundAux.

Section BinaryRound.

Import FloatSem.
Local Open Scope R_scope.

Lemma iter_xO (d m : positive) : Zpos (Pos.iter xO m d) = (Zpos m * 2 ^ Zpos d)%Z.
Proof.
  induction d as [|d IH] using Pos.peano_ind.
  - simpl. lia.
  - rewrite Pos.iter_succ, Pos2Z.inj_xO, IH, Pos2Z.inj_succ, Z.pow_succ_r by lia. ring.
Qed.

Lemma Zdigits2_shift (m : positive) (d : Z) :
  (0 <= d)%Z -> Zdigits2 (Zpos m * 2 ^ d) = (Zdigits2 (Zpos m) + d)%Z.
Proof.
  intros Hd. pose proof (Zdigits2_bounds (Zpos m) ltac:(lia)) as Hb.
  pose proof (Zdigits2_pos (Zpos m) ltac:(lia)) as Hp.
  apply Zdigits2_unique; [|lia].
  replace (Zdigits2 (Zpos m) + d - 1)%Z with (Zdigits2 (Zpos m) - 1 + d)%Z by lia.
  rewrite !Z.pow_add_r by lia.
  assert (0 < 2 ^ d)%Z by (apply Z.pow_pos_nonneg; lia). nia.
Qed.

(** [shl_align] keeps the value and, when it shifts, reaches the exponent
    asked for. *)
Lemma shl_align_spec (mx : positive) (ex ex' : Z) :
  let '(mz, ez) := shl_align mx ex ex' in
  IZR (Zpos mz) * bpow ez = IZR (Zpos mx) * bpow ex /\
  (ez <= ex)%Z /\
  ((ex' < ex)%Z -> ez = ex' /\ Zpos mz = (Zpos mx * 2 ^ (ex - ex'))%Z) /\
  ((ex <= ex')%Z -> ez = ex /\ mz = mx).
Proof.
  unfold shl_align. destruct (ex' - ex)%Z as [|d|d] eqn:Hd.
  - repeat split; try lia.
  - repeat split; try lia.
  - assert (Hz : Zpos (Pos.iter xO mx d) = (Zpos mx * 2 ^ (ex - ex'))%Z).
    { rewrite iter_xO. f_equal. f_equal. lia. }
    repeat split; try lia; try assumption.
    rewrite Hz, mult_IZR, IZR_pow2 by lia.
    rewrite Rmult_assoc, <- bpow_add. f_equal. f_equal. lia.
Qed.

(** [binary_round] rounds [mx * 2^ex] to nearest even. *)
Lemma binary_round_Rnd (s : bool) (mx : positive) (ex : Z) :
  Rnd s (IZR (Zpos mx) * bpow ex) (binary_round prec emax s mx ex).
Proof.
  unfold binary_round.
  change (Zpos (digits2_pos mx)) with (Zdigits2 (Zpos mx)).
  pose proof (shl_align_spec mx ex (fexp prec emax (Zdigits2 (Zpos mx) + ex))) as HS.
  destruct (shl_align mx ex (fexp prec emax (Zdigits2 (Zpos mx) + ex))) as [mz ez].
  destruct HS as (Hv & Hle & Hlt & Hge).
  rewrite <- Hv. apply binary_round_aux_Rnd.
  - lia.
  - cbn [located]. rewrite Rmult_assoc, bpow_cancel. ring.
  - destruct (Z.lt_ge_cases (fexp prec emax (Zdigits2 (Zpos mx) + ex)) ex) as [H|H].
    + destruct (Hlt H) as [-> Hz]. rewrite Hz, Zdigits2_shift by lia.
      replace (Zdigits2 (Zpos mx) + (ex - fexp prec emax (Zdigits2 (Zpos mx) + ex)) +
               fexp prec emax (Zdigits2 (Zpos mx) + ex))%Z
        with (Zdigits2 (Zpos mx) + ex)%Z by lia.
      lia.
    + destruct (Hge H) as [-> ->]. assumption.
Qed.

Lemma mkfloat_opp (N E : Z) : mkfloat true N E = SFopp (mkfloat false N E).
Proof.
  unfold mkfloat. destruct N as [|p|p]; try reflexivity.
  destruct (Zpos p =? 2 ^ 53)%Z.
  - destruct (E + 1 <=? 971)%Z; reflexivity.
  - destruct (E <=? 971)%Z; reflexivity.
Qed.

Lemma Rnd_opp (v : R) (f : float) : Rnd true v f <-> Rnd false v (SFopp f).
Proof.
  split.
  - intros (E & N & HB & HN & ->). exists E, N. repeat split; auto; try apply HN.
    rewrite mkfloat_opp. destruct (mkfloat false N E) as [[]|[]| |[] m e]; reflexivity.
  - intros (E & N & HB & HN & Hf). exists E, N. repeat split; auto; try apply HN.
    rewrite mkfloat_opp, <- Hf. destruct f as [[]|[]| |[] m e]; reflexivity.
Qed.

Lemma XV_opp (f : float) : XV (SFopp f) = - XV f.
Proof.
  destruct f as [s|[]| |[] m e]; cbn [SFopp XV FV negb]; lra.
Qed.

Lemma valid_opp (f : float) : valid (SFopp f) = valid f.
Proof. destruct f; reflexivity. Qed.

Lemma is_nan_opp (f : float) : is_nan (SFopp f) = is_nan f.
Proof. destruct f; reflexivity. Qed.

Lemma SFopp_involutive (f : float) : SFopp (SFopp f) = f.
Proof. destruct f as [[]|[]| |[] m e]; reflexivity. Qed.

End BinaryRound.

Section SignedRounding.

Import FloatSem.
Local Open Scope R_scope.

Lemma XV_finite (f : float) : finite f = true -> XV f = FV f.
Proof. destruct f; try discriminate; reflexivity. Qed.

Lemma valid_range (f : float) :
  valid f = true -> finite f = true -> - bpow 1024 < FV f < bpow 1024.
Proof.
  intros V F. pose proof (bpow_pos 1024).
  destruct f as [s| | |s m e]; try discriminate; cbn [FV]; [lra|].
  rewrite (valid_sign s false) in V. pose proof (valid_finite_range _ _ _ V).
  destruct s; lra.
Qed.

Lemma finite_of_bounds (f : float) :
  is_nan f = false -> - bpow 1024 < XV f < bpow 1024 -> finite f = true.
Proof.
  destruct f as [s|[]| |s m e]; cbn [XV is_nan finite]; intros; try reflexivity;
    try discriminate; lra.
Qed.

Lemma Rnd_nonneg (v : R) (f : float) : 0 <= v -> Rnd false v f -> 0 <= XV f.
Proof.
  intros Hv H. destruct (Rnd_XV v f Hv H) as (E & N & HB & HN & ->).
  destruct (rounded_significand_bounds v E N Hv HB HN) as [[H0 _] _].
  apply IZR_le in H0. pose proof (bpow_pos E). pose proof (bpow_pos 1024).
  apply Rmin_glb; nra.
Qed.

Lemma RndS_valid (v : R) (f : float) :
  RndS v f -> valid f = true /\ is_nan f = false.
Proof.
  intros [[Hv H]|[[Hv H]|[Hv [s ->]]]].
  - apply (Rnd_valid false v); [lra | assumption].
  - apply (Rnd_valid true (- v)); [lra | assumption].
  - split; reflexivity.
Qed.

(** The sign of a rounded number is that of the number. *)
Lemma RndS_sign (v : R) (f : float) :
  RndS v f -> (0 <= v -> 0 <= XV f) /\ (v <= 0 -> XV f <= 0).
Proof.
  intros [[Hv H]|[[Hv H]|[Hv [s ->]]]].
  - split; [|lra]. intros _. apply (Rnd_nonneg v); [lra | assumption].
  - split; [lra|]. intros _. apply Rnd_opp in H.
    apply Rnd_nonneg in H; [|lra]. rewrite XV_opp in H. lra.
  - cbn [XV FV]. split; lra.
Qed.

(** Rounding to nearest even is monotone on the reals. *)
Lemma RndS_mono (v1 v2 : R) (f1 f2 : float) :
  v1 <= v2 -> RndS v1 f1 -> RndS v2 f2 -> XV f1 <= XV f2.
Proof.
  intros Hv H1 H2.
  destruct (Rle_lt_dec 0 v1) as [P1|N1]; destruct (Rle_lt_dec v2 0) as [N2|P2].
  - assert (v1 = 0) by lra. assert (v2 = 0) by lra. subst.
    pose proof (RndS_sign _ _ H1) as [_ A]. pose proof (RndS_sign _ _ H2) as [B _].
    specialize (A (Rle_refl 0)). specialize (B (Rle_refl 0)). lra.
  - destruct H2 as [[_ H2]|[[C _]|[C _]]]; try lra.
    destruct H1 as [[_ H1]|[[C _]|[C [s ->]]]]; try lra.
    + apply (Rnd_mono v1 v2); auto; lra.
    + apply Rnd_nonneg in H2; [|lra]. cbn [XV FV]. lra.
  - pose proof (RndS_sign _ _ H1) as [_ A]. pose proof (RndS_sign _ _ H2) as [_ B].
    destruct H1 as [[C _]|[[_ H1]|[C _]]]; try lra.
    destruct H2 as [[C _]|[[_ H2]|[C [s ->]]]]; try lra.
    + apply Rnd_opp in H1, H2.
      pose proof (Rnd_mono (- v2) (- v1) _ _ ltac:(lra) H2 H1) as Hm.
      rewrite !XV_opp in Hm. lra.
    + cbn [XV FV]. apply A. lra.
  - pose proof (RndS_sign _ _ H1) as [_ A]. pose proof (RndS_sign _ _ H2) as [B _].
    specialize (A ltac:(lra)). specialize (B ltac:(lra)). lra.
Qed.

(** A valid finite float is the rounding of its own value. *)
Lemma RndS_exact (f : float) :
  valid f = true -> finite f = true -> RndS (FV f) f.
Proof.
  intros V F. destruct f as [s| | |s m e]; try discriminate.
  - right. right. split; [reflexivity|]. exists s. reflexivity.
  - rewrite (valid_sign s false) in V.
    pose proof (valid_finite_range _ _ _ V) as HR.
    pose proof (Rnd_exact m e V) as HE.
    destruct s; cbn [FV].
    + right. left. split; [lra|]. rewrite Ropp_involutive.
      apply Rnd_opp. exact HE.
    + left. split; [lra | exact HE].
Qed.

Lemma RndS_unique (v : R) (f1 f2 : float) :
  v <> 0 -> RndS v f1 -> RndS v f2 -> f1 = f2.
Proof.
  intros Hv [[A H1]|[[A H1]|[A _]]] [[B H2]|[[B H2]|[B _]]]; try lra.
  - apply (Rnd_unique false v); assumption.
  - apply (Rnd_unique true (- v)); assumption.
Qed.

(** A number between two finite floats rounds to a finite float between
    them. *)
Lemma RndS_between (v : R) (f lo hi : float) :
  RndS v f ->
  valid lo = true -> finite lo = true -> valid hi = true -> finite hi = true ->
  FV lo <= v <= FV hi ->
  valid f = true /\ finite f = true /\ FV lo <= FV f <= FV hi.
Proof.
  intros H Vl Fl Vh Fh Hv.
  destruct (RndS_valid _ _ H) as [V N].
  pose proof (RndS_mono _ _ _ _ (proj1 Hv) (RndS_exact lo Vl Fl) H) as H1.
  pose proof (RndS_mono _ _ _ _ (proj2 Hv) H (RndS_exact hi Vh Fh)) as H2.
  rewrite (XV_finite lo Fl) in H1. rewrite (XV_finite hi Fh) in H2.
  pose proof (valid_range lo Vl Fl). pose proof (valid_range hi Vh Fh).
  assert (F : finite f = true) by (apply finite_of_bounds; [assumption | lra]).
  rewrite (XV_finite f F) in H1, H2. auto.
Qed.

Lemma binary_normalize_RndS (m e : Z) (sz : bool) :
  RndS (IZR m * bpow e) (binary_normalize prec emax m e sz).
Proof.
  pose proof (bpow_pos e) as Hp.
  destruct m as [|p|p]; cbn [binary_normalize].
  - right. right. split; [ring|]. exists sz. reflexivity.
  - left. pose proof (IZR_pos p). split; [nra|]. apply binary_round_Rnd.
  - right. left. pose proof (IZR_pos p).
    change (Zneg p) with (- Zpos p)%Z. rewrite opp_IZR. split; [nra|].
    replace (- (- IZR (Zpos p) * bpow e)) with (IZR (Zpos p) * bpow e) by ring.
    apply binary_round_Rnd.
Qed.

End SignedRounding.

Section Operations.

Import FloatSem.
Local Open Scope R_scope.

Lemma FV_aligned (s : bool) (mx : positive) (ex ez : Z) :
  (ez <= ex)%Z ->
  IZR (cond_Zopp s (Zpos (fst (shl_align mx ex ez)))) * bpow ez =
  FV (S754_finite s mx ex).
Proof.
  intros He. pose proof (shl_align_spec mx ex ez) as HS.
  destruct (shl_align mx ex ez) as [mz ez']. cbn [fst].
  destruct HS as (Hv & _ & Hlt & Hge).
  assert (ez' = ez).
  { destruct (Z.lt_ge_cases ez ex) as [H|H].
    - apply Hlt. assumption.
    - destruct (Hge H). lia. }
  subst ez'. cbn [FV]. destruct s; cbn [cond_Zopp].
  - rewrite opp_IZR, <- Hv. ring.
  - exact Hv.
Qed.

Lemma RndS_zero (s : bool) : RndS 0 (S754_zero s).
Proof. right. right. split; [reflexivity|]. exists s. reflexivity. Qed.

(** Addition of finite floats is the rounded sum. *)
Lemma fadd_RndS (x y : float) :
  valid x = true -> valid y = true -> finite x = true -> finite y = true ->
  RndS (FV x + FV y) (fadd x y).
Proof.
  intros Vx Vy Fx Fy. unfold fadd.
  destruct x as [sx| | |sx mx ex]; try discriminate;
    destruct y as [sy| | |sy my ey]; try discriminate; cbn [SFadd].
  - cbn [FV]. rewrite Rplus_0_l. destruct sx, sy; apply RndS_zero.
  - rewrite Rplus_0_l. apply RndS_exact; assumption.
  - rewrite Rplus_0_r. apply RndS_exact; assumption.
  - rewrite <- (FV_aligned sx mx ex (Z.min ex ey)) by lia.
    rewrite <- (FV_aligned sy my ey (Z.min ex ey)) by lia.
    rewrite <- Rmult_plus_distr_r, <- plus_IZR.
    apply binary_normalize_RndS.
Qed.

(** Subtraction of finite floats is the rounded difference. *)
Lemma fsub_RndS (x y : float) :
  valid x = true -> valid y = true -> finite x = true -> finite y = true ->
  RndS (FV x - FV y) (fsub x y).
Proof.
  intros Vx Vy Fx Fy. unfold fsub.
  destruct x as [sx| | |sx mx ex]; try discriminate;
    destruct y as [sy| | |sy my ey]; try discriminate; cbn [SFsub].
  - cbn [FV]. rewrite Rminus_0_r. destruct sx, sy; apply RndS_zero.
  - replace (FV (S754_zero sx) - FV (S754_finite sy my ey))
      with (FV (S754_finite (negb sy) my ey)) by (destruct sy; cbn [FV negb]; ring).
    apply RndS_exact; [|reflexivity]. rewrite (valid_sign _ sy). assumption.
  - cbn [FV]. rewrite Rminus_0_r. apply (RndS_exact (S754_finite sx mx ex)); assumption.
  - rewrite <- (FV_aligned sx mx ex (Z.min ex ey)) by lia.
    rewrite <- (FV_aligned sy my ey (Z.min ex ey)) by lia.
    unfold Rminus. rewrite Ropp_mult_distr_l, <- Rmult_plus_distr_r, <- opp_IZR, <- plus_IZR.
    apply binary_normalize_RndS.
Qed.

Lemma Zdigits2_ge_53 (N : Z) : (2 ^ 52 <= N)%Z -> (53 <= Zdigits2 N)%Z.
Proof.
  intros H. pose proof (Zdigits2_bounds N ltac:(lia)) as Hb.
  destruct (Z.le_gt_cases 53 (Zdigits2 N)) as [Hle|Hgt]; [assumption|].
  assert (2 ^ Zdigits2 N <= 2 ^ 52)%Z.
  { apply Z.pow_le_mono_r; [lia|]. lia. }
  lia.
Qed.

(** Multiplication of finite floats is the rounded product. *)
Lemma fmul_RndS (x y : float) :
  valid x = true -> valid y = true -> finite x = true -> finite y = true ->
  RndS (FV x * FV y) (fmul x y).
Proof.
  intros Vx Vy Fx Fy. unfold fmul.
  destruct x as [sx| | |sx mx ex]; try discriminate;
    destruct y as [sy| | |sy my ey]; try discriminate; cbn [SFmul].
  - cbn [FV]. rewrite Rmult_0_l. apply RndS_zero.
  - cbn [FV]. rewrite Rmult_0_l. apply RndS_zero.
  - cbn [FV]. rewrite Rmult_0_r. apply RndS_zero.
  - pose proof (valid_finite_inv _ _ _ Vx) as (Hex & Hmx & Hnx).
    pose proof (valid_finite_inv _ _ _ Vy) as (Hey & Hmy & Hny).
    pose proof (IZR_pos mx). pose proof (IZR_pos my).
    pose proof (bpow_pos ex). pose proof (bpow_pos ey).
    assert (HR : Rnd (xorb sx sy)
                   (IZR (Zpos mx) * bpow ex * (IZR (Zpos my) * bpow ey))
                   (binary_round_aux prec emax (xorb sx sy)
                      (Zpos (mx * my)) (ex + ey) loc_Exact)).
    { apply binary_round_aux_Rnd.
      - lia.
      - cbn [located]. rewrite Pos2Z.inj_mul, mult_IZR.
        replace (- (ex + ey))%Z with (- ex + - ey)%Z by lia.
        rewrite bpow_add.
        transitivity (IZR (Zpos mx) * IZR (Zpos my) *
                      (bpow ex * bpow (- ex)) * (bpow ey * bpow (- ey))); [ring|].
        rewrite !bpow_cancel. ring.
      - rewrite fexp_eq.
        destruct (Z.eq_dec ex (-1074)) as [Ex|Ex];
          destruct (Z.eq_dec ey (-1074)) as [Ey|Ey]; [lia | | |].
        + assert (53 <= Zdigits2 (Zpos (mx * my)))%Z; [|lia].
          apply Zdigits2_ge_53. rewrite Pos2Z.inj_mul.
          assert (2 ^ 52 <= Zpos my)%Z by (apply Hny; lia). nia.
        + assert (53 <= Zdigits2 (Zpos (mx * my)))%Z; [|lia].
          apply Zdigits2_ge_53. rewrite Pos2Z.inj_mul.
          assert (2 ^ 52 <= Zpos mx)%Z by (apply Hnx; lia). nia.
        + assert (53 <= Zdigits2 (Zpos (mx * my)))%Z; [|lia].
          apply Zdigits2_ge_53. rewrite Pos2Z.inj_mul.
          assert (2 ^ 52 <= Zpos mx)%Z by (apply Hnx; lia). nia. }
    assert (HA : 0 < IZR (Zpos mx) * bpow ex) by (apply Rmult_lt_0_compat; assumption).
    assert (HB : 0 < IZR (Zpos my) * bpow ey) by (apply Rmult_lt_0_compat; assumption).
    revert HR. cbn [FV].
    generalize (IZR (Zpos mx) * bpow ex) (IZR (Zpos my) * bpow ey) HA HB.
    intros a b Ha Hb HR.
    assert (Hab : 0 < a * b) by (apply Rmult_lt_0_compat; assumption).
    destruct sx, sy; cbn [xorb] in *.
    + left. split; [lra|].
      replace (- a * - b) with (a * b) by ring. exact HR.
    + right. left. split; [lra|].
      replace (- (- a * b)) with (a * b) by ring. exact HR.
    + right. left. split; [lra|].
      replace (- (a * - b)) with (a * b) by ring. exact HR.
    + left. split; [lra | exact HR].
Qed.

(** Conversion of an int is the rounded int; it raises exactly when the
    rounding overflows. *)
Lemma float_of_int_RndS (n : Z) (d : float) :
  float_of_int n = Ok d -> RndS (IZR n) d /\ finite d = true.
Proof.
  unfold float_of_int. intros H.
  pose proof (binary_normalize_RndS n 0 false) as HR.
  rewrite bpow_0, Rmult_1_r in HR.
  destruct (RndS_valid _ _ HR) as [_ HN].
  destruct (binary_normalize prec emax n 0 false) as [s|s| |s m e];
    try discriminate; injection H as <-; auto.
Qed.

End Operations.

Section Division.

Import FloatSem.
Local Open Scope R_scope.

(** The location [new_location] computes is that of the quotient. *)
Lemma new_location_located (n k q : Z) :
  (0 <= k < n)%Z ->
  located (IZR q + IZR k / IZR n) q (new_location n k).
Proof.
  intros Hk.
  assert (Hn : 0 < IZR n) by (apply IZR_lt; lia).
  assert (Hk0 : 0 <= IZR k) by (apply IZR_le; lia).
  assert (Hkn : IZR k < IZR n) by (apply IZR_lt; lia).
  assert (Hfrac : 0 <= IZR k / IZR n < 1).
  { split.
    - apply Rmult_le_pos; [assumption|]. apply Rlt_le, Rinv_0_lt_compat. assumption.
    - apply Rmult_lt_reg_r with (IZR n); [assumption|].
      unfold Rdiv. rewrite Rmult_assoc, Rinv_l by lra. lra. }
  assert (Hhalf : forall c : comparison,
             (2 * k ?= n)%Z = c ->
             match c with
             | Lt => IZR q + IZR k / IZR n < IZR q + / 2
             | Eq => IZR q + IZR k / IZR n = IZR q + / 2
             | Gt => IZR q + / 2 < IZR q + IZR k / IZR n
             end).
  { intros c Hc.
    assert (E : IZR k / IZR n - / 2 = (2 * IZR k - IZR n) / (2 * IZR n))
      by (field; lra).
    assert (P : 0 < / (2 * IZR n)) by (apply Rinv_0_lt_compat; lra).
    destruct (Z.compare_spec (2 * k) n) as [H|H|H]; subst c.
    - apply (f_equal IZR) in H. rewrite mult_IZR in H.
      assert (IZR k / IZR n - / 2 = 0); [|lra].
      rewrite E, <- H. unfold Rdiv. ring.
    - apply IZR_lt in H. rewrite mult_IZR in H.
      assert (IZR k / IZR n - / 2 < 0); [|lra].
      rewrite E. unfold Rdiv. nra.
    - apply IZR_lt in H. rewrite mult_IZR in H.
      assert (0 < IZR k / IZR n - / 2); [|lra].
      rewrite E. unfold Rdiv. nra. }
  unfold new_location.
  destruct (Z.even n) eqn:Ev; unfold new_location_even, new_location_odd;
    destruct (Z.eqb_spec k 0) as [Hk1|Hk1].
  - subst k. cbn [located]. unfold Rdiv. rewrite Rmult_0_l. ring.
  - assert (Hkpos : 0 < IZR k) by (apply IZR_lt; lia).
    assert (Hfpos : 0 < IZR k / IZR n).
    { apply Rmult_lt_0_compat; [assumption|]. apply Rinv_0_lt_compat. assumption. }
    cbn [located]. split; [lra|]. apply Hhalf. reflexivity.
  - subst k. cbn [located]. unfold Rdiv. rewrite Rmult_0_l. ring.
  - assert (Hkpos : 0 < IZR k) by (apply IZR_lt; lia).
    assert (Hfpos : 0 < IZR k / IZR n).
    { apply Rmult_lt_0_compat; [assumption|]. apply Rinv_0_lt_compat. assumption. }
    cbn [located]. split; [lra|].
    assert (Hodd : (2 * k <> n)%Z).
    { intros <-. rewrite Z.even_mul in Ev. discriminate. }
    destruct (Z.compare_spec (2 * k + 1) n) as [H|H|H].
    + apply (Hhalf Lt). apply Z.compare_lt_iff. lia.
    + apply (Hhalf Lt). apply Z.compare_lt_iff. lia.
    + apply (Hhalf Gt). apply Z.compare_gt_iff. lia.
Qed.

Lemma fexp_mono (a b : Z) : (a <= b)%Z -> (fexp prec emax a <= fexp prec emax b)%Z.
Proof. rewrite !fexp_eq. lia. Qed.

(** The core of the division yields a located quotient fine enough to be
    rounded. *)
Lemma SFdiv_core_binary_spec (m1 m2 : positive) (e1 e2 : Z) :
  let '(q, e', l) := SFdiv_core_binary prec emax (Zpos m1) e1 (Zpos m2) e2 in
  (0 <= q)%Z /\
  located (IZR (Zpos m1) * bpow e1 / (IZR (Zpos m2) * bpow e2) * bpow (- e')) q l /\
  (e' <= fexp prec emax (Zdigits2 q + e'))%Z.
Proof.
  unfold SFdiv_core_binary.
  set (d1 := Zdigits2 (Zpos m1)). set (d2 := Zdigits2 (Zpos m2)).
  set (e' := Z.min (fexp prec emax (d1 + e1 - (d2 + e2))) (e1 - e2)).
  set (s := (e1 - e2 - e')%Z).
  assert (Hs : (0 <= s)%Z) by (unfold s, e'; lia).
  set (m' := match s with
             | Z0 => Zpos m1
             | Zpos _ => Z.shiftl (Zpos m1) s
             | Zneg _ => Z0
             end).
  assert (Hm' : m' = (Zpos m1 * 2 ^ s)%Z).
  { unfold m'. destruct s as [|p|p] eqn:Es.
    - simpl. lia.
    - apply Z.shiftl_mul_pow2. lia.
    - lia. }
  pose proof (Z.div_eucl_eq m' (Zpos m2) ltac:(lia)) as Hdiv.
  pose proof (Z.mod_pos_bound m' (Zpos m2) ltac:(lia)) as Hmod.
  unfold Z.modulo in Hmod.
  destruct (Z.div_eucl m' (Zpos m2)) as [q r].
  assert (H2s : (0 < 2 ^ s)%Z) by (apply Z.pow_pos_nonneg; lia).
  assert (Hq : (0 <= q)%Z) by nia.
  pose proof (IZR_pos m1) as P1. pose proof (IZR_pos m2) as P2.
  pose proof (bpow_pos e1) as Pe1. pose proof (bpow_pos e2) as Pe2.
  assert (Hx : IZR (Zpos m1) * bpow e1 / (IZR (Zpos m2) * bpow e2) * bpow (- e')
               = IZR q + IZR r / IZR (Zpos m2)).
  { assert (Hm'R : IZR m' = IZR (Zpos m2) * IZR q + IZR r).
    { rewrite Hdiv, plus_IZR, mult_IZR. reflexivity. }
    rewrite Hm', mult_IZR, IZR_pow2 in Hm'R by lia.
    assert (He1 : bpow e1 = bpow s * bpow e2 * bpow e').
    { rewrite <- !bpow_add. f_equal. unfold s. lia. }
    rewrite He1. pose proof (bpow_pos e') as Pe'. pose proof (bpow_pos s) as Ps.
    pose proof (bpow_cancel e') as Hc.
    transitivity (IZR (Zpos m1) * bpow s / IZR (Zpos m2) * (bpow e' * bpow (- e'))).
    - field. split; lra.
    - rewrite Hc, Hm'R. field. lra. }
  split; [assumption|]. split.
  - rewrite Hx. apply new_location_located. lia.
  - (* the quotient has enough digits *)
    pose proof (new_location_located (Zpos m2) r q ltac:(lia)) as HL.
    apply located_bounds in HL. rewrite <- Hx in HL.
    set (v := IZR (Zpos m1) * bpow e1 / (IZR (Zpos m2) * bpow e2)) in *.
    assert (Hdq : IZR q + 1 <= bpow (Zdigits2 q)).
    { destruct (Z.eq_dec q 0) as [->|Hnz].
      - cbn [Zdigits2]. rewrite bpow_0. lra.
      - pose proof (Zdigits2_bounds q ltac:(lia)) as [_ Hb].
        pose proof (Zdigits2_nonneg q).
        rewrite <- IZR_pow2 by assumption. rewrite <- plus_IZR. apply IZR_le. lia. }
    pose proof (bpow_pos e') as Pe'. pose proof (bpow_pos (- e')) as Pne'.
    assert (Hv_hi : v < bpow (Zdigits2 q + e')).
    { rewrite bpow_add.
      replace v with (v * bpow (- e') * bpow e')
        by (rewrite Rmult_assoc, (Rmult_comm (bpow (- e'))), bpow_cancel; ring).
      apply Rmult_lt_compat_r; lra. }
    assert (Hv_lo : bpow (d1 + e1 - (d2 + e2) - 1) < v).
    { pose proof (Zdigits2_bounds (Zpos m1) ltac:(lia)) as [Hb1 _].
      pose proof (Zdigits2_bounds (Zpos m2) ltac:(lia)) as [_ Hb2].
      pose proof (Zdigits2_pos (Zpos m1) ltac:(lia)).
      pose proof (Zdigits2_pos (Zpos m2) ltac:(lia)).
      fold d1 in Hb1. fold d2 in Hb2.
      apply IZR_le in Hb1. apply IZR_lt in Hb2.
      rewrite IZR_pow2 in Hb1, Hb2 by (unfold d1, d2 in *; lia).
      replace (d1 + e1 - (d2 + e2) - 1)%Z with ((d1 - 1 + e1) + - (d2 + e2))%Z by lia.
      rewrite bpow_add, bpow_opp.
      unfold v, Rdiv.
      assert (A : bpow (d1 - 1 + e1) <= IZR (Zpos m1) * bpow e1)
        by (rewrite bpow_add; nra).
      assert (B : IZR (Zpos m2) * bpow e2 < bpow (d2 + e2))
        by (rewrite bpow_add; nra).
      assert (B0 : 0 < IZR (Zpos m2) * bpow e2) by nra.
      pose proof (bpow_pos (d1 - 1 + e1)) as A0.
      pose proof (bpow_pos (d2 + e2)) as C0.
      apply Rlt_le_trans with (bpow (d1 - 1 + e1) * / (IZR (Zpos m2) * bpow e2)).
      - apply Rmult_lt_compat_l; [assumption|].
        apply Rinv_lt_contravar; [nra | assumption].
      - apply Rmult_le_compat_r; [|assumption].
        apply Rlt_le, Rinv_0_lt_compat. assumption. }
    assert (Hlt : bpow (d1 + e1 - (d2 + e2) - 1) < bpow (Zdigits2 q + e')) by lra.
    apply bpow_lt_inv in Hlt.
    apply Z.le_trans with (fexp prec emax (d1 + e1 - (d2 + e2))); [unfold e'; lia|].
    apply fexp_mono. lia.
Qed.

(** Division of finite floats by a non-zero float is the rounded quotient. *)
Lemma fdiv_RndS (x y : float) :
  valid x = true -> valid y = true -> finite x = true -> finite y = true ->
  is_zero y = false ->
  RndS (FV x / FV y) (SFdiv prec emax x y).
Proof.
  intros Vx Vy Fx Fy Zy.
  destruct x as [sx| | |sx mx ex]; try discriminate;
    destruct y as [sy| | |sy my ey]; try discriminate; cbn [SFdiv].
  - cbn [FV]. unfold Rdiv. rewrite Rmult_0_l. apply RndS_zero.
  - pose proof (SFdiv_core_binary_spec mx my ex ey) as HS.
    destruct (SFdiv_core_binary prec emax (Zpos mx) ex (Zpos my) ey) as [[q e'] l].
    destruct HS as (Hq & HL & He).
    pose proof (binary_round_aux_Rnd (xorb sx sy) q e' l _ Hq HL He) as HR.
    pose proof (IZR_pos mx). pose proof (IZR_pos my).
    pose proof (bpow_pos ex). pose proof (bpow_pos ey).
    assert (HA : 0 < IZR (Zpos mx) * bpow ex) by (apply Rmult_lt_0_compat; assumption).
    assert (HB : 0 < IZR (Zpos my) * bpow ey) by (apply Rmult_lt_0_compat; assumption).
    revert HR. cbn [FV].
    generalize (IZR (Zpos mx) * bpow ex) (IZR (Zpos my) * bpow ey) HA HB.
    intros a b Ha Hb HR.
    assert (Hab : 0 < a / b).
    { apply Rmult_lt_0_compat; [assumption|]. apply Rinv_0_lt_compat. assumption. }
    destruct sx, sy; cbn [xorb] in *.
    + left. replace (- a / - b) with (a / b) by (field; lra). split; [lra | exact HR].
    + right. left. replace (- (- a / b)) with (a / b) by (field; lra).
      split; [|exact HR]. replace (- a / b) with (- (a / b)) by (field; lra). lra.
    + right. left. replace (- (a / - b)) with (a / b) by (field; lra).
      split; [|exact HR]. replace (a / - b) with (- (a / b)) by (field; lra). lra.
    + left. split; [lra | exact HR].
Qed.

End Division.

Section UnitInterval.

Import FloatSem.
Local Open Scope R_scope.

Lemma FV_f1 : FV f1 = 1.
Proof.
  unfold f1. cbn [FV]. change (Zpos 4503599627370496) with (2 ^ 52)%Z.
  rewrite IZR_pow2 by lia. apply bpow_cancel.
Qed.

Lemma FV_f0 : FV f0 = 0.
Proof. reflexivity. Qed.

Lemma valid_f1 : valid f1 = true.
Proof. reflexivity. Qed.

Lemma valid_f0 : valid f0 = true.
Proof. reflexivity. Qed.

(** Comparison of a finite float with an int is that of the values. *)
Lemma float_ge_int_spec (x : float) (n : Z) :
  finite x = true -> (float_ge_int x n = true <-> IZR n <= FV x).
Proof.
  intros F. unfold float_ge_int, compare_float_int.
  destruct x as [s| | |s m e]; try discriminate.
  - cbn [FV]. change 0 with (IZR 0).
    destruct (Z.compare_spec 0 n) as [H|H|H]; split; intros H';
      try reflexivity; try discriminate;
      try (apply IZR_le; lia); apply le_IZR in H'; lia.
  - assert (HV : FV (S754_finite s m e) = IZR (cond_Zopp s (Zpos m)) * bpow e).
    { destruct s; cbn [FV cond_Zopp]; [rewrite opp_IZR; ring | reflexivity]. }
    rewrite HV. generalize (cond_Zopp s (Zpos m)). intros v.
    pose proof (bpow_pos e) as Pe.
    destruct (Z.leb_spec 0 e) as [He|He].
    + rewrite <- IZR_pow2, <- mult_IZR by assumption.
      destruct (Z.compare_spec (v * 2 ^ e) n) as [H|H|H]; split; intros H';
        try reflexivity; try discriminate;
        try (apply IZR_le; lia); apply le_IZR in H'; lia.
    + assert (Hn : IZR (n * 2 ^ (- e)) * bpow e = IZR n).
      { rewrite mult_IZR, IZR_pow2, Rmult_assoc by lia.
        rewrite (Rmult_comm (bpow (- e))), bpow_cancel. ring. }
      rewrite <- Hn.
      destruct (Z.compare_spec v (n * 2 ^ (- e))) as [H|H|H]; split; intros H';
        try reflexivity; try discriminate;
        try (apply Rmult_le_compat_r; [lra | apply IZR_le; lia]);
        apply Rmult_le_reg_r in H'; try assumption; apply le_IZR in H'; lia.
Qed.

Lemma Rnd_f1 (w : R) : 1 <= w <= 1 + bpow (-53) -> Rnd false w f1.
Proof.
  intros Hw. exists (-52)%Z, (2 ^ 52)%Z.
  assert (H52 : bpow 52 * bpow (-53) = / 2).
  { rewrite <- bpow_add. change (52 + -53)%Z with (-1)%Z. apply bpow_m1. }
  pose proof (bpow_pos 52) as P52.
  split; [|split; [split|reflexivity]].
  - right. split; [lia|]. change (-52 + 52)%Z with 0%Z. change (-52 + 53)%Z with 1%Z.
    rewrite bpow_0, bpow_1. pose proof (bpow_pos (-53)).
    assert (Hlt : bpow (-53) < bpow 0) by (apply bpow_lt; lia).
    rewrite bpow_0 in Hlt. lra.
  - change (- -52)%Z with 52%Z. rewrite IZR_pow2 by lia. nra.
  - intros _. reflexivity.
Qed.

(** A number not above [1 + 2^-53] rounds to at most 1. *)
Lemma round_le_one (w : R) (r : float) :
  RndS w r -> w <= 1 + bpow (-53) -> XV r <= 1.
Proof.
  intros H Hw. destruct (Rle_lt_dec w 1) as [Hle|Hgt].
  - assert (Hle' : w <= FV f1) by (rewrite FV_f1; exact Hle).
    pose proof (RndS_mono w (FV f1) r f1 Hle' H
                  (RndS_exact f1 valid_f1 eq_refl)) as Hm.
    rewrite (XV_finite f1 eq_refl), FV_f1 in Hm. exact Hm.
  - destruct H as [[_ H]|[[C _]|[C _]]]; try lra.
    rewrite (Rnd_unique false w r f1 H (Rnd_f1 w ltac:(lra))).
    rewrite (XV_finite f1 eq_refl), FV_f1. lra.
Qed.

(** Below 1 the rounding error is at most [2^-54]. *)
Lemma round_error_below_one (v : R) (f : float) :
  0 <= v <= 1 -> RndS v f -> XV f <= v + bpow (-54).
Proof.
  intros Hv H. pose proof (bpow_pos (-54)) as P54.
  destruct (Req_dec v 1) as [->|Hne].
  - pose proof (bpow_pos (-53)) as P53.
    assert (H1 : 1 <= 1 + bpow (-53)) by lra.
    pose proof (round_le_one 1 f H H1). lra.
  - destruct H as [[Hp H]|[[C _]|[-> [s ->]]]]; try lra; [|cbn [XV FV]; lra].
    destruct (Rnd_XV v f ltac:(lra) H) as (E & N & HB & [HN _] & ->).
    pose proof (bpow_pos E) as PE. pose proof (bpow_pos (- E)) as PnE.
    assert (HE : (E <= -53)%Z).
    { destruct HB as [[-> _]|[_ [HL _]]]; [lia|].
      assert (Hlt : bpow (E + 52) < bpow 0) by (rewrite bpow_0; lra).
      apply bpow_lt_inv in Hlt. lia. }
    apply Rle_trans with (IZR N * bpow E); [apply Rmin_l|].
    assert (Hc : bpow E * bpow (- E) = 1) by apply bpow_cancel.
    assert (Hh : / 2 * bpow E <= bpow (-54)).
    { rewrite <- bpow_m1, <- bpow_add. apply bpow_le. lia. }
    assert (IZR N * bpow E <= (v * bpow (- E) + / 2) * bpow E) by nra.
    assert ((v * bpow (- E) + / 2) * bpow E = v + / 2 * bpow E).
    { rewrite Rmult_plus_distr_r, Rmult_assoc, (Rmult_comm (bpow (- E))), Hc. ring. }
    lra.
Qed.

(** The interpolation of [update_position] stays in the unit interval. *)
Lemma lerp_in_unit (s t p : float) :
  valid s = true -> finite s = true -> 0 <= FV s <= 1 ->
  valid t = true -> finite t = true -> 0 <= FV t <= 1 ->
  valid p = true -> finite p = true -> 0 <= FV p <= 1 ->
  let r := fadd s (fmul (fsub t s) p) in
  valid r = true /\ finite r = true /\ 0 <= FV r <= 1.
Proof.
  intros Vs Fs Hs Vt Ft Ht Vp Fp Hp r.
  pose proof (fsub_RndS t s Vt Vs Ft Fs) as Hx.
  set (x := fsub t s) in *.
  assert (Vm1 : valid (SFopp f1) = true) by reflexivity.
  assert (FVm1 : FV (SFopp f1) = -1).
  { rewrite <- (XV_finite (SFopp f1) eq_refl), XV_opp, (XV_finite f1 eq_refl), FV_f1.
    reflexivity. }
  assert (Bts : FV (SFopp f1) <= FV t - FV s <= FV f1) by (rewrite FVm1, FV_f1; lra).
  destruct (RndS_between _ x (SFopp f1) f1 Hx Vm1 eq_refl valid_f1 eq_refl Bts)
    as (Vx & Fx & Bx).
  rewrite FVm1, FV_f1 in Bx.
  pose proof (fmul_RndS x p Vx Vp Fx Fp) as Hy.
  set (y := fmul x p) in *.
  pose proof (bpow_pos (-54)) as P54.
  assert (H5453 : bpow (-54) <= bpow (-53)) by (apply bpow_le; lia).
  destruct (Rle_lt_dec (FV s) (FV t)) as [Hst|Hts].
  - (* moving up *)
    assert (Bts0 : FV f0 <= FV t - FV s <= FV f1) by (rewrite FV_f0, FV_f1; lra).
    destruct (RndS_between _ x f0 f1 Hx valid_f0 eq_refl valid_f1 eq_refl Bts0)
      as (_ & _ & Bx0).
    rewrite FV_f0 in Bx0.
    assert (Hxu : FV x <= 1 - FV s + bpow (-54)).
    { pose proof (fsub_RndS f1 s valid_f1 Vs eq_refl Fs) as Hu.
      rewrite FV_f1 in Hu.
      assert (Hle : FV t - FV s <= 1 - FV s) by lra.
      pose proof (RndS_mono _ _ _ _ Hle Hx Hu) as Hm.
      assert (H01 : 0 <= 1 - FV s <= 1) by lra.
      pose proof (round_error_below_one _ _ H01 Hu) as He.
      rewrite (XV_finite x Fx) in Hm. lra. }
    assert (Bxp : FV f0 <= FV x * FV p <= FV x) by (rewrite FV_f0; nra).
    destruct (RndS_between _ y f0 x Hy valid_f0 eq_refl Vx Fx Bxp) as (Vy & Fy & By).
    rewrite FV_f0 in By.
    pose proof (fadd_RndS s y Vs Vy Fs Fy) as Hr. fold r in Hr.
    destruct (RndS_valid _ _ Hr) as [Vr Nr].
    assert (Hsy : FV s <= FV s + FV y) by lra.
    pose proof (RndS_mono _ _ _ _ Hsy (RndS_exact s Vs Fs) Hr) as Hlo.
    rewrite (XV_finite s Fs) in Hlo.
    assert (Hw : FV s + FV y <= 1 + bpow (-53)) by lra.
    pose proof (round_le_one _ _ Hr Hw) as Hhi.
    assert (B1024 : 1 < bpow 1024).
    { rewrite <- bpow_0. apply bpow_lt. lia. }
    assert (Fr : finite r = true) by (apply finite_of_bounds; [assumption | lra]).
    rewrite (XV_finite r Fr) in Hlo, Hhi. repeat split; auto; lra.
  - (* moving down *)
    assert (Vos : valid (SFopp s) = true) by (rewrite valid_opp; assumption).
    assert (Fos : finite (SFopp s) = true) by (destruct s; try discriminate; reflexivity).
    assert (FVos : FV (SFopp s) = - FV s).
    { rewrite <- (XV_finite _ Fos), XV_opp, (XV_finite _ Fs). reflexivity. }
    assert (Bts0 : FV (SFopp s) <= FV t - FV s <= FV f0) by (rewrite FVos, FV_f0; lra).
    destruct (RndS_between _ x (SFopp s) f0 Hx Vos Fos valid_f0 eq_refl Bts0)
      as (_ & _ & Bx0).
    rewrite FVos, FV_f0 in Bx0.
    assert (Bxp : FV x <= FV x * FV p <= FV f0) by (rewrite FV_f0; nra).
    destruct (RndS_between _ y x f0 Hy Vx Fx valid_f0 eq_refl Bxp) as (Vy & Fy & By).
    rewrite FV_f0 in By.
    pose proof (fadd_RndS s y Vs Vy Fs Fy) as Hr. fold r in Hr.
    assert (Bsy : FV f0 <= FV s + FV y <= FV s) by (rewrite FV_f0; lra).
    destruct (RndS_between _ r f0 s Hr valid_f0 eq_refl Vs Fs Bsy) as (Vr & Fr & Br).
    rewrite FV_f0 in Br. repeat split; auto; lra.
Qed.

End UnitInterval.

Section MovementFacts.

Import FloatSem SimSpec HandySimulator.
Local Open Scope R_scope.

Lemma flt_fle (a b : float) : flt a b = true -> fle a b = true.
Proof.
  unfold flt, fle, SFltb, SFleb. destruct (SFcompare a b) as [[| |]|]; auto.
Qed.

(** The clamped position passes the test [0.0 <= x <= 1.0], whatever the
    argument (infinities and NaN included). *)
Lemma clamp_in_unit (position : float) : Decoder.in_unit (clamp position) = true.
Proof.
  unfold clamp, Py.min, Py.max, Decoder.in_unit.
  destruct (flt position f1) eqn:E1.
  - destruct (flt f0 position) eqn:E2.
    + rewrite (flt_fle _ _ E1), (flt_fle _ _ E2). reflexivity.
    + reflexivity.
  - reflexivity.
Qed.

Lemma unit_ok_f0 : unit_ok f0.
Proof. repeat split; try reflexivity; cbn [FV f0]; lra. Qed.

Lemma unit_ok_f1 : unit_ok f1.
Proof. repeat split; try reflexivity; rewrite FV_f1; lra. Qed.

Lemma flt_not_nan (a b : float) : flt a b = true -> is_nan a = false /\ is_nan b = false.
Proof.
  unfold flt, SFltb. destruct a, b; cbn [SFcompare is_nan]; auto; discriminate.
Qed.

Lemma bpow_1024_gt_1 : 1 < bpow 1024.
Proof. rewrite <- bpow_0. apply bpow_lt. lia. Qed.

Lemma clamp_unit_ok (position : float) :
  valid position = true -> unit_ok (clamp position).
Proof.
  intros V. unfold clamp, Py.min, Py.max.
  destruct (flt position f1) eqn:E1; [|exact unit_ok_f1].
  destruct (flt f0 position) eqn:E2; [|exact unit_ok_f0].
  destruct (flt_not_nan _ _ E1) as [N _].
  apply flt_XV in E1; auto. apply flt_XV in E2; auto.
  rewrite (XV_finite f1 eq_refl), FV_f1 in E1.
  rewrite (XV_finite f0 eq_refl), FV_f0 in E2.
  pose proof bpow_1024_gt_1.
  assert (F : finite position = true) by (apply finite_of_bounds; [assumption | lra]).
  rewrite (XV_finite _ F) in E1, E2. repeat split; auto; lra.
Qed.

(** On numbers the clamp is the real clamp to the unit interval. *)
Lemma clamp_value (position : float) :
  valid position = true -> is_nan position = false ->
  FV (clamp position) = Rmax 0 (Rmin 1 (XV position)).
Proof.
  intros V N. unfold clamp, Py.min, Py.max.
  pose proof (flt_XV position f1 V valid_f1 N eq_refl) as H1.
  rewrite (XV_finite f1 eq_refl), FV_f1 in H1.
  destruct (flt position f1) eqn:E1.
  - assert (L1 : XV position < 1) by (apply H1; exact E1).
    rewrite (Rmin_right 1 (XV position)) by lra.
    pose proof (flt_XV f0 position valid_f0 V eq_refl N) as H0.
    rewrite (XV_finite f0 eq_refl), FV_f0 in H0.
    destruct (flt f0 position) eqn:E2.
    + assert (L0 : 0 < XV position) by (apply H0; exact E2).
      rewrite Rmax_right by lra.
      pose proof bpow_1024_gt_1.
      symmetry. apply XV_finite. apply finite_of_bounds; [assumption | lra].
    + assert (L0 : ~ 0 < XV position)
        by (intros C; apply H0 in C; unfold flt in E2; congruence).
      rewrite Rmax_left by lra. reflexivity.
  - assert (L1 : ~ XV position < 1)
      by (intros C; apply H1 in C; unfold flt in E1; congruence).
    rewrite (Rmin_left 1 (XV position)) by lra.
    rewrite Rmax_right by lra. apply FV_f1.
Qed.

Lemma unit_ok_in_unit (f : float) : unit_ok f -> Decoder.in_unit f = true.
Proof.
  intros (V & F & H). unfold Decoder.in_unit.
  assert (N : is_nan f = false) by (destruct f; try discriminate; reflexivity).
  apply andb_true_iff. split.
  - apply fle_XV; auto. rewrite (XV_finite f0 eq_refl), (XV_finite f F), FV_f0. lra.
  - apply fle_XV; auto. rewrite (XV_finite f1 eq_refl), (XV_finite f F), FV_f1. lra.
Qed.

Lemma valid_max_float : valid max_float = true.
Proof. reflexivity. Qed.

Lemma FV_max_float : FV max_float = IZR max_double.
Proof.
  unfold max_float, max_double. cbn [FV].
  rewrite <- IZR_pow2, <- mult_IZR by lia. f_equal.
Qed.

Lemma finite_not_nan (f : float) : finite f = true -> is_nan f = false.
Proof. destruct f; try discriminate; reflexivity. Qed.

(** An int between two finite floats converts, to a float between them. *)
Lemma float_of_int_between (n : Z) (lo hi : float) :
  valid lo = true -> finite lo = true -> valid hi = true -> finite hi = true ->
  FV lo <= IZR n <= FV hi ->
  exists d, float_of_int n = Ok d /\ valid d = true /\ finite d = true /\
            FV lo <= FV d <= FV hi.
Proof.
  intros Vl Fl Vh Fh B. unfold float_of_int.
  pose proof (binary_normalize_RndS n 0 false) as HR.
  rewrite bpow_0, Rmult_1_r in HR.
  destruct (RndS_between _ _ lo hi HR Vl Fl Vh Fh B) as (V & F & H).
  destruct (binary_normalize prec emax n 0 false) as [s|s| |s m e]; try discriminate;
    eexists; (split; [reflexivity|]); auto.
Qed.

(** Every int from 10 up to the largest double converts to a float that is
    at least 10. *)
Lemma float_of_int_duration (n : Z) :
  (10 <= n <= max_double)%Z ->
  exists d, float_of_int n = Ok d /\ valid d = true /\ finite d = true /\ 10 <= FV d.
Proof.
  intros Hn.
  assert (V10 : valid (S754_finite false 5629499534213120 (-49)) = true) by reflexivity.
  assert (F10 : FV (S754_finite false 5629499534213120 (-49)) = 10).
  { cbn [FV]. change (Zpos 5629499534213120) with (10 * 2 ^ 49)%Z.
    rewrite mult_IZR, IZR_pow2, Rmult_assoc, bpow_cancel by lia. ring. }
  destruct (float_of_int_between n (S754_finite false 5629499534213120 (-49)) max_float
              V10 eq_refl valid_max_float eq_refl) as (d & Hd & V & F & B).
  - rewrite F10, FV_max_float. split; apply IZR_le; lia.
  - exists d. rewrite F10 in B. repeat split; auto; lra.
Qed.

Lemma is_zero_FV (f : float) :
  valid f = true -> finite f = true -> FV f <> 0 -> is_zero f = false.
Proof.
  intros V F H. destruct f; try discriminate; [|reflexivity].
  cbn [FV] in H. lra.
Qed.

(** [duration_ms / 1000.0] is never zero for a duration of at least 10. *)
Lemma secs_nonzero (d : float) :
  valid d = true -> finite d = true -> 10 <= FV d ->
  is_zero (SFdiv prec emax d f1000) = false.
Proof.
  intros V F H.
  assert (V1000 : valid f1000 = true) by reflexivity.
  assert (F1000 : FV f1000 = 1000).
  { unfold f1000. cbn [FV]. change (Zpos 8796093022208000) with (1000 * 2 ^ 43)%Z.
    rewrite mult_IZR, IZR_pow2, Rmult_assoc, bpow_cancel by lia. ring. }
  pose proof (fdiv_RndS d f1000 V V1000 F eq_refl eq_refl) as HR.
  rewrite F1000 in HR.
  set (lo := S754_finite false 4503599627370496 (-59)).
  assert (Vlo : valid lo = true) by reflexivity.
  assert (Flo : FV lo = / 128).
  { unfold lo. cbn [FV]. change (Zpos 4503599627370496) with (2 ^ 52)%Z.
    rewrite IZR_pow2, <- bpow_add by lia. change (52 + -59)%Z with (-7)%Z.
    unfold bpow. simpl. f_equal. lra. }
  assert (Hle : FV lo <= FV d / 1000) by (rewrite Flo; lra).
  pose proof (RndS_mono _ _ _ _ Hle (RndS_exact lo Vlo eq_refl) HR) as Hm.
  rewrite (XV_finite lo eq_refl), Flo in Hm.
  destruct (SFdiv prec emax d f1000); try reflexivity.
  cbn [XV FV] in Hm. lra.
Qed.

(** [start_movement] returns, with the state [started] describes, whenever
    the floored duration converts to a float. *)
Lemma start_movement_ok (self : t) (position : float) (duration_ms : Z) (now : float) :
  (duration_ms <= max_double)%Z ->
  exists speed,
    start_movement self position duration_ms now =
    Ok (started self position duration_ms now speed).
Proof.
  intros Hd. unfold start_movement. fold (clamp position).
  destruct (flt f0_001 (fabs (fsub (clamp position) (current_position self)))).
  - destruct (float_of_int_duration (Z.max 10 duration_ms)) as (d & Hf & V & F & H10).
    { unfold max_double in *. lia. }
    rewrite Hf. cbn [bind]. unfold truediv at 1.
    change (is_zero f1000) with false. cbn [bind].
    unfold truediv. rewrite (secs_nonzero d V F H10). cbn [bind].
    eexists. reflexivity.
  - cbn [bind]. eexists. reflexivity.
Qed.

End MovementFacts.

Section TickFacts.

Import FloatSem SimSpec HandySimulator.
Local Open Scope R_scope.

(** With a clock that did not run backward the elapsed time is a
    non-negative number, possibly infinite. *)
Lemma elapsed_nonneg (now start : float) :
  clock_ok now -> clock_ok start -> FV start <= FV now ->
  valid (fsub now start) = true /\ is_nan (fsub now start) = false /\
  0 <= XV (fsub now start).
Proof.
  intros [Vn Fn] [Vs Fs] H.
  pose proof (fsub_RndS now start Vn Vs Fn Fs) as HR.
  destruct (RndS_valid _ _ HR) as [V N].
  destruct (RndS_sign _ _ HR) as [Hs _].
  repeat split; auto. apply Hs. lra.
Qed.

(** While the movement is under way the progress is a number in [0, 1]. *)
Lemma progress_in_unit (elapsed d : float) (duration_ms : Z) :
  valid elapsed = true -> is_nan elapsed = false -> 0 <= XV elapsed ->
  float_ge_int elapsed duration_ms = false ->
  float_of_int duration_ms = Ok d ->
  is_zero d = false /\ unit_ok (SFdiv prec emax elapsed d).
Proof.
  intros V N H0 Hge Hd.
  assert (F : finite elapsed = true).
  { destruct elapsed as [s|[]| |s m e]; try reflexivity; try discriminate.
    cbn [XV] in H0. pose proof (bpow_pos 1024). lra. }
  rewrite (XV_finite _ F) in H0.
  assert (Hlt : FV elapsed < IZR duration_ms).
  { destruct (Rlt_le_dec (FV elapsed) (IZR duration_ms)) as [H|H]; [assumption|].
    apply (float_ge_int_spec elapsed duration_ms F) in H. congruence. }
  destruct (float_of_int_RndS _ _ Hd) as [HR Fd].
  destruct (RndS_valid _ _ HR) as [Vd _].
  assert (H1 : (1 <= duration_ms)%Z).
  { assert (Hp : IZR 0 < IZR duration_ms) by lra. apply lt_IZR in Hp. lia. }
  assert (Hle1 : FV f1 <= IZR duration_ms) by (rewrite FV_f1; apply IZR_le; lia).
  pose proof (RndS_mono _ _ _ _ Hle1 (RndS_exact f1 valid_f1 eq_refl) HR) as Hd1.
  rewrite (XV_finite f1 eq_refl), FV_f1, (XV_finite d Fd) in Hd1.
  assert (Hle : FV elapsed <= IZR duration_ms) by lra.
  pose proof (RndS_mono _ _ _ _ Hle (RndS_exact elapsed V F) HR) as Hed.
  rewrite (XV_finite elapsed F), (XV_finite d Fd) in Hed.
  assert (Zd : is_zero d = false) by (apply is_zero_FV; auto; lra).
  split; [assumption|].
  pose proof (fdiv_RndS elapsed d V Vd F Fd Zd) as HP.
  assert (B : FV f0 <= FV elapsed / FV d <= FV f1).
  { rewrite FV_f0, FV_f1.
    assert (Pd : 0 < / FV d) by (apply Rinv_0_lt_compat; lra).
    split.
    - apply Rmult_le_pos; lra.
    - apply Rmult_le_reg_r with (FV d); [lra|].
      unfold Rdiv. rewrite Rmult_assoc, Rinv_l by lra. lra. }
  destruct (RndS_between _ _ f0 f1 HP valid_f0 eq_refl valid_f1 eq_refl B)
    as (Vp & Fp & Bp).
  rewrite FV_f0, FV_f1 in Bp. repeat split; auto; lra.
Qed.

Lemma update_position_idle (self : t) (now : float) :
  current_movement self = None -> update_position self now = Ok self.
Proof. intros H. unfold update_position. rewrite H. reflexivity. Qed.

Lemma update_position_arrive (self : t) (m : Movement.t) (now : float) :
  current_movement self = Some m -> Movement.is_active m = true ->
  float_ge_int (fsub now (Movement.start_time_ms m)) (Movement.duration_ms m) = true ->
  update_position self now = Ok (arrived self m).
Proof.
  intros H A G. unfold update_position. rewrite H, A, G. reflexivity.
Qed.

Lemma update_position_move (self : t) (m : Movement.t) (now d : float) :
  current_movement self = Some m -> Movement.is_active m = true ->
  float_ge_int (fsub now (Movement.start_time_ms m)) (Movement.duration_ms m) = false ->
  float_of_int (Movement.duration_ms m) = Ok d -> is_zero d = false ->
  update_position self now =
  Ok (moved self (lerp m (SFdiv prec emax (fsub now (Movement.start_time_ms m)) d))).
Proof.
  intros H A G D Z. unfold update_position, moved, lerp. rewrite H, A, G, D.
  cbn [bind]. unfold truediv. rewrite Z. reflexivity.
Qed.

Lemma ticks_idle (times : list float) (self : t) :
  current_movement self = None -> ticks self times = Ok self.
Proof.
  intros H. induction times as [|now times IH]; cbn [ticks]; [reflexivity|].
  rewrite (update_position_idle self now H). cbn [bind]. exact IH.
Qed.

Lemma fle_FV (a b : float) :
  clock_ok a -> clock_ok b -> (fle a b = true <-> FV a <= FV b).
Proof.
  intros [Va Fa] [Vb Fb]. unfold fle.
  rewrite (fle_XV a b Va Vb (finite_not_nan a Fa) (finite_not_nan b Fb)).
  rewrite (XV_finite a Fa), (XV_finite b Fb). reflexivity.
Qed.

(** The invariant only looks at the clock to bound the start time. *)
Lemma Inv_later (last now : float) (self : t) :
  FV last <= FV now -> Inv last self -> Inv now self.
Proof.
  intros H (I1 & I2 & I3). repeat split; try apply I1; try apply I2.
  destruct (current_movement self) as [m|]; [|exact I3].
  destruct I3 as (A & B & C & D). repeat split; try apply B; try apply C; auto. lra.
Qed.

(** Every operation keeps the invariant. *)
Lemma Inv_step (last : float) (self : t) (o : op) :
  Inv last self -> clock_ok last -> op_ok o -> fle last (op_time o) = true ->
  Inv (op_time o) (apply_op self o).
Proof.
  intros HI CL [CO HO] Hle.
  apply (fle_FV last (op_time o) CL CO) in Hle.
  pose proof (Inv_later _ _ _ Hle HI) as HI'.
  unfold apply_op. destruct o as [position duration_ms now|now]; cbn [run_op op_time] in *.
  - (* start_movement *)
    unfold start_movement. fold (clamp position).
    match goal with
    | |- context [bind ?c _] => destruct c as [speed|e]
    end; cbn [bind]; [|exact HI'].
    destruct HI as (I1 & I2 & _).
    pose proof (clamp_unit_ok position HO) as HC.
    unfold Inv. cbn [current_position target_position current_movement
                     Movement.target_position Movement.start_position
                     Movement.start_time_ms].
    repeat split; try apply I1; try apply HC; try apply CO. lra.
  - (* update_position *)
    unfold update_position.
    destruct (current_movement self) as [m|] eqn:Hm; [|exact HI'].
    destruct (Movement.is_active m); [|exact HI'].
    destruct HI' as (I1 & I2 & I3). rewrite Hm in I3.
    destruct I3 as (Ht & Hs & Hc & Hst).
    destruct (elapsed_nonneg now (Movement.start_time_ms m) CO Hc Hst) as (Ve & Ne & He).
    destruct (float_ge_int (fsub now (Movement.start_time_ms m)) (Movement.duration_ms m))
      eqn:Hge.
    + unfold Inv. cbn [current_position target_position current_movement].
      rewrite Ht. repeat split; try apply I2.
    + destruct (float_of_int (Movement.duration_ms m)) as [d|e] eqn:Hd; cbn [bind].
      2:{ unfold Inv. rewrite Hm. repeat split; try apply I1; try apply I2;
            try apply Hs; try apply Hc; auto. }
      destruct (progress_in_unit _ d _ Ve Ne He Hge Hd) as [Zd (Vp & Fp & Bp)].
      unfold truediv. rewrite Zd. cbn [bind].
      assert (I2' : unit_ok (Movement.target_position m)) by (rewrite Ht; exact I2).
      destruct Hs as (Vs & Fs & Bs). destruct I2' as (Vt & Ft & Bt).
      pose proof (lerp_in_unit _ _ _ Vs Fs Bs Vt Ft Bt Vp Fp Bp) as HL.
      unfold Inv. cbn [current_position target_position current_movement].
      repeat split; try apply HL; try apply I2; try apply Hc; try apply Bs; auto.
Qed.

Lemma Inv_run (ops : list op) :
  forall (last : float) (self : t),
    Inv last self -> clock_ok last -> Forall op_ok ops -> clock_from last ops ->
    exists last', Inv last' (run_ops self ops).
Proof.
  induction ops as [|o ops IH]; intros last self HI CL HF HC.
  - exists last. exact HI.
  - cbn [run_ops fold_left]. inversion HF as [|? ? Ho HF']. subst.
    destruct HC as [Hle HC].
    apply (IH (op_time o)); auto.
    + apply (Inv_step last); auto.
    + apply Ho.
Qed.

Lemma Inv_init (last : float) : Inv last init.
Proof.
  assert (H : unit_ok f0_5).
  { repeat split; try reflexivity; unfold f0_5; cbn [FV];
      change (Zpos 4503599627370496) with (2 ^ 52)%Z;
      rewrite IZR_pow2, <- bpow_add by lia; change (52 + -53)%Z with (-1)%Z;
      rewrite bpow_m1; lra. }
  unfold Inv, init. cbn [current_position target_position current_movement].
  repeat split; try apply H.
Qed.

Lemma fle_refl_clock (now : float) : clock_ok now -> fle now now = true.
Proof. intros C. apply (fle_FV now now C C). lra. Qed.

End TickFacts.

Section MovementTheorems.

Import FloatSem SimSpec HandySimulator.
Local Open Scope R_scope.

Lemma duration_positive (elapsed : float) (duration_ms : Z) :
  valid elapsed = true -> is_nan elapsed = false -> 0 <= XV elapsed ->
  float_ge_int elapsed duration_ms = false -> (1 <= duration_ms)%Z.
Proof.
  intros V N H0 Hge.
  assert (F : finite elapsed = true).
  { destruct elapsed as [s|[]| |s m e]; try reflexivity; try discriminate.
    cbn [XV] in H0. pose proof (bpow_pos 1024). lra. }
  rewrite (XV_finite _ F) in H0.
  destruct (Z.le_gt_cases 1 duration_ms) as [H|H]; [assumption|exfalso].
  assert (Hle : IZR duration_ms <= FV elapsed).
  { apply Rle_trans with 0; [|assumption]. apply (IZR_le _ 0). lia. }
  apply (float_ge_int_spec elapsed duration_ms F) in Hle. congruence.
Qed.

(** C3, as the code has it.  With an active movement, a tick whose elapsed
    time [now - start_time] is at least [duration_ms] sets the position to
    the movement's target exactly, zeroes the speed and clears the movement;
    otherwise, the clock not having run backward and [duration_ms] being at
    most the largest double, it sets the position to
    [start + (target - start) * (elapsed / duration_ms)] in binary64
    arithmetic and keeps the rest.  Without a movement any number of ticks
    leave the state as it is. *)
Theorem C3_tick_snaps_or_interpolates :
  (forall (self : t) (m : Movement.t) (now : float),
     current_movement self = Some m -> Movement.is_active m = true ->
     float_ge_int (fsub now (Movement.start_time_ms m)) (Movement.duration_ms m) = true ->
     update_position self now = Ok (arrived self m))
  /\
  (forall (self : t) (m : Movement.t) (now : float),
     current_movement self = Some m -> Movement.is_active m = true ->
     clock_ok now -> clock_ok (Movement.start_time_ms m) ->
     fle (Movement.start_time_ms m) now = true ->
     (Movement.duration_ms m <= max_double)%Z ->
     float_ge_int (fsub now (Movement.start_time_ms m)) (Movement.duration_ms m) = false ->
     exists d,
       float_of_int (Movement.duration_ms m) = Ok d /\
       update_position self now =
       Ok (moved self
             (lerp m (SFdiv prec emax (fsub now (Movement.start_time_ms m)) d))))
  /\
  (forall (self : t) (times : list float),
     current_movement self = None -> ticks self times = Ok self).
Proof.
  split; [|split].
  - intros self m now Hm Ha Hge. apply update_position_arrive; assumption.
  - intros self m now Hm Ha Cn Cs Hle Hmax Hge.
    apply (fle_FV _ _ Cs Cn) in Hle.
    destruct (elapsed_nonneg now _ Cn Cs Hle) as (Ve & Ne & He).
    pose proof (duration_positive _ _ Ve Ne He Hge) as H1.
    destruct (float_of_int_between (Movement.duration_ms m) f1 max_float
                valid_f1 eq_refl valid_max_float eq_refl) as (d & Hd & _).
    { rewrite FV_f1, FV_max_float. split; apply IZR_le; lia. }
    destruct (progress_in_unit _ d _ Ve Ne He Hge Hd) as [Zd _].
    exists d. split; [assumption|].
    apply update_position_move; assumption.
  - intros self times Hm. apply ticks_idle. assumption.
Qed.

Lemma C3_witness :
  update_position state_moving f100 = Ok (arrived state_moving movement_to_one) /\
  (exists d,
     float_of_int 100 = Ok d /\
     update_position state_moving f50 =
     Ok (moved state_moving (lerp movement_to_one (SFdiv prec emax (fsub f50 f0) d)))) /\
  ticks init [f0; f50; f100] = Ok init.
Proof.
  destruct C3_tick_snaps_or_interpolates as (H1 & H2 & H3).
  split; [|split].
  - apply (H1 state_moving movement_to_one f100); reflexivity.
  - apply (H2 state_moving movement_to_one f50); try reflexivity.
    + split; reflexivity.
    + split; reflexivity.
    + unfold max_double. cbn [Movement.duration_ms movement_to_one]. lia.
  - apply (H3 init). reflexivity.
Defined.

(** C3 as stated fails: this state, reached from the initial state by
    [start_movement(0.5 + 2^-11, 2**1024)] at time 0, has an active movement;
    at [now = 1.0 >= start_time] the elapsed time is below the duration, and
    the tick raises [OverflowError] instead of setting the position. *)
Lemma C3_counterexample :
  start_movement init f_near_half (2 ^ 1024) f0 = Ok state_huge_duration /\
  fle f0 f1 = true /\
  float_ge_int (fsub f1 f0) (2 ^ 1024) = false /\
  update_position state_huge_duration f1 = Raise OverflowError.
Proof.
  repeat split; vm_compute; reflexivity.
Qed.

(** C4.  From the initial state, after any finite sequence of
    [start_movement] and tick operations on binary64 arguments with finite,
    non-decreasing clock readings, the position passes [0.0 <= x <= 1.0] and
    equals the target position whenever no movement is active. *)
Theorem C4_position_invariant (ops : list op) :
  Forall op_ok ops -> nondecreasing ops ->
  Decoder.in_unit (current_position (run_ops init ops)) = true /\
  (current_movement (run_ops init ops) = None ->
   current_position (run_ops init ops) = target_position (run_ops init ops)).
Proof.
  intros HF HN.
  assert (HI : exists last, Inv last (run_ops init ops)).
  { destruct ops as [|o ops'].
    - exists f0. apply Inv_init.
    - inversion HF as [|? ? Ho HF']. subst.
      apply (Inv_run (o :: ops') (op_time o) init).
      + apply Inv_init.
      + apply Ho.
      + assumption.
      + split; [|exact HN]. apply fle_refl_clock. apply Ho. }
  destruct HI as (last & I1 & I2 & I3). split.
  - apply unit_ok_in_unit. assumption.
  - intros Hm. rewrite Hm in I3. exact I3.
Qed.

Lemma C4_witness :
  Decoder.in_unit (current_position (run_ops init sample_run)) = true /\
  (current_movement (run_ops init sample_run) = None ->
   current_position (run_ops init sample_run) = target_position (run_ops init sample_run)).
Proof.
  apply (C4_position_invariant sample_run).
  - repeat constructor.
  - repeat split.
Defined.

(** C5, as the code has it.  For every state, with or without a movement
    under way, and every duration at most the largest double,
    [start_movement] returns; it leaves the position where it is and
    installs a new movement whose start position is that current position,
    whose target is the clamped argument, whose duration is the floored
    argument and whose start time is the current clock reading. *)
Theorem C5_start_movement_restarts_from_current (self : t) (position : float)
    (duration_ms : Z) (now : float) :
  (duration_ms <= max_double)%Z ->
  exists self',
    start_movement self position duration_ms now = Ok self' /\
    current_position self' = current_position self /\
    target_position self' = clamp position /\
    current_movement self' =
      Some {| Movement.start_position := current_position self;
              Movement.target_position := clamp position;
              Movement.duration_ms := Z.max 10 duration_ms;
              Movement.start_time_ms := now;
              Movement.is_active := true |}.
Proof.
  intros Hd. destruct (start_movement_ok self position duration_ms now Hd) as (speed & H).
  eexists. split; [exact H|]. repeat split.
Qed.

Lemma C5_witness :
  exists self',
    start_movement state_midway f0 200 f50 = Ok self' /\
    current_position self' = DecoderSpec.f0_75 /\
    target_position self' = f0 /\
    current_movement self' =
      Some {| Movement.start_position := DecoderSpec.f0_75;
              Movement.target_position := f0;
              Movement.duration_ms := 200;
              Movement.start_time_ms := f50;
              Movement.is_active := true |}.
Proof.
  apply (C5_start_movement_restarts_from_current state_midway f0 200 f50).
  unfold max_double. lia.
Defined.

(** C5 as stated fails: called on a state with a movement under way with the
    duration [2**1024], [start_movement] raises [OverflowError] and the
    movement is not replaced. *)
Lemma C5_counterexample :
  current_movement state_midway = Some movement_to_one /\
  start_movement state_midway f0 (2 ^ 1024) f50 = Raise OverflowError.
Proof.
  split; vm_compute; reflexivity.
Qed.

(** C6, as the code has it.  For every float position and every integer
    duration at most the largest double, [start_movement] returns: the
    target is the position clamped into [0, 1] (it passes
    [0.0 <= x <= 1.0], and on numbers it is the real clamp) and the duration
    is raised to at least 10; [start_movement(1.5, -10)] gives target 1.0
    and duration 10. *)
Theorem C6_start_movement_clamps (self : t) (position : float)
    (duration_ms : Z) (now : float) :
  (duration_ms <= max_double)%Z ->
  (exists speed,
     start_movement self position duration_ms now =
     Ok (started self position duration_ms now speed)) /\
  Decoder.in_unit (clamp position) = true /\
  (valid position = true -> is_nan position = false ->
   FV (clamp position) = Rmax 0 (Rmin 1 (XV position))) /\
  (10 <= Z.max 10 duration_ms)%Z /\
  ((10 <= duration_ms)%Z -> Z.max 10 duration_ms = duration_ms) /\
  clamp f1_5 = f1 /\ Z.max 10 (-10) = 10%Z.
Proof.
  intros Hd. split; [|split; [|split; [|split; [|split; [|split]]]]].
  - apply start_movement_ok. assumption.
  - apply clamp_in_unit.
  - apply clamp_value.
  - lia.
  - lia.
  - reflexivity.
  - reflexivity.
Qed.

Lemma C6_witness :
  exists speed,
    start_movement init f1_5 (-10) f0 =
    Ok {| current_position := f0_5;
          target_position := f1;
          current_movement :=
            Some {| Movement.start_position := f0_5;
                    Movement.target_position := f1;
                    Movement.duration_ms := 10;
                    Movement.start_time_ms := f0;
                    Movement.is_active := true |};
          speed_mms := speed |}.
Proof.
  apply (proj1 (C6_start_movement_clamps init f1_5 (-10) f0 ltac:(unfold max_double; lia))).
Defined.

(** C6 as stated fails: [start_movement(1.0, 2**1024)] on the initial state
    raises [OverflowError] (the distance 0.5 exceeds 0.001, so the speed is
    computed from [duration_ms / 1000.0]). *)
Lemma C6_counterexample :
  flt f0_001 (fabs (fsub (clamp f1) (current_position init))) = true /\
  float_of_int (Z.max 10 (2 ^ 1024)) = Raise OverflowError /\
  start_movement init f1 (2 ^ 1024) f0 = Raise OverflowError.
Proof.
  repeat split; vm_compute; reflexivity.
Qed.

End MovementTheorems.

Section DecoderToModel.

Import FloatSem SimSpec HandySimulator.

Example float_of_bits_special :
  float_of_bits 0x7FF0000000000000 = S754_infinity false /\
  float_of_bits 0xFFF0000000000000 = S754_infinity true /\
  float_of_bits 0x7FF8000000000000 = S754_nan /\
  float_of_bits 0x8000000000000000 = S754_zero true /\
  float_of_bits 0x0000000000000001 = S754_finite false 1 (-1074) /\
  float_of_bits 0xBFF8000000000000 = S754_finite true 6755399441055744 (-52).
Proof. repeat split; reflexivity. Qed.

(** The spec's scenario: [start_movement(0.9, 100)] while idle at 0.5. *)
Example scenario_move_to_0_9 :
  (exists speed,
     start_movement init f0_9 100 f0 = Ok (started init f0_9 100 f0 speed) /\
     flt f0 speed = true) /\
  (let mid := current_position (run_ops init (firstn 2 sample_run)) in
   flt f0_5 mid = true /\ flt mid f0_9 = true) /\
  current_position (run_ops init (firstn 3 sample_run)) = f0_9 /\
  current_movement (run_ops init (firstn 3 sample_run)) = None.
Proof.
  split; [|repeat split; reflexivity].
  eexists. split; [vm_compute; reflexivity | reflexivity].
Qed.

(** [struct.unpack] only yields binary64 values. *)
Lemma float_of_bits_valid (x : Z) : valid (float_of_bits x) = true.
Proof.
  unfold float_of_bits.
  assert (Hm : 0 <= Z.land x (2 ^ 52 - 1) < 2 ^ 52).
  { change (2 ^ 52 - 1) with (Z.ones 52). rewrite Z.land_ones by lia.
    apply Z.mod_pos_bound. lia. }
  assert (He : 0 <= Z.land (Z.shiftr x 52) 2047 < 2048).
  { change 2047 with (Z.ones 11). rewrite Z.land_ones by lia.
    apply Z.mod_pos_bound. lia. }
  destruct (Z.eqb_spec (Z.land (Z.shiftr x 52) 2047) 0) as [E0|E0].
  - destruct (Z.land x (2 ^ 52 - 1)) as [|p|p] eqn:Em; try reflexivity.
    apply valid_finite_intro; lia.
  - destruct (Z.eqb_spec (Z.land (Z.shiftr x 52) 2047) 2047) as [E1|E1].
    + destruct (Z.land x (2 ^ 52 - 1) =? 0); reflexivity.
    + destruct (Z.land x (2 ^ 52 - 1) + 2 ^ 52) as [|p|p] eqn:Em; try reflexivity.
      apply valid_finite_intro; lia.
Qed.

(** X7. [handle_message] never raises, in any state and on any payload: a
    decoded command never makes [start_movement] raise, its duration being
    at most 10000. *)
Lemma handle_message_never_raises (self : t) (data : bytes) (now : float) :
  exists self', handle_message self data now = Ok self'.
Proof.
  unfold handle_message. rewrite parse_linear_cmd_eq. cbn [bind].
  destruct (DecoderSpec.first_some (DecoderSpec.position_at data) _) as [p|];
    [|exists self; reflexivity].
  set (d := match DecoderSpec.first_some (DecoderSpec.duration_at data) _ with
            | Some d => d
            | None => 500
            end).
  assert (Hd : d <= 10000).
  { unfold d.
    destruct (DecoderSpec.first_some (DecoderSpec.duration_at data) _) as [d'|] eqn:E;
      [|lia].
    apply first_some_in in E. destruct E as (i & _ & Hi).
    apply duration_at_range in Hi. lia. }
  cbn [DecoderSpec.command Decoder.vectors start_movements
       Decoder.position Decoder.duration_ms].
  destruct (start_movement_ok self p d now) as (speed & Hs).
  - unfold max_double. lia.
  - rewrite Hs. cbn [bind]. eexists. reflexivity.
Qed.

End DecoderToModel.

(** ** The varint wire format *)

Section WireFacts.

Import Decoder DecoderSpec WireSpec.

Lemma byte_val_byte_of_Z (z : Z) : 0 <= z < 256 -> byte_val (byte_of_Z z) = z.
Proof.
  intros H. unfold byte_val, byte_of_Z.
  destruct (Byte.of_N (Z.to_N z)) as [b|] eqn:E.
  - apply Byte.to_of_N in E. rewrite E. lia.
  - apply Byte.of_N_None_iff in E. lia.
Qed.

Lemma land_low7 (g : Z) : 0 <= g < 128 -> Z.land g 127 = g /\ Z.land (g + 128) 127 = g.
Proof.
  intros H. change 127 with (Z.ones 7). rewrite !Z.land_ones by lia.
  change (2 ^ 7) with 128. split.
  - apply Z.mod_small. lia.
  - replace (g + 128) with (g + 1 * 128) by lia.
    rewrite Z.mod_add by lia. apply Z.mod_small. lia.
Qed.

Lemma land_bit7 (g : Z) : 0 <= g < 128 -> Z.land g 128 = 0 /\ Z.land (g + 128) 128 <> 0.
Proof.
  intros H. split.
  - apply Z.bits_inj'. intros n Hn. rewrite Z.land_spec, Z.bits_0.
    change 128 with (2 ^ 7). rewrite Z.pow2_bits_eqb by lia.
    destruct (Z.eqb_spec 7 n) as [<-|]; [|apply andb_false_r].
    rewrite andb_true_r. apply Z.testbit_false; [lia|].
    change (2 ^ 7) with 128. rewrite Z.div_small by lia. reflexivity.
  - intros C.
    assert (T : Z.testbit (Z.land (g + 128) 128) 7 = true).
    { rewrite Z.land_spec. change 128 with (2 ^ 7) at 2.
      rewrite Z.pow2_bits_eqb by lia. rewrite andb_true_r.
      apply Z.testbit_true; [lia|]. change (2 ^ 7) with 128.
      replace (g + 128) with (g + 1 * 128) by lia.
      rewrite Z.div_add by lia. rewrite Z.div_small by lia. reflexivity. }
    rewrite C in T. rewrite Z.bits_0 in T. discriminate.
Qed.

Lemma encode_groups_length (k : nat) (n : Z) : length (encode_groups k n) = S k.
Proof. revert n. induction k; intros n; cbn [encode_groups length]; auto. Qed.

Lemma mod_128_bounds (n : Z) : 0 <= n mod 128 < 128.
Proof. apply Z.mod_pos_bound. lia. Qed.

(** Decoding facts of an encoding followed by anything. *)
Lemma encode_groups_shape (k : nat) :
  forall (n : Z) (rest : bytes),
    continuation_run (encode_groups k n ++ rest) = k /\
    varint_bytes (encode_groups k n ++ rest) = encode_groups k n /\
    base128 (encode_groups k n) = n mod 2 ^ (7 * Z.of_nat (S k)).
Proof.
  induction k as [|k IH]; intros n rest.
  - cbn [encode_groups app continuation_run varint_bytes base128].
    pose proof (mod_128_bounds n) as B.
    rewrite byte_val_byte_of_Z by lia.
    destruct (land_bit7 _ B) as [-> _]. destruct (land_low7 _ B) as [-> _].
    cbn [Z.eqb]. repeat split. change (2 ^ (7 * Z.of_nat 1)) with 128. lia.
  - cbn [encode_groups app continuation_run varint_bytes base128].
    pose proof (mod_128_bounds n) as B.
    rewrite byte_val_byte_of_Z by lia.
    destruct (land_bit7 _ B) as [_ Hc]. destruct (land_low7 _ B) as [_ ->].
    destruct (Z.eqb_spec (Z.land (n mod 128 + 128) 128) 0) as [E|_]; [contradiction|].
    destruct (IH (n / 128) rest) as (-> & -> & H3).
    rewrite H3.
    repeat split.
    replace (7 * Z.of_nat (S (S k))) with (7 + 7 * Z.of_nat (S k)) by lia.
    rewrite Z.pow_add_r by lia. change (2 ^ 7) with 128.
    rewrite Z.rem_mul_r by lia. reflexivity.
Qed.

Lemma skipn_app_length {A : Type} (pre l : list A) : skipn (length pre) (pre ++ l) = l.
Proof. induction pre; cbn; auto. Qed.

Lemma decode_encode_groups (pre rest : bytes) (k : nat) (n : Z) :
  decode_varint (pre ++ encode_groups k n ++ rest) (length pre) =
  if (10 <=? k)%nat then Raise ValueError
  else Ok (n mod 2 ^ (7 * Z.of_nat (S k)), S k).
Proof.
  rewrite decode_varint_spec. cbv zeta. rewrite skipn_app_length.
  destruct (encode_groups_shape k n rest) as (-> & -> & ->).
  rewrite encode_groups_length. reflexivity.
Qed.

Lemma log2_groups (n : Z) :
  0 <= n -> n < 2 ^ (7 * Z.of_nat (S (Z.to_nat (Z.log2 n / 7)))).
Proof.
  intros Hn. destruct (Z.eq_dec n 0) as [->|Hz]; [reflexivity|].
  pose proof (Z.log2_spec n ltac:(lia)) as [_ H].
  pose proof (Z.log2_nonneg n) as Hl.
  eapply Z.lt_le_trans; [exact H|]. apply Z.pow_le_mono_r; [lia|].
  rewrite Nat2Z.inj_succ, Z2Nat.id by (apply Z.div_pos; lia).
  pose proof (Z.mod_pos_bound (Z.log2 n) 7 ltac:(lia)).
  pose proof (Z.div_mod (Z.log2 n) 7 ltac:(lia)). lia.
Qed.

Lemma varint_bytes_length (rest : bytes) :
  (length (varint_bytes rest) <= length rest)%nat /\
  (length (varint_bytes rest) <= S (continuation_run rest))%nat /\
  (length (varint_bytes rest) = 0%nat <-> rest = []).
Proof.
  induction rest as [|b rest IH]; cbn [varint_bytes continuation_run length].
  - repeat split; auto.
  - destruct (Z.land (byte_val b) 128 =? 0); cbn [length];
      (split; [lia|split; [lia|split; [lia|discriminate]]]).
Qed.

Lemma base128_bound (bs : bytes) : 0 <= base128 bs < 2 ^ (7 * Z.of_nat (length bs)).
Proof.
  induction bs as [|b bs IH]; cbn [base128 length].
  - change (2 ^ (7 * Z.of_nat 0)) with 1. lia.
  - pose proof (land_127_bounds (byte_val b)).
    replace (7 * Z.of_nat (S (length bs))) with (7 + 7 * Z.of_nat (length bs)) by lia.
    rewrite Z.pow_add_r by lia. change (2 ^ 7) with 128. nia.
Qed.

Lemma all_continue_shape (bs : bytes) :
  all_continue bs -> continuation_run bs = length bs /\ varint_bytes bs = bs.
Proof.
  induction 1 as [|b bs Hb _ IH]; cbn [continuation_run varint_bytes length]; [auto|].
  destruct (Z.eqb_spec (Z.land (byte_val b) 128) 0) as [E|_]; [contradiction|].
  destruct IH as [-> ->]. auto.
Qed.

End WireFacts.

Section WireTheorems.

Import Decoder DecoderSpec WireSpec.

(** X1. Round trip: a protobuf varint of a number below [2^70], placed
    anywhere in a buffer and followed by anything, decodes to that number
    and to the count of bytes of its encoding, which is at most 10. *)
Theorem decode_varint_round_trip (pre rest : bytes) (n : Z) :
  0 <= n < 2 ^ 70 ->
  decode_varint (pre ++ encode_varint n ++ rest) (length pre) =
    Ok (n, length (encode_varint n)) /\
  (length (encode_varint n) <= 10)%nat.
Proof.
  intros [H0 H]. unfold encode_varint.
  set (k := Z.to_nat (Z.log2 n / 7)).
  assert (Hk : (k < 10)%nat).
  { unfold k. destruct (Z.eq_dec n 0) as [->|Hz]; [cbn; lia|].
    assert (Z.log2 n < 70) by (apply Z.log2_lt_pow2; lia).
    pose proof (Z.log2_nonneg n).
    assert (Z.log2 n / 7 < 10) by (apply Z.div_lt_upper_bound; lia).
    pose proof (Z.div_pos (Z.log2 n) 7 ltac:(lia) ltac:(lia)). lia. }
  rewrite decode_encode_groups, encode_groups_length.
  destruct (Nat.leb_spec 10 k) as [C|_]; [lia|].
  rewrite Z.mod_small by (split; [assumption | apply log2_groups; assumption]).
  split; [reflexivity | lia].
Qed.

Lemma decode_varint_round_trip_witness :
  decode_varint (of_Z_list [0x10] ++ encode_varint 300 ++ of_Z_list [0x3F]) 1 =
    Ok (300, 2%nat).
Proof.
  apply (decode_varint_round_trip (of_Z_list [0x10]) (of_Z_list [0x3F]) 300). lia.
Defined.

(** X2. A varint that encodes a number of [2^70] or more is rejected with
    [ValueError]: the decoder stops at the tenth continuation byte. *)
Theorem decode_varint_rejects_oversize (pre rest : bytes) (n : Z) :
  2 ^ 70 <= n ->
  decode_varint (pre ++ encode_varint n ++ rest) (length pre) = Raise ValueError.
Proof.
  intros H. unfold encode_varint. rewrite decode_encode_groups.
  assert (70 <= Z.log2 n) by (apply Z.log2_le_pow2; lia).
  assert (10 <= Z.log2 n / 7) by (apply Z.div_le_lower_bound; lia).
  destruct (Nat.leb_spec 10 (Z.to_nat (Z.log2 n / 7))) as [_|C]; [reflexivity | lia].
Qed.

Lemma decode_varint_rejects_oversize_witness :
  decode_varint (encode_varint (2 ^ 70)) 0 = Raise ValueError.
Proof.
  pose proof (decode_varint_rejects_oversize [] [] (2 ^ 70) ltac:(lia)) as H.
  rewrite app_nil_r in H. exact H.
Defined.

(** X3. What [decode_varint] returns is bounded by what it consumed: the
    value is below [2^(7 * consumed)], at most 10 bytes are consumed and none
    beyond the end of the buffer; nothing is consumed exactly when the
    offset is at or past the end, and the value is then 0. *)
Theorem decode_varint_bounds (data : bytes) (offset : nat) (value : Z) (consumed : nat) :
  decode_varint data offset = Ok (value, consumed) ->
  0 <= value < 2 ^ (7 * Z.of_nat consumed) /\
  (consumed <= 10)%nat /\
  (consumed <= length data - offset)%nat /\
  (consumed = 0%nat <-> (length data <= offset)%nat).
Proof.
  rewrite decode_varint_spec. cbv zeta.
  destruct (Nat.leb_spec 10 (continuation_run (skipn offset data))) as [|Hc];
    [discriminate|].
  intros E. injection E as <- <-.
  pose proof (varint_bytes_length (skipn offset data)) as (H1 & H2 & H3).
  rewrite length_skipn in H1.
  split; [apply base128_bound|]. split; [lia|]. split; [exact H1|].
  rewrite H3. split.
  - intros E. apply (f_equal (@length byte)) in E. rewrite length_skipn in E.
    cbn in E. lia.
  - intros L. apply skipn_all2. exact L.
Qed.

Lemma decode_varint_bounds_witness :
  0 <= 250 < 2 ^ (7 * Z.of_nat 2) /\
  (2 <= 10)%nat /\
  (2 <= length payload_250_075 - 1)%nat /\
  (2%nat = 0%nat <-> (length payload_250_075 <= 1)%nat).
Proof.
  apply (decode_varint_bounds payload_250_075 1 250 2). reflexivity.
Defined.

(** X4. A varint cut off by the end of the buffer is not an error: when
    fewer than 10 bytes remain and all of them have the continuation bit
    set, [decode_varint] returns the value of their low 7-bit groups and
    their count. *)
Theorem decode_varint_truncated (data : bytes) (offset : nat) :
  all_continue (skipn offset data) -> (length data - offset < 10)%nat ->
  decode_varint data offset =
  Ok (base128 (skipn offset data), (length data - offset)%nat).
Proof.
  intros H L. rewrite decode_varint_spec. cbv zeta.
  destruct (all_continue_shape _ H) as [-> ->].
  rewrite length_skipn.
  destruct (Nat.leb_spec 10 (length data - offset)) as [C|_]; [lia | reflexivity].
Qed.

Lemma decode_varint_truncated_witness :
  decode_varint (of_Z_list [0x10; 0xFF; 0x81]) 1 = Ok (255, 2%nat).
Proof.
  apply (decode_varint_truncated (of_Z_list [0x10; 0xFF; 0x81]) 1).
  - repeat constructor; vm_compute; discriminate.
  - vm_compute. lia.
Defined.

End WireTheorems.

(** ** The position test on bit patterns *)

Section BitPatterns.

Import Decoder DecoderSpec.

Lemma byte_val_bounds (b : byte) : 0 <= byte_val b < 256.
Proof. unfold byte_val. pose proof (Byte.to_N_bounded b). lia. Qed.

Lemma le_uint_bounds (bs : bytes) : 0 <= le_uint bs < 2 ^ (8 * Z.of_nat (length bs)).
Proof.
  induction bs as [|b bs IH]; cbn [le_uint fold_right length].
  - change (2 ^ (8 * Z.of_nat 0)) with 1. lia.
  - fold (le_uint bs). pose proof (byte_val_bounds b).
    replace (8 * Z.of_nat (S (length bs))) with (8 + 8 * Z.of_nat (length bs)) by lia.
    rewrite Z.pow_add_r by lia. change (2 ^ 8) with 256. nia.
Qed.

(** The three fields of a 64-bit pattern. *)
Lemma bit_fields (x : Z) :
  0 <= x < 2 ^ 64 ->
  let q := x / 2 ^ 52 in
  0 <= q < 4096 /\
  x = q * 2 ^ 52 + x mod 2 ^ 52 /\
  Z.testbit x 63 = (2048 <=? q) /\
  Z.land (Z.shiftr x 52) 2047 = q mod 2048 /\
  Z.land x (2 ^ 52 - 1) = x mod 2 ^ 52.
Proof.
  intros H q.
  assert (Hq : 0 <= q < 4096).
  { unfold q. split; [apply Z.div_pos; lia|].
    apply Z.div_lt_upper_bound; [lia|]. change (2 ^ 52 * 4096) with (2 ^ 64). lia. }
  split; [exact Hq|]. split.
  { unfold q. pose proof (Z.div_mod x (2 ^ 52) ltac:(lia)). lia. }
  split.
  { assert (E : x / 2 ^ 63 = q / 2048).
    { unfold q. rewrite Z.div_div by lia. reflexivity. }
    destruct (Z.leb_spec 2048 q) as [L|L].
    - apply Z.testbit_true; [lia|]. rewrite E.
      assert (q / 2048 = 1) as ->; [|reflexivity].
      assert (1 <= q / 2048) by (apply Z.div_le_lower_bound; lia).
      assert (q / 2048 < 2) by (apply Z.div_lt_upper_bound; lia). lia.
    - apply Z.testbit_false; [lia|]. rewrite E.
      rewrite Z.div_small by lia. reflexivity. }
  split.
  - rewrite Z.shiftr_div_pow2 by lia. change 2047 with (Z.ones 11).
    rewrite Z.land_ones by lia. reflexivity.
  - change (2 ^ 52 - 1) with (Z.ones 52). rewrite Z.land_ones by lia. reflexivity.
Qed.

Lemma in_unit_zero (s : bool) : in_unit (S754_zero s) = true.
Proof. destruct s; reflexivity. Qed.

Lemma in_unit_negative (m : positive) (e : Z) : in_unit (S754_finite true m e) = false.
Proof. reflexivity. Qed.

Lemma in_unit_positive (m : positive) (e : Z) :
  in_unit (S754_finite false m e) = true <->
  e < -52 \/ (e = -52 /\ Zpos m <= 4503599627370496).
Proof.
  unfold in_unit, fle, SFleb, f0, f1. cbn [SFcompare andb].
  destruct (Z.compare_spec e (-52)) as [E|E|E].
  - subst e. rewrite Pos.compare_cont_spec.
    destruct (Pos.compare_spec m 4503599627370496) as [P|P|P]; cbn [Pos.switch_Eq].
    + subst m. split; [intros _; right; split; [reflexivity | apply Z.le_refl] | reflexivity].
    + split; [intros _; right; split; [reflexivity | apply Z.lt_le_incl; exact P]
             | reflexivity].
    + split; [discriminate|]. intros [H|[_ H]]; exfalso; [revert H; clear; lia|].
      apply Z.le_ngt in H. apply H. exact P.
  - split; auto.
  - split; [discriminate|]. intros [H|[H _]]; exfalso; lia.
Qed.

Lemma in_unit_float_of_bits (x : Z) :
  0 <= x < 2 ^ 64 ->
  (in_unit (float_of_bits x) = true <->
   x <= 0x3FF0000000000000 \/ x = 0x8000000000000000).
Proof.
  intros H. destruct (bit_fields x H) as (Hq & Hx & Hs & He & Hm).
  cbv zeta in *. unfold float_of_bits. cbv zeta. rewrite Hs, He, Hm.
  set (q := x / 2 ^ 52) in *. set (m := x mod 2 ^ 52) in *.
  assert (Bm : 0 <= m < 2 ^ 52) by (apply Z.mod_pos_bound; lia).
  assert (Be : 0 <= q mod 2048 < 2048) by (apply Z.mod_pos_bound; lia).
  assert (Eq : q = q mod 2048 \/ q = 2048 + q mod 2048).
  { pose proof (Z.div_mod q 2048 ltac:(lia)).
    assert (0 <= q / 2048) by (apply Z.div_pos; lia).
    assert (q / 2048 < 2) by (apply Z.div_lt_upper_bound; lia). lia. }
  set (e := q mod 2048) in *.
  change (2 ^ 52) with 4503599627370496 in *.
  destruct (Z.eqb_spec e 0) as [E0|E0].
  - destruct m as [|p|p] eqn:Em; [| |lia].
    + rewrite in_unit_zero. split; [intros _|reflexivity]. lia.
    + destruct (Z.leb_spec 2048 q) as [L|L].
      * rewrite in_unit_negative. split; [discriminate|]. lia.
      * rewrite in_unit_positive. split; [intros _; lia | intros _; lia].
  - destruct (Z.eqb_spec e 2047) as [E1|E1].
    + destruct (Z.eqb_spec m 0) as [M0|M0].
      * assert (in_unit (S754_infinity (2048 <=? q)) = false) as ->
          by (destruct (2048 <=? q); reflexivity).
        split; [discriminate|]. lia.
      * change (in_unit S754_nan) with false. split; [discriminate|]. lia.
    + destruct (m + 4503599627370496) as [|p|p] eqn:Ep; [lia| |lia].
      destruct (Z.leb_spec 2048 q) as [L|L].
      * rewrite in_unit_negative. split; [discriminate|]. lia.
      * rewrite in_unit_positive. split.
        -- intros [C|[C1 C2]]; left; [lia|].
           assert (m = 0) by lia. lia.
        -- intros [C|C]; [|exfalso; lia].
           destruct (Z.eq_dec e 1023) as [E|E]; [|left; lia].
           right. split; [lia|]. assert (m = 0) by lia. lia.
Qed.

End BitPatterns.

Section BitPatternTheorems.

Import Decoder DecoderSpec.

(** X5. The position test of the decoder, read on the bits: the 8-byte
    window at offset [i] offers a position exactly when it lies within the
    buffer and its little-endian 64-bit pattern is at most
    [0x3FF0000000000000] (the doubles from +0.0 to 1.0) or is
    [0x8000000000000000] (the double -0.0). *)
Theorem window_accepted_iff_bits (data : bytes) (i : nat) :
  (exists v, position_at data i = Some v) <->
  (i + 8 <= length data)%nat /\
  (le_uint (slice data i (i + 8)) <= 0x3FF0000000000000 \/
   le_uint (slice data i (i + 8)) = 0x8000000000000000).
Proof.
  assert (B : (i + 8 <= length data)%nat ->
              0 <= le_uint (slice data i (i + 8)) < 2 ^ 64).
  { intros L. pose proof (le_uint_bounds (slice data i (i + 8))) as H.
    rewrite slice_length in H.
    replace (Nat.min 8 (length data - i)) with 8%nat in H by lia. exact H. }
  split.
  - intros [v Hv]. apply position_at_some in Hv. destruct Hv as [W U].
    apply window_ok_iff in W. destruct W as [L ->].
    split; [exact L|]. apply in_unit_float_of_bits; auto.
  - intros [L H]. exists (float_of_bits (le_uint (slice data i (i + 8)))).
    apply position_at_some. split.
    + apply window_ok_iff. auto.
    + apply in_unit_float_of_bits; auto.
Qed.

End BitPatternTheorems.

(** ** Well-formed payloads *)

Section PayloadFacts.

Import Decoder DecoderSpec WireSpec.

Lemma le_bytes_length (n : nat) (x : Z) : length (le_bytes n x) = n.
Proof. revert x. induction n; intros x; cbn [le_bytes length]; auto. Qed.

Lemma le_uint_le_bytes (n : nat) :
  forall x, 0 <= x < 2 ^ (8 * Z.of_nat n) -> le_uint (le_bytes n x) = x.
Proof.
  induction n as [|n IH]; intros x H.
  - change (2 ^ (8 * Z.of_nat 0)) with 1 in H. cbn. lia.
  - cbn [le_bytes le_uint fold_right]. fold (le_uint (le_bytes n (x / 256))).
    pose proof (Z.mod_pos_bound x 256 ltac:(lia)) as B.
    rewrite byte_val_byte_of_Z by lia.
    replace (8 * Z.of_nat (S n)) with (8 + 8 * Z.of_nat n) in H by lia.
    rewrite Z.pow_add_r in H by lia. change (2 ^ 8) with 256 in H.
    rewrite IH.
    + pose proof (Z.div_mod x 256 ltac:(lia)). lia.
    + split; [apply Z.div_pos; lia|]. apply Z.div_lt_upper_bound; lia.
Qed.

Lemma payload_length (pre : bytes) (d bits : Z) :
  length (payload pre d bits) =
  (length pre + 1 + length (encode_varint d) + 8)%nat.
Proof.
  unfold payload. rewrite length_app. cbn [length].
  rewrite length_app, le_bytes_length. lia.
Qed.

(** The last window of a payload holds the double. *)
Lemma payload_last_window (pre : bytes) (d bits : Z) :
  0 <= bits < 2 ^ 64 ->
  window (payload pre d bits) (length pre + 1 + length (encode_varint d)) =
  Ok (float_of_bits bits).
Proof.
  intros H. apply window_ok_iff. rewrite payload_length. split; [lia|].
  f_equal. unfold slice, payload.
  replace (pre ++ x10 :: encode_varint d ++ le_bytes 8 bits)
    with ((pre ++ x10 :: encode_varint d) ++ le_bytes 8 bits)
    by (rewrite <- app_assoc; reflexivity).
  replace (length pre + 1 + length (encode_varint d))%nat
    with (length (pre ++ x10 :: encode_varint d))
    by (rewrite length_app; cbn [length]; lia).
  rewrite skipn_app_length.
  replace (length (pre ++ x10 :: encode_varint d) + 8 -
           length (pre ++ x10 :: encode_varint d))%nat with 8%nat by lia.
  rewrite firstn_all2 by (rewrite le_bytes_length; lia).
  symmetry. apply (le_uint_le_bytes 8). exact H.
Qed.

(** The sentinel of a payload offers the duration. *)
Lemma payload_sentinel (pre : bytes) (d bits : Z) :
  10 <= d <= 10000 ->
  duration_at (payload pre d bits) (length pre) = Some d.
Proof.
  intros H. unfold duration_at, payload.
  rewrite nth_error_app2 by lia. rewrite Nat.sub_diag. cbn [nth_error].
  change (byte_val x10 =? 16) with true. cbv iota.
  replace (pre ++ x10 :: encode_varint d ++ le_bytes 8 bits)
    with ((pre ++ [x10]) ++ encode_varint d ++ le_bytes 8 bits)
    by (rewrite <- app_assoc; reflexivity).
  replace (length pre + 1)%nat with (length (pre ++ [x10]))
    by (rewrite length_app; reflexivity).
  unfold encode_varint. rewrite decode_encode_groups.
  assert (Hl : Z.log2 d < 14) by (apply Z.log2_lt_pow2; lia).
  pose proof (Z.log2_nonneg d) as Hl0.
  assert (Hk : Z.log2 d / 7 < 2) by (apply Z.div_lt_upper_bound; lia).
  pose proof (Z.div_pos (Z.log2 d) 7 Hl0 ltac:(lia)) as Hk0.
  destruct (Nat.leb_spec 10 (Z.to_nat (Z.log2 d / 7))) as [C|_]; [lia|].
  rewrite Z.mod_small by (split; [lia | apply log2_groups; lia]).
  destruct (Z.leb_spec 10 d) as [_|C]; [|lia].
  destruct (Z.leb_spec d 10000) as [_|C]; [|lia]. reflexivity.
Qed.

End PayloadFacts.

Section PayloadTheorems.

Import Decoder DecoderSpec WireSpec.

(** X19. A payload written as the decoder expects it is decoded as written:
    for bytes [pre] free of the sentinel [0x10], a duration from 10 to 10000
    and the bit pattern of a double the position test accepts, the payload
    [pre], sentinel, varint of the duration, double yields exactly that
    position and that duration. *)
Theorem well_formed_payload_decodes (pre : bytes) (duration_ms bits : Z) :
  Forall (fun b => byte_val b <> 16) pre ->
  10 <= duration_ms <= 10000 ->
  0 <= bits < 2 ^ 64 -> in_unit (float_of_bits bits) = true ->
  parse_linear_cmd_from_protobuf (payload pre duration_ms bits) =
  Ok (Some (command (float_of_bits bits) duration_ms)).
Proof.
  intros Hpre Hd Hb Hu. rewrite parse_linear_cmd_eq.
  set (data := payload pre duration_ms bits).
  assert (Hlen : length data =
                 (length pre + 1 + length (encode_varint duration_ms) + 8)%nat)
    by apply payload_length.
  assert (Hp : first_some (position_at data) (range_down (Z.of_nat (length data) - 7)) =
               Some (float_of_bits bits)).
  { rewrite <- find_position_first. apply find_position_greatest.
    exists (length pre + 1 + length (encode_varint duration_ms))%nat.
    split; [apply payload_last_window; exact Hb|]. split; [exact Hu|].
    intros j w Hj Hw. apply window_ok_iff in Hw. destruct Hw as [L _]. lia. }
  assert (Hdur : first_some (duration_at data) (range (Z.of_nat (length data) - 2)) =
                 Some duration_ms).
  { apply first_duration_some. exists (length pre).
    split; [lia|]. split; [apply payload_sentinel; exact Hd|].
    intros j Hj. unfold duration_at, data, payload.
    rewrite nth_error_app1 by exact Hj.
    destruct (nth_error pre j) as [b|] eqn:E; [|reflexivity].
    apply nth_error_In in E. rewrite Forall_forall in Hpre.
    destruct (Z.eqb_spec (byte_val b) 16) as [C|_]; [|reflexivity].
    exfalso. exact (Hpre b E C). }
  rewrite Hp, Hdur. reflexivity.
Qed.

Lemma well_formed_payload_decodes_witness :
  parse_linear_cmd_from_protobuf (payload (of_Z_list [0x0A; 0x0B]) 250 0x3FE8000000000000) =
  Ok (Some (command (float_of_bits 0x3FE8000000000000) 250)).
Proof.
  apply (well_formed_payload_decodes (of_Z_list [0x0A; 0x0B]) 250 0x3FE8000000000000).
  - repeat constructor; vm_compute; discriminate.
  - lia.
  - lia.
  - vm_compute. reflexivity.
Defined.

End PayloadTheorems.

(** ** The speed *)

Section SpeedFacts.

Import FloatSem SimSpec HandySimulator LoopSpec.
Local Open Scope R_scope.

Lemma fabs_spec (x : float) :
  valid x = true -> finite x = true ->
  valid (fabs x) = true /\ finite (fabs x) = true /\ FV (fabs x) = Rabs (FV x).
Proof.
  intros V F. destruct x as [s| | |s m e]; try discriminate.
  - cbn [fabs SFabs FV]. rewrite Rabs_R0. auto.
  - cbn [fabs SFabs finite]. rewrite (valid_sign false s). split; [exact V|].
    split; [reflexivity|]. pose proof (IZR_pos m). pose proof (bpow_pos e).
    assert (0 < IZR (Zpos m) * bpow e) by (apply Rmult_lt_0_compat; assumption).
    destruct s; cbn [FV].
    + rewrite Rabs_Ropp, Rabs_pos_eq; lra.
    + rewrite Rabs_pos_eq; lra.
Qed.

Lemma FV_scaled (c : Z) (k : Z) (m : positive) :
  (0 <= k)%Z -> Zpos m = (c * 2 ^ k)%Z -> FV (S754_finite false m (- k)) = IZR c.
Proof.
  intros Hk E. cbn [FV]. rewrite E, mult_IZR, IZR_pow2, Rmult_assoc, bpow_cancel by lia.
  ring.
Qed.

Lemma FV_f125 : FV f125 = 125.
Proof. apply (FV_scaled 125 46); [lia | reflexivity]. Qed.

Lemma FV_f1000 : FV f1000 = 1000.
Proof. apply (FV_scaled 1000 43); [lia | reflexivity]. Qed.

Lemma FV_f10 : FV f10 = 10.
Proof. apply (FV_scaled 10 49); [lia | reflexivity]. Qed.

Lemma FV_f12500 : FV f12500 = 12500.
Proof. apply (FV_scaled 12500 39); [lia | reflexivity]. Qed.

Lemma FV_opp_f1 : FV (SFopp f1) = -1.
Proof.
  rewrite <- (XV_finite (SFopp f1) eq_refl), XV_opp, (XV_finite f1 eq_refl), FV_f1.
  reflexivity.
Qed.

(** The distance between two positions of the unit interval. *)
Lemma distance_in_unit (a b : float) :
  unit_ok a -> unit_ok b -> unit_ok (fabs (fsub a b)).
Proof.
  intros (Va & Fa & Ba) (Vb & Fb & Bb).
  pose proof (fsub_RndS a b Va Vb Fa Fb) as Hx.
  assert (B : FV (SFopp f1) <= FV a - FV b <= FV f1) by (rewrite FV_opp_f1, FV_f1; lra).
  destruct (RndS_between _ _ (SFopp f1) f1 Hx eq_refl eq_refl valid_f1 eq_refl B)
    as (Vx & Fx & Bx).
  rewrite FV_opp_f1, FV_f1 in Bx.
  destruct (fabs_spec _ Vx Fx) as (V & F & E).
  repeat split; auto; rewrite E.
  - apply Rabs_pos.
  - apply Rabs_le. lra.
Qed.

(** An int of 10 or more that converts, converts to a float of 10 or more. *)
Lemma float_of_int_ge_10 (n : Z) (d : float) :
  (10 <= n)%Z -> float_of_int n = Ok d ->
  valid d = true /\ finite d = true /\ 10 <= FV d.
Proof.
  intros Hn Hd. destruct (float_of_int_RndS n d Hd) as [HR F].
  destruct (RndS_valid _ _ HR) as [V _].
  assert (Hle : FV f10 <= IZR n) by (rewrite FV_f10; apply IZR_le; exact Hn).
  pose proof (RndS_mono _ _ _ _ Hle (RndS_exact f10 eq_refl eq_refl) HR) as Hm.
  rewrite (XV_finite f10 eq_refl), FV_f10, (XV_finite d F) in Hm. auto.
Qed.

Lemma float_of_int_raises (n : Z) (e : exn) :
  float_of_int n = Raise e -> e = OverflowError.
Proof.
  unfold float_of_int. destruct (binary_normalize prec emax n 0 false);
    intros H; try discriminate. injection H as <-. reflexivity.
Qed.

(** 0.01 as a double is not below 1/100. *)
Lemma secs_lower_bound (d : float) :
  valid d = true -> finite d = true -> 10 <= FV d ->
  let secs := SFdiv prec emax d f1000 in
  valid secs = true /\ finite secs = true /\ / 100 <= FV secs.
Proof.
  intros V F H10 secs.
  pose proof (fdiv_RndS d f1000 V eq_refl F eq_refl eq_refl) as HR.
  fold secs in HR. rewrite FV_f1000 in HR.
  set (lo := S754_finite false 5764607523034235 (-59)).
  assert (Elo : SFdiv prec emax f10 f1000 = lo) by (vm_compute; reflexivity).
  pose proof (fdiv_RndS f10 f1000 eq_refl eq_refl eq_refl eq_refl eq_refl) as Hlo.
  rewrite Elo, FV_f10, FV_f1000 in Hlo.
  assert (Flo : / 100 <= FV lo).
  { unfold lo. cbn [FV].
    assert (C : IZR (2 ^ 59) * bpow (-59) = 1) by (rewrite IZR_pow2 by lia; apply bpow_cancel).
    assert (L : IZR (2 ^ 59) <= 100 * IZR (Zpos 5764607523034235)).
    { rewrite <- mult_IZR. apply IZR_le. vm_compute. discriminate. }
    pose proof (bpow_pos (-59)) as P.
    assert (L' : IZR (2 ^ 59) * bpow (-59) <=
                 100 * IZR (Zpos 5764607523034235) * bpow (-59))
      by (apply Rmult_le_compat_r; lra).
    rewrite C in L'. lra. }
  assert (Hle : 10 / 1000 <= FV d / 1000) by lra.
  pose proof (RndS_mono _ _ _ _ Hle Hlo HR) as Hm.
  rewrite (XV_finite lo eq_refl) in Hm.
  assert (B : FV f0 <= FV d / 1000 <= FV d) by (rewrite FV_f0; lra).
  destruct (RndS_between _ _ f0 d HR valid_f0 eq_refl V F B) as (Vs & Fs & _).
  rewrite (XV_finite secs Fs) in Hm. repeat split; auto. lra.
Qed.

(** The speed [start_movement] computes between two positions of the unit
    interval is a number from 0 to 12500 mm/s; the computation can only
    fail on the conversion of the duration. *)
Lemma speed_computation (position current : float) (duration_ms : Z) :
  unit_ok position -> unit_ok current -> (10 <= duration_ms)%Z ->
  match
    (if flt f0_001 (fabs (fsub position current)) then
       let distance_mm := fmul (fabs (fsub position current)) f125 in
       d <- float_of_int duration_ms ;;
       secs <- truediv d f1000 ;;
       truediv distance_mm secs
     else Ok f0)
  with
  | Ok speed => speed_ok speed
  | Raise e => float_of_int duration_ms = Raise e
  end.
Proof.
  intros Hp Hc Hd.
  destruct (flt f0_001 (fabs (fsub position current))).
  2:{ unfold speed_ok. rewrite FV_f0. repeat split; try reflexivity; lra. }
  destruct (distance_in_unit _ _ Hp Hc) as (Vd & Fd & Bd).
  set (distance := fabs (fsub position current)) in *. cbv zeta.
  pose proof (fmul_RndS distance f125 Vd eq_refl Fd eq_refl) as Hm.
  rewrite FV_f125 in Hm.
  assert (Bm : FV f0 <= FV distance * 125 <= FV f125) by (rewrite FV_f0, FV_f125; lra).
  destruct (RndS_between _ _ f0 f125 Hm valid_f0 eq_refl eq_refl eq_refl Bm)
    as (Vm & Fm & Bm').
  rewrite FV_f0, FV_f125 in Bm'.
  destruct (float_of_int duration_ms) as [d|e] eqn:Hf; cbn [bind]; [|reflexivity].
  destruct (float_of_int_ge_10 _ _ Hd Hf) as (V & F & B).
  destruct (secs_lower_bound d V F B) as (Vs & Fs & Bs).
  unfold truediv at 1. change (is_zero f1000) with false. cbn [bind].
  set (secs := SFdiv prec emax d f1000) in *.
  assert (Zs : is_zero secs = false) by (apply is_zero_FV; auto; lra).
  unfold truediv. rewrite Zs.
  pose proof (fdiv_RndS _ secs Vm Vs Fm Fs Zs) as Hq.
  set (mm := fmul distance f125) in *.
  assert (Bq : FV f0 <= FV mm / FV secs <= FV f12500).
  { rewrite FV_f0, FV_f12500.
    assert (Ps : 0 < FV secs) by lra.
    assert (Pi : 0 < / FV secs) by (apply Rinv_0_lt_compat; exact Ps).
    split.
    - apply Rmult_le_pos; lra.
    - apply Rmult_le_reg_r with (FV secs); [exact Ps|].
      unfold Rdiv. rewrite Rmult_assoc, Rinv_l by lra. lra. }
  destruct (RndS_between _ _ f0 f12500 Hq valid_f0 eq_refl eq_refl eq_refl Bq)
    as (Vq & Fq & Bq').
  rewrite FV_f0, FV_f12500 in Bq'. repeat split; auto; lra.
Qed.

(** Whenever [start_movement] returns from a position of the unit interval,
    the speed it leaves is a number from 0 to 12500 mm/s. *)
Lemma start_movement_speed (self : t) (position : float) (duration_ms : Z) (now : float) :
  unit_ok (current_position self) -> valid position = true ->
  match start_movement self position duration_ms now with
  | Ok self' =>
      exists speed, self' = started self position duration_ms now speed /\ speed_ok speed
  | Raise e => True
  end.
Proof.
  intros Hc Vp. unfold start_movement. fold (clamp position).
  pose proof (speed_computation (clamp position) (current_position self)
                (Z.max 10 duration_ms) (clamp_unit_ok position Vp) Hc
                (Z.le_max_l 10 duration_ms)) as H.
  cbv zeta in H.
  match goal with
  | |- context [bind ?c _] => destruct c as [speed|e]
  end; cbn [bind]; [|exact I].
  exists speed. split; [reflexivity | exact H].
Qed.

End SpeedFacts.

(** ** Runs of the model *)

Section LoopFacts.

Import FloatSem SimSpec HandySimulator LoopSpec.
Local Open Scope R_scope.

Lemma speed_ok_f0 : speed_ok f0.
Proof. unfold speed_ok. rewrite FV_f0. repeat split; try reflexivity; lra. Qed.

Lemma start_movement_shape (self : t) (position : float) (duration_ms : Z)
    (now : float) (self' : t) :
  start_movement self position duration_ms now = Ok self' ->
  exists speed, self' = started self position duration_ms now speed.
Proof.
  unfold start_movement. fold (clamp position).
  match goal with
  | |- context [bind ?c _] => destruct c as [speed|e]
  end; cbn [bind]; intros H; [|discriminate].
  injection H as <-. exists speed. reflexivity.
Qed.


(** The two outcomes of [update_position] on an active movement. *)
Lemma update_position_cases (self : t) (m : Movement.t) (now : float) :
  current_movement self = Some m -> Movement.is_active m = true ->
  (10 <= Movement.duration_ms m)%Z ->
  let elapsed := fsub now (Movement.start_time_ms m) in
  (float_ge_int elapsed (Movement.duration_ms m) = true /\
   update_position self now = Ok (arrived self m)) \/
  (float_ge_int elapsed (Movement.duration_ms m) = false /\
   ((exists d, float_of_int (Movement.duration_ms m) = Ok d /\ is_zero d = false /\
               update_position self now =
               Ok (moved self (lerp m (SFdiv prec emax elapsed d)))) \/
    (float_of_int (Movement.duration_ms m) = Raise OverflowError /\
     update_position self now = Raise OverflowError))).
Proof.
  intros Hm A D elapsed.
  destruct (float_ge_int elapsed (Movement.duration_ms m)) eqn:G.
  - left. split; [reflexivity|]. apply update_position_arrive; assumption.
  - right. split; [reflexivity|].
    destruct (float_of_int (Movement.duration_ms m)) as [d|e] eqn:Hf.
    + left. destruct (float_of_int_ge_10 _ _ D Hf) as (V & F & B).
      assert (Z : is_zero d = false) by (apply is_zero_FV; auto; lra).
      exists d. split; [reflexivity|]. split; [exact Z|].
      apply update_position_move; assumption.
    + right. pose proof (float_of_int_raises _ _ Hf) as ->. split; [reflexivity|].
      unfold update_position. rewrite Hm, A. fold elapsed. rewrite G, Hf. reflexivity.
Qed.

Lemma update_position_inactive (self : t) (m : Movement.t) (now : float) :
  current_movement self = Some m -> Movement.is_active m = false ->
  update_position self now = Ok self.
Proof. intros H A. unfold update_position. rewrite H, A. reflexivity. Qed.

Lemma record_ok_step (self : t) (o : op) : record_ok self -> record_ok (apply_op self o).
Proof.
  intros H. unfold apply_op. destruct o as [position duration_ms now|now]; cbn [run_op].
  - destruct (start_movement self position duration_ms now) as [self'|e] eqn:E;
      [|exact H].
    apply start_movement_shape in E. destruct E as [speed ->].
    unfold record_ok, started. cbn. repeat split. lia.
  - destruct (current_movement self) as [m|] eqn:Hm.
    + pose proof H as H'. unfold record_ok in H'. rewrite Hm in H'.
      destruct H' as (A & D & T).
      destruct (update_position_cases self m now Hm A D)
        as [[_ E]|[_ [(d & _ & _ & E)|[_ E]]]]; rewrite E.
      * exact I.
      * unfold record_ok, moved. cbn. rewrite Hm. auto.
      * exact H.
    + rewrite (update_position_idle self now Hm). exact H.
Qed.

Lemma record_ok_run (ops : list op) (self : t) :
  record_ok self -> record_ok (run_ops self ops).
Proof.
  revert self. induction ops as [|o ops IH]; intros self H; [exact H|].
  cbn [run_ops fold_left]. apply IH. apply record_ok_step. exact H.
Qed.

(** Integers below [2^53] convert to floats without rounding. *)
Lemma float_of_int_exact (n : Z) :
  (0 <= n < 2 ^ 53)%Z ->
  exists d, float_of_int n = Ok d /\ valid d = true /\ finite d = true /\ FV d = IZR n.
Proof.
  intros Hn. destruct (Z.eq_dec n 0) as [->|Hz].
  { exists (S754_zero false). repeat split; reflexivity. }
  destruct (float_of_int_between n f0 max_float valid_f0 eq_refl valid_max_float eq_refl)
    as (d & Hf & V & F & _).
  { rewrite FV_f0, FV_max_float. split; apply IZR_le; [lia|].
    unfold max_double. lia. }
  exists d. repeat split; auto.
  destruct (float_of_int_RndS n d Hf) as [HR _].
  assert (Hp : 0 < IZR n) by (apply IZR_lt; lia).
  destruct HR as [[_ HR]|[[C _]|[C _]]]; [|lra|lra].
  destruct (Rnd_XV _ _ (Rlt_le _ _ Hp) HR) as (E & N & HB & HN & HX).
  assert (HE : (E <= 0)%Z).
  { destruct HB as [[-> _]|[_ [HL _]]]; [lia|].
    assert (Hlt : bpow (E + 52) < bpow 53).
    { eapply Rle_lt_trans; [exact HL|]. rewrite <- IZR_pow2 by lia. apply IZR_lt. lia. }
    apply bpow_lt_inv in Hlt. lia. }
  assert (HI : IZR n * bpow (- E) = IZR (n * 2 ^ (- E))).
  { rewrite mult_IZR, IZR_pow2 by lia. reflexivity. }
  rewrite HI in HN.
  pose proof (nearest_even_unique _ _ _ HN (nearest_even_IZR _)) as ->.
  rewrite <- HI, Rmult_assoc, (Rmult_comm (bpow (- E))), bpow_cancel, Rmult_1_r in HX.
  rewrite (XV_finite d F) in HX. rewrite HX. apply Rmin_left.
  apply Rlt_le. apply Rlt_trans with (bpow 53).
  - rewrite <- IZR_pow2 by lia. apply IZR_lt. lia.
  - apply bpow_lt. lia.
Qed.

(** Once the clock has advanced by the duration, the test of
    [update_position] sees it. *)
Lemma elapsed_reaches (now later : float) (duration_ms : Z) :
  clock_ok now -> clock_ok later -> (0 <= duration_ms < 2 ^ 53)%Z ->
  IZR duration_ms <= FV later - FV now ->
  float_ge_int (fsub later now) duration_ms = true.
Proof.
  intros [Vn Fn] [Vl Fl] Hd H.
  destruct (float_of_int_exact duration_ms Hd) as (d & _ & V & F & E).
  pose proof (fsub_RndS later now Vl Vn Fl Fn) as HR.
  assert (Hle : FV d <= FV later - FV now) by (rewrite E; exact H).
  pose proof (RndS_mono _ _ _ _ Hle (RndS_exact d V F) HR) as Hm.
  rewrite (XV_finite d F), E in Hm.
  destruct (RndS_valid _ _ HR) as [_ N].
  destruct (fsub later now) as [s|[]| |s m e] eqn:Ee; try discriminate.
  - apply float_ge_int_spec; [reflexivity | exact Hm].
  - exfalso. cbn [XV] in Hm. pose proof (bpow_pos 1024).
    assert (0 <= IZR duration_ms) by (apply IZR_le; lia). lra.
  - reflexivity.
  - apply float_ge_int_spec; [reflexivity | exact Hm].
Qed.

(** A tick keeps the simulator either on the movement [m] or at rest at its
    target. *)
Lemma tick_toward (m : Movement.t) (self : t) (now : float) :
  Movement.is_active m = true ->
  (10 <= Movement.duration_ms m <= max_double)%Z ->
  self = at_rest (Movement.target_position m) \/
  (current_movement self = Some m /\
   target_position self = Movement.target_position m) ->
  exists self',
    update_position self now = Ok self' /\
    (self' = at_rest (Movement.target_position m) \/
     (current_movement self' = Some m /\
      target_position self' = Movement.target_position m)).
Proof.
  intros A [D Dmax] [->|[Hm T]].
  - exists (at_rest (Movement.target_position m)). split; [reflexivity | left; reflexivity].
  - destruct (update_position_cases self m now Hm A D)
      as [[_ E]|[_ [(d & _ & _ & E)|[C _]]]].
    + eexists. split; [exact E|]. left. unfold arrived, at_rest. rewrite T. reflexivity.
    + eexists. split; [exact E|]. right. unfold moved. cbn. auto.
    + exfalso.
      destruct (float_of_int_between (Movement.duration_ms m) f10 max_float
                  eq_refl eq_refl valid_max_float eq_refl) as (d & Hd & _).
      * rewrite FV_f10, FV_max_float. split; apply IZR_le; lia.
      * congruence.
Qed.

Lemma ticks_toward (m : Movement.t) (times : list float) :
  Movement.is_active m = true ->
  (10 <= Movement.duration_ms m <= max_double)%Z ->
  forall self,
    self = at_rest (Movement.target_position m) \/
    (current_movement self = Some m /\
     target_position self = Movement.target_position m) ->
    exists self',
      ticks self times = Ok self' /\
      (self' = at_rest (Movement.target_position m) \/
       (current_movement self' = Some m /\
        target_position self' = Movement.target_position m)).
Proof.
  intros A D. induction times as [|now times IH]; intros self H.
  - exists self. split; [reflexivity | exact H].
  - destruct (tick_toward m self now A D H) as (s1 & E1 & H1).
    destruct (IH s1 H1) as (s2 & E2 & H2).
    exists s2. cbn [ticks]. rewrite E1. cbn [bind]. auto.
Qed.

Lemma ticks_app (self : t) (l1 l2 : list float) :
  ticks self (l1 ++ l2) = (self' <- ticks self l1 ;; ticks self' l2).
Proof.
  revert self. induction l1 as [|now l1 IH]; intros self; cbn [ticks app bind].
  - reflexivity.
  - destruct (update_position self now) as [s1|e]; cbn [bind]; [apply IH | reflexivity].
Qed.

(** The interpolation moves with the progress, away from the start. *)
Lemma lerp_mono (m : Movement.t) (p1 p2 : float) :
  unit_ok (Movement.start_position m) -> unit_ok (Movement.target_position m) ->
  unit_ok p1 -> unit_ok p2 -> FV p1 <= FV p2 ->
  (FV (Movement.start_position m) <= FV (Movement.target_position m) ->
   FV (lerp m p1) <= FV (lerp m p2)) /\
  (FV (Movement.target_position m) <= FV (Movement.start_position m) ->
   FV (lerp m p2) <= FV (lerp m p1)).
Proof.
  intros (Vs & Fs & Bs) (Vt & Ft & Bt) (V1 & F1 & B1) (V2 & F2 & B2) H12.
  destruct (lerp_in_unit _ _ _ Vs Fs Bs Vt Ft Bt V1 F1 B1) as (_ & Fr1 & _).
  destruct (lerp_in_unit _ _ _ Vs Fs Bs Vt Ft Bt V2 F2 B2) as (_ & Fr2 & _).
  cbv zeta in Fr1, Fr2. fold (lerp m p1) in Fr1. fold (lerp m p2) in Fr2.
  unfold lerp in *.
  set (s := Movement.start_position m) in *. set (t := Movement.target_position m) in *.
  pose proof (fsub_RndS t s Vt Vs Ft Fs) as Hx.
  assert (B : FV (SFopp f1) <= FV t - FV s <= FV f1) by (rewrite FV_opp_f1, FV_f1; lra).
  destruct (RndS_between _ _ (SFopp f1) f1 Hx eq_refl eq_refl valid_f1 eq_refl B)
    as (Vx & Fx & Bx).
  rewrite FV_opp_f1, FV_f1 in Bx.
  set (x := fsub t s) in *.
  pose proof (fmul_RndS x p1 Vx V1 Fx F1) as Hy1.
  pose proof (fmul_RndS x p2 Vx V2 Fx F2) as Hy2.
  assert (By : forall p, 0 <= FV p <= 1 ->
                         FV (SFopp f1) <= FV x * FV p <= FV f1).
  { intros p Bp. rewrite FV_opp_f1, FV_f1. split; nra. }
  destruct (RndS_between _ _ (SFopp f1) f1 Hy1 eq_refl eq_refl valid_f1 eq_refl (By p1 B1))
    as (Vy1 & Fy1 & _).
  destruct (RndS_between _ _ (SFopp f1) f1 Hy2 eq_refl eq_refl valid_f1 eq_refl (By p2 B2))
    as (Vy2 & Fy2 & _).
  pose proof (fadd_RndS s _ Vs Vy1 Fs Fy1) as Hr1.
  pose proof (fadd_RndS s _ Vs Vy2 Fs Fy2) as Hr2.
  destruct (RndS_sign _ _ Hx) as [Xp Xn]. rewrite (XV_finite x Fx) in Xp, Xn.
  split; intros Hst.
  - assert (X0 : 0 <= FV x) by (apply Xp; lra).
    assert (Hp : FV x * FV p1 <= FV x * FV p2) by (apply Rmult_le_compat_l; assumption).
    pose proof (RndS_mono _ _ _ _ Hp Hy1 Hy2) as My.
    rewrite (XV_finite _ Fy1), (XV_finite _ Fy2) in My.
    assert (Hs : FV s + FV (fmul x p1) <= FV s + FV (fmul x p2)) by lra.
    pose proof (RndS_mono _ _ _ _ Hs Hr1 Hr2) as Mr.
    rewrite (XV_finite _ Fr1), (XV_finite _ Fr2) in Mr. exact Mr.
  - assert (X0 : FV x <= 0) by (apply Xn; lra).
    assert (Hp : FV x * FV p2 <= FV x * FV p1) by nra.
    pose proof (RndS_mono _ _ _ _ Hp Hy2 Hy1) as My.
    rewrite (XV_finite _ Fy1), (XV_finite _ Fy2) in My.
    assert (Hs : FV s + FV (fmul x p2) <= FV s + FV (fmul x p1)) by lra.
    pose proof (RndS_mono _ _ _ _ Hs Hr2 Hr1) as Mr.
    rewrite (XV_finite _ Fr1), (XV_finite _ Fr2) in Mr. exact Mr.
Qed.

(** At progress 0 the interpolation is the start position. *)
Lemma lerp_start (m : Movement.t) :
  unit_ok (Movement.start_position m) -> unit_ok (Movement.target_position m) ->
  FV (lerp m f0) = FV (Movement.start_position m).
Proof.
  intros (Vs & Fs & Bs) (Vt & Ft & Bt).
  assert (B0 : 0 <= FV f0 <= 1) by (rewrite FV_f0; lra).
  destruct (lerp_in_unit _ _ _ Vs Fs Bs Vt Ft Bt valid_f0 eq_refl B0) as (_ & Fr & _).
  cbv zeta in Fr. fold (lerp m f0) in Fr. unfold lerp in *.
  set (s := Movement.start_position m) in *. set (t := Movement.target_position m) in *.
  pose proof (fsub_RndS t s Vt Vs Ft Fs) as Hx.
  assert (B : FV (SFopp f1) <= FV t - FV s <= FV f1) by (rewrite FV_opp_f1, FV_f1; lra).
  destruct (RndS_between _ _ (SFopp f1) f1 Hx eq_refl eq_refl valid_f1 eq_refl B)
    as (Vx & Fx & _).
  pose proof (fmul_RndS _ f0 Vx valid_f0 Fx eq_refl) as Hy.
  rewrite FV_f0, Rmult_0_r in Hy.
  assert (B00 : FV f0 <= 0 <= FV f0) by (rewrite FV_f0; lra).
  destruct (RndS_between _ _ f0 f0 Hy valid_f0 eq_refl valid_f0 eq_refl B00)
    as (Vy & Fy & By).
  rewrite FV_f0 in By.
  pose proof (fadd_RndS s _ Vs Vy Fs Fy) as Hr.
  assert (E : FV s + FV (fmul (fsub t s) f0) = FV s) by lra.
  rewrite E in Hr.
  assert (Bss : FV s <= FV s <= FV s) by lra.
  destruct (RndS_between _ _ s s Hr Vs Fs Vs Fs Bss) as (_ & _ & Br). lra.
Qed.

(** The outcomes of [handle_message]. *)
Lemma handle_message_cases (self : t) (data : bytes) (now : float) :
  (Decoder.parse_linear_cmd_from_protobuf data = Ok None /\
   handle_message self data now = Ok self) \/
  (exists p d,
     Decoder.parse_linear_cmd_from_protobuf data = Ok (Some (DecoderSpec.command p d)) /\
     Decoder.in_unit p = true /\ valid p = true /\ (10 <= d <= 10000)%Z /\
     handle_message self data now = start_movement self p d now).
Proof.
  unfold handle_message. rewrite parse_linear_cmd_eq. cbn [bind].
  destruct (DecoderSpec.first_some (DecoderSpec.position_at data) _) as [p|] eqn:Ep;
    [|left; split; reflexivity].
  right.
  set (d := match DecoderSpec.first_some (DecoderSpec.duration_at data) _ with
            | Some d => d
            | None => 500%Z
            end).
  assert (Hd : (10 <= d <= 10000)%Z).
  { unfold d.
    destruct (DecoderSpec.first_some (DecoderSpec.duration_at data) _) as [d'|] eqn:E;
      [|lia].
    apply first_some_in in E. destruct E as (i & _ & Hi).
    apply duration_at_range in Hi. lia. }
  apply first_some_in in Ep. destruct Ep as (i & _ & Hi).
  apply position_at_some in Hi. destruct Hi as [W U].
  apply window_ok_iff in W. destruct W as [_ W].
  exists p, d. split; [reflexivity|]. split; [exact U|].
  split; [rewrite W; apply float_of_bits_valid|]. split; [exact Hd|].
  cbn [DecoderSpec.command Decoder.vectors start_movements
       Decoder.position Decoder.duration_ms].
  destruct (start_movement self p d now); reflexivity.
Qed.

(** The clamp leaves an accepted position as it is, but for the sign of a
    negative zero. *)
Lemma clamp_accepted (p : float) :
  Decoder.in_unit p = true ->
  clamp p = p \/ (p = S754_zero true /\ clamp p = f0).
Proof.
  unfold Decoder.in_unit, clamp, Py.min, Py.max, fle, flt, SFleb, SFltb.
  destruct p as [[]|[]| |[] m e]; cbn [SFcompare f0 f1 andb];
    try (intros H; discriminate H); auto.
  destruct (Z.compare_spec e (-52)) as [E|E|E].
  - rewrite !Pos.compare_cont_spec.
    destruct (Pos.compare_spec m 4503599627370496) as [P|P|P]; cbn [Pos.switch_Eq];
      intros H; try discriminate H; left.
    + subst. reflexivity.
    + reflexivity.
  - intros _. left. reflexivity.
  - intros H. discriminate H.
Qed.

End LoopFacts.

Section LoopTheorems.

Import FloatSem SimSpec HandySimulator LoopSpec.
Local Open Scope R_scope.

Lemma unit_ok_f0_5 : unit_ok f0_5.
Proof. apply (Inv_init f0). Qed.

Lemma FV_f50 : FV f50 = 50.
Proof. apply (FV_scaled 50 47); [lia | reflexivity]. Qed.

Lemma FV_f120 : FV f120 = 120.
Proof. apply (FV_scaled 120 46); [lia | reflexivity]. Qed.

Lemma clock_ok_intro (f : float) : valid f = true -> finite f = true -> clock_ok f.
Proof. intros V F. split; assumption. Qed.

(** [update_position] leaves the speed as it is or resets it to 0. *)
Lemma tick_speed (self : t) (now : float) :
  speed_mms (apply_op self (Tick now)) = speed_mms self \/
  speed_mms (apply_op self (Tick now)) = f0.
Proof.
  unfold apply_op. cbn [run_op]. unfold update_position.
  destruct (current_movement self) as [m|]; [|auto].
  destruct (Movement.is_active m); [|auto].
  destruct (float_ge_int _ _); [right; reflexivity|].
  destruct (float_of_int _) as [d|e]; cbn [bind]; [|auto].
  unfold truediv. destruct (is_zero d); cbn [bind]; auto.
Qed.

Lemma speed_step (last : float) (self : t) (o : op) :
  Inv last self -> speed_ok (speed_mms self) -> op_ok o ->
  speed_ok (speed_mms (apply_op self o)).
Proof.
  intros (Hc & _) HS [_ HO]. destruct o as [position duration_ms now|now].
  - unfold apply_op. cbn [run_op].
    pose proof (start_movement_speed self position duration_ms now Hc HO) as H.
    destruct (start_movement self position duration_ms now) as [self'|e]; [|exact HS].
    destruct H as (speed & -> & S). exact S.
  - destruct (tick_speed self now) as [-> | ->]; [exact HS | exact speed_ok_f0].
Qed.

Lemma speed_run (ops : list op) :
  forall (last : float) (self : t),
    Inv last self -> speed_ok (speed_mms self) -> clock_ok last ->
    Forall op_ok ops -> clock_from last ops ->
    speed_ok (speed_mms (run_ops self ops)).
Proof.
  induction ops as [|o ops IH]; intros last self HI HS CL HF HC.
  - exact HS.
  - cbn [run_ops fold_left]. inversion HF as [|? ? Ho HF']. subst.
    destruct HC as [Hle HC].
    apply (IH (op_time o)); auto.
    + apply (Inv_step last); auto.
    + apply (speed_step last); auto.
    + apply Ho.
Qed.

(** One event keeps what holds between events, and does not raise. *)
Lemma fed_step (last : float) (self : t) (ev : event) :
  fed_ok last self -> clock_ok last -> clock_ok (event_time ev) ->
  fle last (event_time ev) = true ->
  exists self', run_event self ev = Ok self' /\ fed_ok (event_time ev) self'.
Proof.
  intros (HI & HS & HD) CL CE Hle.
  destruct ev as [data now|now]; cbn [run_event event_time] in *.
  - destruct (handle_message_cases self data now)
      as [[_ E]|(p & d & _ & U & Vp & Hd & E)].
    + rewrite E. exists self. split; [reflexivity|].
      apply (fle_FV last now CL CE) in Hle.
      split; [exact (Inv_later _ _ _ Hle HI) | split; assumption].
    + destruct (start_movement_ok self p d now) as (speed & Es).
      { unfold max_double. lia. }
      rewrite E, Es. eexists. split; [reflexivity|].
      pose proof (Inv_step last self (StartMovement p d now) HI CL (conj CE Vp) Hle) as H.
      unfold apply_op in H. cbn [run_op op_time] in H. rewrite Es in H.
      split; [exact H|]. split.
      * pose proof (start_movement_speed self p d now (proj1 HI) Vp) as H2.
        rewrite Es in H2. destruct H2 as (speed' & Eq & S).
        apply (f_equal speed_mms) in Eq. cbn [started speed_mms] in Eq.
        rewrite Eq. exact S.
      * cbn. lia.
  - pose proof (Inv_step last self (Tick now) HI CL (conj CE I) Hle) as H.
    unfold apply_op in H. cbn [run_op op_time] in H.
    destruct (current_movement self) as [m|] eqn:Hm.
    + destruct (Movement.is_active m) eqn:A.
      * destruct (update_position_cases self m now Hm A (proj1 HD))
          as [[_ E]|[_ [(d & _ & _ & E)|[C _]]]].
        -- rewrite E in *. eexists. split; [reflexivity|].
           split; [exact H|]. split; [exact speed_ok_f0 | exact I].
        -- rewrite E in *. eexists. split; [reflexivity|].
           split; [exact H|]. split; [exact HS|]. cbn. rewrite Hm. exact HD.
        -- exfalso.
           destruct (float_of_int_between (Movement.duration_ms m) f10 max_float
                       eq_refl eq_refl valid_max_float eq_refl) as (d & Hf & _).
           ++ rewrite FV_f10, FV_max_float. unfold max_double.
              split; apply IZR_le; lia.
           ++ congruence.
      * rewrite (update_position_inactive self m now Hm A) in *.
        exists self. split; [reflexivity|]. split; [exact H|]. split; [exact HS|].
        rewrite Hm. exact HD.
    + rewrite (update_position_idle self now Hm) in *.
      exists self. split; [reflexivity|]. split; [exact H|]. split; [exact HS|].
      rewrite Hm. exact I.
Qed.

Lemma fed_run (evs : list event) :
  forall (last : float) (self : t),
    fed_ok last self -> clock_ok last -> events_from last evs ->
    exists last' self', run_events self evs = Ok self' /\ fed_ok last' self'.
Proof.
  induction evs as [|ev evs IH]; intros last self HK CL HE.
  - exists last, self. split; [reflexivity | exact HK].
  - destruct HE as (CE & Hle & HE).
    destruct (fed_step last self ev HK CL CE Hle) as (s1 & E1 & K1).
    destruct (IH _ _ K1 CE HE) as (last' & s2 & E2 & K2).
    exists last', s2. cbn [run_events]. rewrite E1. cbn [bind]. auto.
Qed.

(** X6. [handle_message] applies a decoded command as decoded: the
    movement it starts has the decoded duration (the floor of 10 does not
    change it) and the decoded position (the clamp does not change it, but
    for turning -0.0 into 0.0), and it does not raise.  A payload without
    a command leaves the state as it is. *)
Theorem handle_message_applies_command (self : t) (data : bytes) (now : float) :
  (Decoder.parse_linear_cmd_from_protobuf data = Ok None ->
   handle_message self data now = Ok self) /\
  (forall p d,
     Decoder.parse_linear_cmd_from_protobuf data = Ok (Some (DecoderSpec.command p d)) ->
     (exists speed, handle_message self data now = Ok (started self p d now speed)) /\
     Z.max 10 d = d /\
     (clamp p = p \/ (p = S754_zero true /\ clamp p = f0))).
Proof.
  destruct (handle_message_cases self data now)
    as [[P E]|(p' & d' & P & U & _ & Hd & E)].
  - split; [intros _; exact E|]. intros p d C. rewrite C in P. discriminate.
  - split; [intros C; rewrite C in P; discriminate|].
    intros p d C. rewrite C in P. injection P as <- <-.
    split; [|split; [lia | apply clamp_accepted; exact U]].
    destruct (start_movement_ok self p d now) as (speed & Es).
    { unfold max_double. lia. }
    exists speed. rewrite E. exact Es.
Qed.

Lemma handle_message_applies_command_witness :
  (exists speed,
     handle_message init DecoderSpec.payload_250_075 f0 =
     Ok (started init DecoderSpec.f0_75 250 f0 speed)) /\
  Z.max 10 250 = 250%Z /\
  (clamp DecoderSpec.f0_75 = DecoderSpec.f0_75 \/
   (DecoderSpec.f0_75 = S754_zero true /\ clamp DecoderSpec.f0_75 = f0)).
Proof.
  apply (proj2 (handle_message_applies_command init DecoderSpec.payload_250_075 f0)).
  vm_compute. reflexivity.
Defined.

(** X8. Whatever the operations and their arguments, a movement the
    simulator holds is active, lasts at least 10 ms and has the target the
    simulator shows as its target position; so the [moving] flag of
    [display_loop] is set exactly when a movement is held. *)
Theorem movement_record_invariant (ops : list op) :
  record_ok (run_ops init ops) /\
  (VisualDisplay.moving (run_ops init ops) = true <->
   current_movement (run_ops init ops) <> None).
Proof.
  pose proof (record_ok_run ops init I) as H. split; [exact H|].
  unfold VisualDisplay.moving, record_ok in *.
  destruct (current_movement (run_ops init ops)) as [m|].
  - destruct H as (A & _). rewrite A. split; [discriminate | reflexivity].
  - split; [discriminate | intros C; contradiction].
Qed.


(** X10. A movement comes to its end: after [start_movement] at clock
    reading [now] with a duration below [2^53], any ticks followed by a tick
    at a reading [later] that is at least the (floored) duration after [now]
    leave the simulator at rest exactly at the clamped target, with speed 0;
    none of these calls raises. *)
Theorem movement_completes (self : t) (position : float) (duration_ms : Z)
    (now later : float) (times : list float) :
  (duration_ms < 2 ^ 53)%Z -> clock_ok now -> clock_ok later ->
  IZR (Z.max 10 duration_ms) <= FV later - FV now ->
  exists s1,
    start_movement self position duration_ms now = Ok s1 /\
    ticks s1 (times ++ [later]) = Ok (at_rest (clamp position)).
Proof.
  intros Hd Cn Cl He.
  assert (Hmax : (2 ^ 53 <= max_double)%Z) by (unfold max_double; lia).
  destruct (start_movement_ok self position duration_ms now) as (speed & Es); [lia|].
  exists (started self position duration_ms now speed). split; [exact Es|].
  set (m := {| Movement.start_position := current_position self;
               Movement.target_position := clamp position;
               Movement.duration_ms := Z.max 10 duration_ms;
               Movement.start_time_ms := now;
               Movement.is_active := true |}).
  assert (D : (10 <= Movement.duration_ms m <= max_double)%Z) by (cbn; lia).
  destruct (ticks_toward m times eq_refl D (started self position duration_ms now speed))
    as (s2 & E2 & J).
  { right. split; reflexivity. }
  rewrite ticks_app, E2. cbn [bind ticks].
  destruct J as [->|[Hm T]].
  - reflexivity.
  - rewrite (update_position_arrive s2 m later Hm eq_refl).
    + cbn [bind]. unfold arrived, at_rest. rewrite T. reflexivity.
    + apply elapsed_reaches; auto. cbn. lia.
Qed.

Lemma movement_completes_witness :
  exists s1,
    start_movement init f1 100 f0 = Ok s1 /\
    ticks s1 ([f50] ++ [f120]) = Ok (at_rest (clamp f1)).
Proof.
  apply (movement_completes init f1 100 f0 f120 [f50]).
  - lia.
  - split; reflexivity.
  - split; reflexivity.
  - rewrite FV_f120, FV_f0. change (Z.max 10 100) with 100%Z. lra.
Defined.

(** X11. Along every run of operations with finite, non-decreasing clock
    readings, the speed the simulator shows is a finite number from 0 to
    12500 mm/s. *)
Theorem speed_invariant (ops : list op) :
  Forall op_ok ops -> nondecreasing ops ->
  speed_ok (speed_mms (run_ops init ops)).
Proof.
  intros HF HN. destruct ops as [|o ops'].
  - exact speed_ok_f0.
  - inversion HF as [|? ? Ho HF']. subst.
    apply (speed_run (o :: ops') (op_time o) init).
    + apply Inv_init.
    + exact speed_ok_f0.
    + apply Ho.
    + assumption.
    + split; [|exact HN]. apply fle_refl_clock. apply Ho.
Qed.

Lemma speed_invariant_witness : speed_ok (speed_mms (run_ops init sample_run)).
Proof.
  apply (speed_invariant sample_run).
  - repeat constructor.
  - repeat split.
Defined.

(** X12. While a movement is under way the position only moves away from
    the start, toward the target: of two ticks at readings [now1 <= now2]
    that both find the movement unfinished, the second leaves a position at
    least as far from the start as the first, and neither is behind the
    start. *)
Theorem position_monotone (self : t) (m : Movement.t) (now1 now2 : float) :
  current_movement self = Some m -> Movement.is_active m = true ->
  unit_ok (Movement.start_position m) -> unit_ok (Movement.target_position m) ->
  clock_ok (Movement.start_time_ms m) -> clock_ok now1 -> clock_ok now2 ->
  FV (Movement.start_time_ms m) <= FV now1 <= FV now2 ->
  (Movement.duration_ms m <= max_double)%Z ->
  float_ge_int (fsub now2 (Movement.start_time_ms m)) (Movement.duration_ms m) = false ->
  exists p1 p2,
    update_position self now1 = Ok (moved self p1) /\
    update_position (moved self p1) now2 = Ok (moved (moved self p1) p2) /\
    (FV (Movement.start_position m) <= FV (Movement.target_position m) ->
     FV (Movement.start_position m) <= FV p1 <= FV p2) /\
    (FV (Movement.target_position m) <= FV (Movement.start_position m) ->
     FV p2 <= FV p1 <= FV (Movement.start_position m)).
Proof.
  intros Hm A Us Ut Cs C1 C2 [H01 H12] Dmax G2.
  set (st := Movement.start_time_ms m) in *.
  set (D := Movement.duration_ms m) in *.
  destruct (elapsed_nonneg now1 st C1 Cs H01) as (V1 & N1 & P1).
  destruct (elapsed_nonneg now2 st C2 Cs ltac:(lra)) as (V2 & N2 & P2).
  pose proof (duration_positive _ _ V2 N2 P2 G2) as D1.
  destruct (float_of_int_between D f1 max_float valid_f1 eq_refl valid_max_float eq_refl)
    as (d & Hf & Vd & Fd & Bd).
  { rewrite FV_f1, FV_max_float. split; apply IZR_le; lia. }
  rewrite FV_f1 in Bd.
  destruct (progress_in_unit _ d D V2 N2 P2 G2 Hf) as [Zd Uq2].
  assert (F2 : finite (fsub now2 st) = true).
  { destruct (fsub now2 st) as [s|[]| |s m' e]; try reflexivity; try discriminate.
    cbn [XV] in P2. pose proof (bpow_pos 1024). lra. }
  assert (L2 : FV (fsub now2 st) < IZR D).
  { destruct (Rlt_le_dec (FV (fsub now2 st)) (IZR D)) as [H|H]; [assumption|].
    apply (float_ge_int_spec _ D F2) in H. congruence. }
  pose proof (fsub_RndS now1 st (proj1 C1) (proj1 Cs) (proj2 C1) (proj2 Cs)) as R1.
  pose proof (fsub_RndS now2 st (proj1 C2) (proj1 Cs) (proj2 C2) (proj2 Cs)) as R2.
  assert (Hle : FV now1 - FV st <= FV now2 - FV st) by lra.
  pose proof (RndS_mono _ _ _ _ Hle R1 R2) as M12.
  rewrite (XV_finite _ F2) in M12.
  assert (F1 : finite (fsub now1 st) = true).
  { apply finite_of_bounds; [exact N1|]. pose proof (bpow_pos 1024).
    pose proof (valid_range _ V2 F2). lra. }
  rewrite (XV_finite _ F1) in M12, P1.
  assert (G1 : float_ge_int (fsub now1 st) D = false).
  { destruct (float_ge_int (fsub now1 st) D) eqn:G; [|reflexivity].
    apply (float_ge_int_spec _ D F1) in G. lra. }
  destruct (progress_in_unit _ d D V1 N1 ltac:(rewrite (XV_finite _ F1); exact P1) G1 Hf)
    as [_ Uq1].
  set (q1 := SFdiv prec emax (fsub now1 st) d) in *.
  set (q2 := SFdiv prec emax (fsub now2 st) d) in *.
  assert (Q12 : FV q1 <= FV q2).
  { pose proof (fdiv_RndS _ d V1 Vd F1 Fd Zd) as Rq1.
    pose proof (fdiv_RndS _ d V2 Vd F2 Fd Zd) as Rq2.
    assert (Pi : 0 < / FV d) by (apply Rinv_0_lt_compat; lra).
    assert (Hq : FV (fsub now1 st) / FV d <= FV (fsub now2 st) / FV d).
    { unfold Rdiv. apply Rmult_le_compat_r; lra. }
    pose proof (RndS_mono _ _ _ _ Hq Rq1 Rq2) as Mq.
    destruct Uq1 as (_ & Fq1 & _). destruct Uq2 as (_ & Fq2 & _).
    fold q1 q2 in Mq. rewrite (XV_finite _ Fq1), (XV_finite _ Fq2) in Mq. exact Mq. }
  exists (lerp m q1), (lerp m q2).
  split; [apply update_position_move; assumption|].
  split; [apply (update_position_move (moved self (lerp m q1)) m now2 d); assumption|].
  assert (U0 : unit_ok f0) by exact unit_ok_f0.
  assert (Q01 : FV f0 <= FV q1) by (rewrite FV_f0; apply Uq1).
  destruct (lerp_mono m q1 q2 Us Ut Uq1 Uq2 Q12) as [Up Dn].
  destruct (lerp_mono m f0 q1 Us Ut U0 Uq1 Q01) as [Up0 Dn0].
  rewrite (lerp_start m Us Ut) in Up0, Dn0.
  split; intros H; split; auto.
Qed.

Lemma position_monotone_witness :
  exists p1 p2,
    update_position state_moving f0 = Ok (moved state_moving p1) /\
    update_position (moved state_moving p1) f50 =
      Ok (moved (moved state_moving p1) p2) /\
    (FV f0_5 <= FV f1 -> FV f0_5 <= FV p1 <= FV p2) /\
    (FV f1 <= FV f0_5 -> FV p2 <= FV p1 <= FV f0_5).
Proof.
  apply (position_monotone state_moving movement_to_one f0 f50).
  - reflexivity.
  - reflexivity.
  - exact unit_ok_f0_5.
  - exact unit_ok_f1.
  - split; reflexivity.
  - split; reflexivity.
  - split; reflexivity.
  - cbn [movement_to_one Movement.start_time_ms]. rewrite FV_f0, FV_f50. lra.
  - unfold max_double. cbn [movement_to_one Movement.duration_ms]. lia.
  - vm_compute. reflexivity.
Defined.

(** X13. Fed by the decoder, the model never raises: along every run of
    received payloads and rounds of the movement loop whose clock readings
    are finite and never run backward, [handle_message] and
    [update_position] always return; the position stays in the unit
    interval and the speed between 0 and 12500 mm/s. *)
Theorem fed_runs_never_raise (evs : list event) :
  events_ok evs ->
  exists self',
    run_events init evs = Ok self' /\
    Decoder.in_unit (current_position self') = true /\
    speed_ok (speed_mms self').
Proof.
  intros HE.
  assert (K0 : forall last, fed_ok last init).
  { intros last. split; [apply Inv_init | split; [exact speed_ok_f0 | exact I]]. }
  assert (H : exists last' self', run_events init evs = Ok self' /\ fed_ok last' self').
  { destruct evs as [|ev evs'].
    - exists f0, init. split; [reflexivity | apply K0].
    - destruct HE as [CE HE].
      apply (fed_run (ev :: evs') (event_time ev) init (K0 _) CE).
      split; [exact CE|]. split; [apply fle_refl_clock; exact CE | exact HE]. }
  destruct H as (last' & self' & E & (HI & _) & HS & _).
  exists self'. split; [exact E|]. split; [|exact HS].
  apply unit_ok_in_unit. exact HI.
Qed.

Lemma fed_runs_never_raise_witness :
  exists self',
    run_events init sample_events = Ok self' /\
    Decoder.in_unit (current_position self') = true /\
    speed_ok (speed_mms self').
Proof.
  apply (fed_runs_never_raise sample_events).
  repeat split.
Defined.

End LoopTheorems.

Section TickIndependence.

Import FloatSem SimSpec HandySimulator LoopSpec.

(** X20. The position does not depend on how often the model is ticked:
    after a tick that leaves the movement under way, a tick at any clock
    reading gives exactly what it would have given without the first one
    (the same state, or the same exception). *)
Theorem tick_history_independent (self s1 : t) (now1 now2 : float) :
  update_position self now1 = Ok s1 -> current_movement s1 <> None ->
  update_position s1 now2 = update_position self now2.
Proof.
  intros H1 Hm1. revert H1. unfold update_position at 1.
  destruct (current_movement self) as [m|] eqn:Hm;
    [|intros H; injection H as <-; reflexivity].
  destruct (Movement.is_active m) eqn:A;
    [|intros H; injection H as <-; reflexivity].
  destruct (float_ge_int _ _).
  { intros H. injection H as <-. cbn in Hm1. contradiction. }
  destruct (float_of_int _) as [d|e]; cbn [bind]; [|discriminate].
  unfold truediv. destruct (is_zero d); cbn [bind]; [discriminate|].
  intros H. injection H as <-.
  unfold update_position. cbn [current_movement target_position speed_mms].
  rewrite Hm, A. reflexivity.
Qed.

Lemma tick_history_independent_witness :
  update_position state_midway f120 = update_position state_moving f120.
Proof.
  apply (tick_history_independent state_moving state_midway f50 f120).
  - vm_compute. reflexivity.
  - discriminate.
Defined.

End TickIndependence.

(** ** The display *)

Section DisplayFacts.

Import FloatSem SimSpec HandySimulator LoopSpec PyNum VisualDisplay DisplaySpec.
Local Open Scope R_scope.

(** [int(x)] of a non-negative number is its integer part. *)
Lemma int_of_float_spec (x : float) :
  finite x = true -> 0 <= FV x ->
  exists n, int_of_float x = Ok n /\ (0 <= n)%Z /\ IZR n <= FV x < IZR n + 1.
Proof.
  intros F H. destruct x as [s| | |s m e]; try discriminate.
  - exists 0%Z. cbn [int_of_float FV]. split; [reflexivity|]. split; [lia | lra].
  - pose proof (IZR_pos m) as Pm. pose proof (bpow_pos e) as Pe.
    assert (P : 0 < IZR (Zpos m) * bpow e) by (apply Rmult_lt_0_compat; assumption).
    destruct s; cbn [FV] in H; [lra|]. cbn [int_of_float cond_Zopp FV].
    eexists. split; [reflexivity|].
    destruct (Z.leb_spec 0 e) as [He|He].
    + split; [lia|]. rewrite mult_IZR, IZR_pow2 by assumption. lra.
    + set (k := (- e)%Z). assert (Hk : (0 < k)%Z) by (unfold k; lia).
      assert (P2 : (0 < 2 ^ k)%Z) by (apply Z.pow_pos_nonneg; lia).
      pose proof (Z.div_mod (Zpos m) (2 ^ k) ltac:(lia)) as DM.
      pose proof (Z.mod_pos_bound (Zpos m) (2 ^ k) P2) as MB.
      set (q := (Zpos m / 2 ^ k)%Z) in *. set (r := (Zpos m mod 2 ^ k)%Z) in *.
      assert (Hq : (0 <= q)%Z) by (unfold q; apply Z.div_pos; lia).
      split; [exact Hq|].
      assert (Em : IZR (Zpos m) = IZR q * bpow k + IZR r).
      { rewrite DM at 1. rewrite plus_IZR, mult_IZR, IZR_pow2 by lia. ring. }
      assert (C : bpow k * bpow e = 1).
      { replace e with (- k)%Z by (unfold k; lia). apply bpow_cancel. }
      assert (Ev : IZR (Zpos m) * bpow e = IZR q + IZR r * bpow e).
      { rewrite Em, Rmult_plus_distr_r, Rmult_assoc, C. ring. }
      rewrite Ev.
      assert (R0 : 0 <= IZR r) by (apply IZR_le; lia).
      assert (R1 : IZR r < bpow k) by (rewrite <- IZR_pow2 by lia; apply IZR_lt; lia).
      assert (0 <= IZR r * bpow e) by (apply Rmult_le_pos; lra).
      assert (IZR r * bpow e < bpow k * bpow e) by (apply Rmult_lt_compat_r; lra).
      lra.
Qed.

Lemma int_of_float_mono (x y : float) (n k : Z) :
  finite x = true -> finite y = true -> 0 <= FV x <= FV y ->
  int_of_float x = Ok n -> int_of_float y = Ok k -> (n <= k)%Z.
Proof.
  intros Fx Fy [H0 H] Hx Hy.
  destruct (int_of_float_spec x Fx H0) as (n' & En & _ & Bn).
  destruct (int_of_float_spec y Fy ltac:(lra)) as (k' & Ek & _ & Bk).
  rewrite Hx in En. rewrite Hy in Ek. injection En as <-. injection Ek as <-.
  assert (L : IZR n < IZR (k + 1)) by (rewrite plus_IZR; lra).
  apply lt_IZR in L. lia.
Qed.

Lemma FV_f20 : FV f20 = 20.
Proof. apply (FV_scaled 20 48); [lia | reflexivity]. Qed.

(** The clamped progress is a number of the unit interval, whatever the
    progress (infinities and NaN included). *)
Lemma progress_clamped_unit_ok (progress : float) :
  valid progress = true -> unit_ok (progress_clamped progress).
Proof.
  intros V. unfold progress_clamped, Py.min, Py.max.
  destruct (flt f0 progress) eqn:E0.
  - destruct (flt progress f1) eqn:E1; [|exact unit_ok_f1].
    destruct (flt_not_nan _ _ E1) as [N _].
    apply flt_XV in E1; auto. apply flt_XV in E0; auto.
    rewrite (XV_finite f1 eq_refl), FV_f1 in E1.
    rewrite (XV_finite f0 eq_refl), FV_f0 in E0.
    pose proof bpow_1024_gt_1.
    assert (F : finite progress = true) by (apply finite_of_bounds; [assumption | lra]).
    rewrite (XV_finite _ F) in E1, E0. repeat split; auto; lra.
  - change (flt f0 f1) with true. cbv iota. exact unit_ok_f0.
Qed.

(** On numbers the clamped progress is the real clamp. *)
Lemma progress_clamped_value (progress : float) :
  valid progress = true -> is_nan progress = false ->
  FV (progress_clamped progress) = Rmin 1 (Rmax 0 (XV progress)).
Proof.
  intros V N. unfold progress_clamped, Py.min, Py.max.
  pose proof (flt_XV f0 progress valid_f0 V eq_refl N) as H0.
  rewrite (XV_finite f0 eq_refl), FV_f0 in H0.
  pose proof (flt_XV progress f1 V valid_f1 N eq_refl) as H1.
  rewrite (XV_finite f1 eq_refl), FV_f1 in H1.
  destruct (flt f0 progress) eqn:E0.
  - assert (L0 : 0 < XV progress) by (apply H0; exact E0).
    rewrite Rmax_right by lra.
    destruct (flt progress f1) eqn:E1.
    + assert (L1 : XV progress < 1) by (apply H1; exact E1).
      rewrite Rmin_right by lra. pose proof bpow_1024_gt_1.
      symmetry. apply XV_finite. apply finite_of_bounds; [assumption | lra].
    + assert (L1 : ~ XV progress < 1)
        by (intros C; apply H1 in C; unfold flt in E1; congruence).
      rewrite Rmin_left by lra. apply FV_f1.
  - assert (L0 : ~ 0 < XV progress)
      by (intros C; apply H0 in C; unfold flt in E0; congruence).
    rewrite Rmax_left by lra. rewrite Rmin_right by lra.
    change (flt f0 f1) with true. cbv iota. apply FV_f0.
Qed.

(** The number of filled cells of the progress bar. *)
Lemma filled_cells (progress : float) :
  valid progress = true ->
  exists filled,
    int_of_float (fmul (progress_clamped progress) f20) = Ok filled /\
    (0 <= filled <= 20)%Z /\
    finite (fmul (progress_clamped progress) f20) = true /\
    0 <= FV (fmul (progress_clamped progress) f20).
Proof.
  intros V. destruct (progress_clamped_unit_ok progress V) as (Vc & Fc & Bc).
  pose proof (fmul_RndS _ f20 Vc eq_refl Fc eq_refl) as HR. rewrite FV_f20 in HR.
  assert (B : FV f0 <= FV (progress_clamped progress) * 20 <= FV f20)
    by (rewrite FV_f0, FV_f20; lra).
  destruct (RndS_between _ _ f0 f20 HR valid_f0 eq_refl eq_refl eq_refl B) as (_ & F & B').
  rewrite FV_f0, FV_f20 in B'.
  destruct (int_of_float_spec _ F (proj1 B')) as (n & En & Hn & Bn).
  exists n. split; [exact En|]. split; [|split; [exact F | apply B']].
  split; [exact Hn|]. assert (L : IZR n < IZR 21) by lra. apply lt_IZR in L. lia.
Qed.

Lemma count_app (g : glyph) (l1 l2 : list glyph) :
  count g (l1 ++ l2) = (count g l1 + count g l2)%nat.
Proof. unfold count. rewrite filter_app, length_app. reflexivity. Qed.

Lemma count_repeat (g c : glyph) (n : nat) :
  count g (repeat c n) = if match c, g with
                            | Track, Track | Mark, Mark | Block, Block | Shade, Shade => true
                            | _, _ => false
                            end then n else 0%nat.
Proof.
  unfold count. induction n as [|n IH]; cbn [repeat filter].
  - destruct c, g; reflexivity.
  - destruct c, g; cbn [length]; cbn [length] in IH; try rewrite IH; reflexivity.
Qed.

End DisplayFacts.

Section ProgressBar.

Import FloatSem SimSpec HandySimulator LoopSpec PyNum VisualDisplay DisplaySpec.
Local Open Scope R_scope.

Lemma progress_cells_length (filled : nat) :
  (filled <= 20)%nat -> length (progress_cells filled) = 20%nat.
Proof.
  intros H. unfold progress_cells. rewrite length_app, !repeat_length. lia.
Qed.

(** The bar of [draw_progress_bar], through its number of filled cells. *)
Lemma draw_progress_bar_cells (progress : float) :
  valid progress = true ->
  exists filled : Z,
    int_of_float (fmul (progress_clamped progress) f20) = Ok filled /\
    (0 <= filled <= 20)%Z /\
    draw_progress_bar progress = Ok (progress_cells (Z.to_nat filled)).
Proof.
  intros V. destruct (filled_cells progress V) as (n & En & Hn & _).
  exists n. split; [exact En|]. split; [exact Hn|].
  unfold draw_progress_bar. rewrite En. cbn [bind]. unfold progress_cells.
  replace (Z.to_nat (20 - n)) with (20 - Z.to_nat n)%nat by lia. reflexivity.
Qed.

(** A double below 1.0 is at most the largest double below 1.0. *)
Lemma below_one (x : float) :
  valid x = true -> finite x = true -> FV x < 1 -> FV x <= FV pred_f1.
Proof.
  intros V F H.
  assert (P : 0 < FV pred_f1).
  { unfold pred_f1. cbn [FV]. apply Rmult_lt_0_compat; [apply IZR_pos | apply bpow_pos]. }
  destruct x as [s| | |s m e]; try discriminate; [cbn [FV]; lra|].
  pose proof (IZR_pos m) as Pm. pose proof (bpow_pos e) as Pe.
  assert (Pv : 0 < IZR (Zpos m) * bpow e) by (apply Rmult_lt_0_compat; assumption).
  destruct s; cbn [FV] in *; [lra|].
  destruct (valid_finite_inv false m e V) as (He & Hm & Hn).
  destruct (Z.le_gt_cases e (-53)) as [L|G].
  - unfold pred_f1. cbn [FV].
    apply Rmult_le_compat; try lra.
    + apply IZR_le. change 9007199254740991%Z with (2 ^ 53 - 1)%Z. lia.
    + apply bpow_le. exact L.
  - exfalso.
    assert (H52 : IZR (2 ^ 52) <= IZR (Zpos m)) by (apply IZR_le; apply Hn; lia).
    rewrite IZR_pow2 in H52 by lia.
    assert (Hb : bpow (-52) <= bpow e) by (apply bpow_le; lia).
    pose proof (bpow_pos 52) as P52. pose proof (bpow_pos (-52)) as Pm52.
    assert (bpow 52 * bpow (-52) <= IZR (Zpos m) * bpow e)
      by (apply Rmult_le_compat; lra).
    rewrite bpow_cancel in *. lra.
Qed.

(** X14. [draw_progress_bar] is total on binary64 numbers: for every
    progress, NaN and the infinities included, it returns a bar of exactly
    20 cells, some filled cells followed by empty ones. *)
Theorem draw_progress_bar_total (progress : float) :
  valid progress = true ->
  exists filled : nat,
    (filled <= 20)%nat /\
    draw_progress_bar progress = Ok (progress_cells filled) /\
    length (progress_cells filled) = 20%nat /\
    count Block (progress_cells filled) = filled.
Proof.
  intros V. destruct (draw_progress_bar_cells progress V) as (n & _ & Hn & E).
  exists (Z.to_nat n). assert (L : (Z.to_nat n <= 20)%nat) by lia.
  split; [exact L|]. split; [exact E|]. split; [apply progress_cells_length; exact L|].
  unfold progress_cells. rewrite count_app, !count_repeat. lia.
Qed.

Lemma draw_progress_bar_total_witness :
  exists filled : nat,
    (filled <= 20)%nat /\
    draw_progress_bar S754_nan = Ok (progress_cells filled) /\
    length (progress_cells filled) = 20%nat /\
    count Block (progress_cells filled) = filled.
Proof.
  apply (draw_progress_bar_total S754_nan). reflexivity.
Defined.

(** X15. The progress bar grows with the progress: of two numbers
    [p1 <= p2] (infinities included) the second fills at least as many
    cells; the bar is empty for a progress of 0 or less, and full exactly
    for a progress of 1 or more. *)
Theorem draw_progress_bar_monotone (p1 p2 : float) :
  valid p1 = true -> valid p2 = true -> is_nan p1 = false -> is_nan p2 = false ->
  XV p1 <= XV p2 ->
  exists n1 n2 : nat,
    draw_progress_bar p1 = Ok (progress_cells n1) /\
    draw_progress_bar p2 = Ok (progress_cells n2) /\
    (n1 <= n2 <= 20)%nat /\
    (XV p1 <= 0 -> n1 = 0%nat) /\
    (n2 = 20%nat <-> 1 <= XV p2).
Proof.
  intros V1 V2 N1 N2 H.
  destruct (draw_progress_bar_cells p1 V1) as (k1 & E1 & B1 & D1).
  destruct (draw_progress_bar_cells p2 V2) as (k2 & E2 & B2 & D2).
  destruct (filled_cells p1 V1) as (k1' & E1' & _ & F1 & P1).
  destruct (filled_cells p2 V2) as (k2' & E2' & _ & F2 & P2).
  destruct (progress_clamped_unit_ok p1 V1) as (Vc1 & Fc1 & Bc1).
  destruct (progress_clamped_unit_ok p2 V2) as (Vc2 & Fc2 & Bc2).
  pose proof (progress_clamped_value p1 V1 N1) as C1.
  pose proof (progress_clamped_value p2 V2 N2) as C2.
  pose proof (fmul_RndS _ f20 Vc1 eq_refl Fc1 eq_refl) as R1.
  pose proof (fmul_RndS _ f20 Vc2 eq_refl Fc2 eq_refl) as R2.
  rewrite FV_f20 in R1, R2.
  exists (Z.to_nat k1), (Z.to_nat k2).
  split; [exact D1|]. split; [exact D2|]. split; [|split].
  - assert (Hc : FV (progress_clamped p1) <= FV (progress_clamped p2)).
    { rewrite C1, C2. apply Rle_min_compat_l. apply Rle_max_compat_l. exact H. }
    assert (Hm : FV (progress_clamped p1) * 20 <= FV (progress_clamped p2) * 20) by lra.
    pose proof (RndS_mono _ _ _ _ Hm R1 R2) as M.
    rewrite (XV_finite _ F1), (XV_finite _ F2) in M.
    pose proof (int_of_float_mono _ _ _ _ F1 F2 (conj P1 M) E1 E2). lia.
  - intros L.
    assert (Z1 : FV (progress_clamped p1) = 0).
    { rewrite C1. rewrite Rmax_left by exact L. apply Rmin_right. lra. }
    rewrite Z1, Rmult_0_l in R1.
    assert (B00 : FV f0 <= 0 <= FV f0) by (rewrite FV_f0; lra).
    destruct (RndS_between _ _ f0 f0 R1 valid_f0 eq_refl valid_f0 eq_refl B00)
      as (_ & _ & B0).
    rewrite FV_f0 in B0.
    destruct (int_of_float_spec _ F1 P1) as (n & En & Hn & Bn).
    rewrite E1 in En. injection En as <-.
    assert (L1 : IZR k1 < IZR 1) by lra. apply lt_IZR in L1.
    replace k1 with 0%Z by lia. reflexivity.
  - destruct (int_of_float_spec _ F2 P2) as (n & En & Hn & Bn).
    rewrite E2 in En. injection En as <-.
    split.
    + intros E20. assert (K : k2 = 20%Z) by lia. subst k2.
      destruct (Rle_lt_dec 1 (XV p2)) as [G|L]; [exact G|]. exfalso.
      assert (Lc : FV (progress_clamped p2) < 1).
      { rewrite C2. eapply Rle_lt_trans; [apply Rmin_r | apply Rmax_lub_lt; lra]. }
      pose proof (below_one _ Vc2 Fc2 Lc) as Hp.
      pose proof (fmul_RndS pred_f1 f20 eq_refl eq_refl eq_refl eq_refl) as Rp.
      rewrite FV_f20 in Rp.
      assert (Hm : FV (progress_clamped p2) * 20 <= FV pred_f1 * 20) by lra.
      pose proof (RndS_mono _ _ _ _ Hm R2 Rp) as M.
      assert (Fp : finite (fmul pred_f1 f20) = true) by (vm_compute; reflexivity).
      rewrite (XV_finite _ F2), (XV_finite _ Fp) in M.
      assert (Ep : int_of_float (fmul pred_f1 f20) = Ok 19%Z) by (vm_compute; reflexivity).
      pose proof (int_of_float_mono _ _ _ _ F2 Fp (conj P2 M) E2 Ep). lia.
    + intros G.
      assert (Z1 : FV (progress_clamped p2) = 1).
      { rewrite C2. rewrite Rmax_right by lra. apply Rmin_left. exact G. }
      rewrite Z1, Rmult_1_l in R2.
      assert (B20 : FV f20 <= 20 <= FV f20) by (rewrite FV_f20; lra).
      destruct (RndS_between _ _ f20 f20 R2 eq_refl eq_refl eq_refl eq_refl B20)
        as (_ & _ & B0).
      rewrite FV_f20 in B0.
      assert (L1 : IZR 19 < IZR k2) by lra. apply lt_IZR in L1. lia.
Qed.

Lemma draw_progress_bar_monotone_witness :
  exists n1 n2 : nat,
    draw_progress_bar f0_5 = Ok (progress_cells n1) /\
    draw_progress_bar (S754_infinity false) = Ok (progress_cells n2) /\
    (n1 <= n2 <= 20)%nat /\
    (XV f0_5 <= 0 -> n1 = 0%nat) /\
    (n2 = 20%nat <-> 1 <= XV (S754_infinity false)).
Proof.
  apply (draw_progress_bar_monotone f0_5 (S754_infinity false)); try reflexivity.
  destruct unit_ok_f0_5 as (_ & _ & B). rewrite (XV_finite f0_5 eq_refl).
  change (XV (S754_infinity false)) with (bpow 1024).
  pose proof bpow_1024_gt_1. lra.
Defined.

End ProgressBar.

Section PositionBar.

Import FloatSem SimSpec HandySimulator LoopSpec PyNum VisualDisplay DisplaySpec.
Local Open Scope R_scope.











End PositionBar.

Section DisplayTheorems.

Import FloatSem SimSpec HandySimulator LoopSpec PyNum VisualDisplay DisplaySpec.
Local Open Scope R_scope.











End DisplayTheorems.
